(** * Huffman file compressor: the codec of [file_compressor.cpp]

    A shallow embedding of [FileCompressor::compress] and
    [FileCompressor::decompress] together with the helpers they call
    ([buildCodeMap], [writeTree], [readTree]), and the properties of the
    container format that follow from the code.

    Conventions.
    - A [char] is a [Byte.byte]; a file is the [list byte] of its contents.
    - The strings [str], [buffer] and [bitString] of the program only ever
      hold the characters '0' and '1'; they are lists of booleans, [false]
      for '0' and [true] for '1'.
    - [int] is 32 bits and [size_t] is 64 bits, little endian; the
      wrap-around of both is written out.
    - What the C++ standard leaves to the implementation (the order in which
      an [unordered_map] is traversed, which of several equal-weight nodes a
      [priority_queue] hands out first, whether [char] is signed) is a
      parameter of the model, the class [Platform].
    - A run that reads through a null pointer, reads a variable no
      successful extraction ever wrote, or calls [top] on an empty queue has
      no defined behaviour; the model returns [Undefined] there. *)

From Stdlib Require Import List ZArith Lia Bool Permutation.
From Stdlib Require Import Strings.Byte.
Import ListNotations.
Local Open Scope Z_scope.

(** ** Outcomes of a run *)

Inductive fault : Type :=
| TopOfEmptyQueue      (* pq.top() while pq.empty() *)
| NullDereference      (* p->left, p->right or p->freq with p == nullptr *)
| IndeterminateValue.  (* a variable read after the extraction into it failed *)

Inductive outcome (A : Type) : Type :=
| Returns (a : A)
| Undefined (f : fault)
| OutOfFuel.

Arguments Returns {A} a.
Arguments Undefined {A} f.
Arguments OutOfFuel {A}.

Definition bind {A B : Type} (m : outcome A) (k : A -> outcome B) : outcome B :=
  match m with
  | Returns a => k a
  | Undefined f => Undefined f
  | OutOfFuel => OutOfFuel
  end.

Notation "x <- m ;; k" := (bind m (fun x => k))
  (at level 61, m at next level, right associativity).
Notation "' pat <- m ;; k" := (bind m (fun x => match x with pat => k end))
  (at level 61, pat pattern, m at next level, right associativity).

(** ** Machine integers and bytes *)

(** [int] arithmetic. (An [int] that overflows has no defined behaviour in
    C++; the model takes the two's-complement result, as the usual targets
    do. No property below involves an overflow.) *)
Definition wrap_int (z : Z) : Z := (z + 2 ^ 31) mod 2 ^ 32 - 2 ^ 31.

(** [size_t] arithmetic. *)
Definition wrap_size_t (z : Z) : Z := z mod 2 ^ 64.

Definition Z_of_byte (b : byte) : Z := Z.of_N (Byte.to_N b).

Definition byte_of_Z (z : Z) : byte :=
  match Byte.of_N (Z.to_N (z mod 256)) with
  | Some b => b
  | None => x00
  end.

(** [out.write(reinterpret_cast<const char*>(&totalChars), sizeof(totalChars))] *)
Definition size_t_bytes (n : Z) : list byte :=
  [ byte_of_Z n; byte_of_Z (n / 2 ^ 8); byte_of_Z (n / 2 ^ 16);
    byte_of_Z (n / 2 ^ 24); byte_of_Z (n / 2 ^ 32); byte_of_Z (n / 2 ^ 40);
    byte_of_Z (n / 2 ^ 48); byte_of_Z (n / 2 ^ 56) ].

Definition size_t_value (bs : list byte) : Z :=
  fold_right (fun b acc => Z_of_byte b + 256 * acc) 0 bs.

(** [bitset<8> b(s); b.to_ulong()] for a string [s] of at most eight
    characters: the last character is bit 0. *)
Definition bitset_of_string (s : list bool) : byte :=
  match repeat false (8 - length s)%nat ++ s with
  | [b7; b6; b5; b4; b3; b2; b1; b0] =>
      Byte.of_bits (b0, (b1, (b2, (b3, (b4, (b5, (b6, b7)))))))
  | _ => x00
  end.

(** [bitset<8> b(byte); b.to_string()]: most significant bit first. *)
Definition bits_of_byte (b : byte) : list bool :=
  let '(b0, (b1, (b2, (b3, (b4, (b5, (b6, b7))))))) := Byte.to_bits b in
  [b7; b6; b5; b4; b3; b2; b1; b0].

(** The loop [for (i = 0; i < buffer.size(); i += 8) out.put(bitset<8>(buffer.substr(i, 8)))]. *)
Fixpoint pack_bits (buffer : list bool) : list byte :=
  match buffer with
  | [] => []
  | b7 :: b6 :: b5 :: b4 :: b3 :: b2 :: b1 :: b0 :: rest =>
      Byte.of_bits (b0, (b1, (b2, (b3, (b4, (b5, (b6, b7))))))) :: pack_bits rest
  | short => [bitset_of_string short]
  end.

(** The loop [while (in.get(byte)) bitString += bitset<8>(byte).to_string()]. *)
Definition unpack_bits (payload : list byte) : list bool :=
  flat_map bits_of_byte payload.

(** ** Nodes *)

(** [struct Node { char ch; int freq; Node *left, *right; }], seen through a
    [Node*]: [Null] is the null pointer. *)
Inductive tree : Type :=
| Null
| Node (ch : byte) (freq : Z) (left right : tree).

(** [!n->left && !n->right] *)
Definition is_leaf (n : tree) : bool :=
  match n with
  | Node _ _ Null Null => true
  | _ => false
  end.

Definition freq_of (n : tree) : Z :=
  match n with
  | Node _ f _ _ => f
  | Null => 0
  end.

(** ** What the implementation chooses *)

Definition freq_table : Type := list (byte * Z).

Class Platform : Type := {
  (** whether plain [char] is a signed type *)
  char_is_signed : bool;
  (** the order in which [for (auto& pair : freq)] visits a table whose keys
      were inserted in the order of the list *)
  umap_order : freq_table -> freq_table;
  umap_order_perm : forall t, Permutation (umap_order t) t;
  (** [priority_queue<Node*, vector<Node*>, Compare>] *)
  pq : Type;
  pq_empty : pq;
  pq_push : tree -> pq -> pq;
  pq_top : pq -> option tree;
  pq_pop : pq -> pq;
  pq_size : pq -> nat;
  (** the nodes a queue holds *)
  pq_elems : pq -> list tree;
  pq_elems_empty : pq_elems pq_empty = [];
  pq_elems_push : forall n q, Permutation (pq_elems (pq_push n q)) (n :: pq_elems q);
  pq_size_elems : forall q, pq_size q = length (pq_elems q);
  pq_top_none : forall q, pq_elems q = [] -> pq_top q = None;
  pq_top_some : forall q, pq_elems q <> [] -> exists n, pq_top q = Some n;
  (** [Compare] orders by [freq] alone: the top is a node of least [freq] *)
  pq_top_least : forall q n, pq_top q = Some n ->
      Forall (fun m => freq_of n <= freq_of m) (pq_elems q);
  pq_pop_elems : forall q n, pq_top q = Some n ->
      Permutation (pq_elems q) (n :: pq_elems (pq_pop q))
}.

(** ** The frequency table *)

(** [freq[ch]++] on a table kept in the order its keys were first inserted. *)
Fixpoint freq_incr (ch : byte) (t : freq_table) : freq_table :=
  match t with
  | [] => [(ch, wrap_int (0 + 1))]
  | (k, n) :: t' =>
      if Byte.eqb k ch then (k, wrap_int (n + 1)) :: t'
      else (k, n) :: freq_incr ch t'
  end.

Definition count_freq (input : list byte) : freq_table :=
  fold_left (fun t ch => freq_incr ch t) input [].

(** ** The code table *)

Definition code_map : Type := list (byte * list bool).

(** [codeMap[ch] = code]: the newest binding of a key shadows the older ones. *)
Definition map_set (ch : byte) (code : list bool) (m : code_map) : code_map :=
  (ch, code) :: m.

(** [codeMap[ch]] as a value: the empty string for a key that is absent. *)
Fixpoint map_get (m : code_map) (ch : byte) : list bool :=
  match m with
  | [] => []
  | (k, code) :: m' => if Byte.eqb k ch then code else map_get m' ch
  end.

Fixpoint buildCodeMap (root : tree) (str : list bool) (codeMap : code_map) : code_map :=
  match root with
  | Null => codeMap
  | Node ch _ l r =>
      let codeMap1 :=
        if is_leaf root
        then map_set ch (match str with [] => [false] | _ => str end) codeMap
        else codeMap in
      let codeMap2 := buildCodeMap l (str ++ [false]) codeMap1 in
      buildCodeMap r (str ++ [true]) codeMap2
  end.

(** ** The tree codec *)

Fixpoint writeTree (node : tree) : list byte :=
  match node with
  | Null => []
  | Node ch _ l r =>
      if is_leaf node then ["1"%byte; ch]
      else "0"%byte :: writeTree l ++ writeTree r
  end.

(** [readTree] on the bytes that are left in the stream; it returns the node
    and the bytes it did not consume. Each call extracts a byte before it
    recurses, so [S (length s)] calls deep is as far as it can go. *)
Fixpoint readTree_fuel (fuel : nat) (s : list byte) : outcome (tree * list byte) :=
  match fuel with
  | O => OutOfFuel
  | S fuel' =>
      match s with
      | [] => Undefined IndeterminateValue          (* [type] was never written *)
      | type :: s1 =>
          if Byte.eqb type "1"%byte then
            match s1 with
            | [] => Undefined IndeterminateValue    (* [ch] was never written *)
            | ch :: s2 => Returns (Node ch 0 Null Null, s2)
            end
          else if Byte.eqb type "0"%byte then
            '(l, s2) <- readTree_fuel fuel' s1 ;;
            '(r, s3) <- readTree_fuel fuel' s2 ;;
            Returns (Node "000"%byte 0 l r, s3)
          else Returns (Null, s1)
      end
  end.

Definition readTree (s : list byte) : outcome (tree * list byte) :=
  readTree_fuel (S (length s)) s.

(** ** Padding *)

Definition encode (codeMap : code_map) (input : list byte) : list bool :=
  flat_map (map_get codeMap) input.

(** [int padding = 8 - (buffer.size() % 8)] *)
Definition padding_of (buffer : list bool) : Z :=
  8 - Z.of_nat (length buffer) mod 8.

(** [if (padding != 8) buffer += string(padding, '0')] *)
Definition add_padding (buffer : list bool) : list bool :=
  if padding_of buffer =? 8 then buffer
  else buffer ++ repeat false (Z.to_nat (padding_of buffer)).

Section Codec.

Context {P : Platform}.

(** The value of a [char] in an arithmetic expression. *)
Definition char_to_int (c : byte) : Z :=
  let v := Z_of_byte c in
  if 128 <=? v then (if char_is_signed then v - 256 else v) else v.

(** [if (padding != 8) bitString = bitString.substr(0, bitString.size() - padding)] *)
Definition remove_padding (padding : byte) (bitString : list bool) : list bool :=
  if char_to_int padding =? 8 then bitString
  else
    let count := wrap_size_t (Z.of_nat (length bitString) - char_to_int padding) in
    firstn (Z.to_nat count) bitString.

(** ** Building the tree *)

(** [for (auto& pair : freq) pq.push(new Node(pair.first, pair.second))] *)
Definition push_all (entries : freq_table) (q : pq) : pq :=
  fold_left (fun q e => pq_push (Node (fst e) (snd e) Null Null) q) entries q.

(** The block under "Handle single character file". *)
Definition wrap_single (q : pq) : outcome pq :=
  if Nat.eqb (pq_size q) 1 then
    match pq_top q with
    | None => Undefined TopOfEmptyQueue
    | Some Null => Undefined NullDereference
    | Some (Node _ f _ _ as single) =>
        let root := Node "000"%byte f single Null in
        Returns (pq_push root (pq_pop q))
    end
  else Returns q.

(** [while (pq.size() > 1) { ... }]; every round takes one node out of the
    queue, so [pq_size q] rounds are enough. *)
Fixpoint merge_loop (fuel : nat) (q : pq) : outcome pq :=
  if Nat.leb (pq_size q) 1 then Returns q
  else
    match fuel with
    | O => OutOfFuel
    | S fuel' =>
        match pq_top q with
        | None => Undefined TopOfEmptyQueue
        | Some l =>
            let q1 := pq_pop q in
            match pq_top q1 with
            | None => Undefined TopOfEmptyQueue
            | Some r =>
                let q2 := pq_pop q1 in
                match l, r with
                | Node _ lf _ _, Node _ rf _ _ =>
                    let merged := Node "000"%byte (wrap_int (lf + rf)) l r in
                    merge_loop fuel' (pq_push merged q2)
                | _, _ => Undefined NullDereference
                end
            end
        end
    end.

(** Lines 259 to 284 of [compress]: from the frequency table to [root]. *)
Definition huffman_root (input : list byte) : outcome tree :=
  let freq := count_freq input in
  let pq0 := push_all (umap_order freq) pq_empty in
  pq1 <- wrap_single pq0 ;;
  pq2 <- merge_loop (pq_size pq1) pq1 ;;
  match pq_top pq2 with
  | None => Undefined TopOfEmptyQueue
  | Some root => Returns root
  end.

(** ** compress *)

Definition MAGIC : list byte := ["H"%byte; "U"%byte; "F"%byte; "1"%byte].

(** What [compress] writes once [root] is known: everything up to the
    padding byte, then the packed bits. *)
Definition header_of (root : tree) (input : list byte) : list byte :=
  let codeMap := buildCodeMap root [] [] in
  let totalChars := wrap_size_t (Z.of_nat (length input)) in
  let buffer := encode codeMap input in
  MAGIC ++ writeTree root ++ ["#"%byte] ++ size_t_bytes totalChars
        ++ [byte_of_Z (padding_of buffer)].

Definition payload_of (root : tree) (input : list byte) : list byte :=
  let codeMap := buildCodeMap root [] [] in
  let buffer := encode codeMap input in
  pack_bits (add_padding buffer).

Definition container_of (root : tree) (input : list byte) : list byte :=
  header_of root input ++ payload_of root input.

(** The contents of the output file after [compress] on an input file with
    the contents [input]. (The returned statistics are left out.) *)
Definition compress (input : list byte) : outcome (list byte) :=
  root <- huffman_root input ;;
  Returns (container_of root input).

(** ** decompress *)

(** [string(magic) != "HUF1"], negated. *)
Definition is_magic (magic : list byte) : bool :=
  match magic with
  | [m0; m1; m2; m3] =>
      Byte.eqb m0 "H"%byte && Byte.eqb m1 "U"%byte
      && Byte.eqb m2 "F"%byte && Byte.eqb m3 "1"%byte
  | _ => false
  end.

(** [in.read(reinterpret_cast<char*>(&originalSize), sizeof(originalSize))]:
    [None] when fewer than eight bytes are left; the stream is then at its
    end and in the failed state. *)
Definition read_size_t (s : list byte) : option Z * list byte :=
  match s with
  | b0 :: b1 :: b2 :: b3 :: b4 :: b5 :: b6 :: b7 :: s' =>
      (Some (size_t_value [b0; b1; b2; b3; b4; b5; b6; b7]), s')
  | _ => (None, [])
  end.

(** The loop [for (char bit : bitString)]. *)
Fixpoint decode_loop (root : tree) (originalSize : Z) (bitString : list bool)
    (curr : tree) (decodedChars : Z) (out : list byte) : outcome (list byte) :=
  match bitString with
  | [] => Returns out
  | bit :: rest =>
      if originalSize <=? decodedChars then Returns out
      else
        match curr with
        | Null => Undefined NullDereference
        | Node _ _ l r =>
            match (if bit then r else l) with
            | Null => Undefined NullDereference
            | Node ch _ _ _ as next =>
                if is_leaf next
                then decode_loop root originalSize rest root
                       (wrap_size_t (decodedChars + 1)) (out ++ [ch])
                else decode_loop root originalSize rest next decodedChars out
            end
        end
  end.

(** The value [decompress] returns and the contents of the output file. *)
Definition decompress (container : list byte) : outcome (bool * list byte) :=
  if Nat.ltb (length container) 4 then Undefined IndeterminateValue
  else if negb (is_magic (firstn 4 container)) then Returns (false, [])
  else
    '(root, s1) <- readTree (skipn 4 container) ;;
    let s2 := tl s1 in                              (* in.get(delimiter) *)
    let '(originalSize, s3) := read_size_t s2 in
    match s3 with
    | [] => Undefined IndeterminateValue            (* [padding] was never written *)
    | padding :: payload =>
        let bitString := remove_padding padding (unpack_bits payload) in
        match originalSize with
        | None => Undefined IndeterminateValue
        | Some originalSize =>
            out <- decode_loop root originalSize bitString root 0 [] ;;
            Returns (true, out)
        end
    end.

End Codec.

(** ** Two platforms to run the model on *)

(** A queue kept as the list of its nodes in the order they were pushed;
    [top] is the first node of least [freq]. *)
Fixpoint extract_least (n : tree) (l : list tree) : tree * list tree :=
  match l with
  | [] => (n, [])
  | m :: l' =>
      let '(k, rest) := extract_least m l' in
      if freq_of n <=? freq_of k then (n, l) else (k, n :: rest)
  end.

Definition list_top (l : list tree) : option tree :=
  match l with
  | [] => None
  | n :: l' => Some (fst (extract_least n l'))
  end.

Definition list_pop (l : list tree) : list tree :=
  match l with
  | [] => []
  | n :: l' => snd (extract_least n l')
  end.

Definition list_push (n : tree) (l : list tree) : list tree := l ++ [n].

(** ** The vocabulary of the properties *)

(** The symbols at the leaves, from left to right. *)
Fixpoint leaves (t : tree) : list byte :=
  match t with
  | Null => []
  | Node ch _ l r => if is_leaf t then [ch] else leaves l ++ leaves r
  end.

(** The nodes the merge loop makes: a leaf, or a node with two such
    children. *)
Inductive huff : tree -> Prop :=
| huff_leaf ch f : huff (Node ch f Null Null)
| huff_node ch f l r : huff l -> huff r -> huff (Node ch f l r).

(** What [readTree] gives back for a node [writeTree] wrote: the shape and
    the symbols, with the weights gone. *)
Fixpoint erase (t : tree) : tree :=
  match t with
  | Null => Null
  | Node ch _ l r =>
      if is_leaf t then Node ch 0 Null Null
      else Node "000"%byte 0 (erase l) (erase r)
  end.

(** [reaches t p c]: from [t], the turns [p] lead through nodes that are not
    leaves to a leaf that holds [c]. *)
Fixpoint reaches (t : tree) (p : list bool) (c : byte) {struct p} : Prop :=
  match p with
  | [] => exists f, t = Node c f Null Null
  | b :: p' =>
      match t with
      | Null => False
      | Node _ _ l r => is_leaf t = false /\ reaches (if b then r else l) p' c
      end
  end.

Definition leaf_of (e : byte * Z) : tree := Node (fst e) (snd e) Null Null.

(** [n] is a node of least weight among [L], and [L'] is what is left. *)
Definition least_split (L : list tree) (n : tree) (L' : list tree) : Prop :=
  Permutation L (n :: L') /\ Forall (fun m => freq_of n <= freq_of m) L.

(** The input holds at least two distinct symbols. *)
Definition two_symbols (input : list byte) : Prop :=
  exists a b, In a input /\ In b input /\ a <> b.

(** The root [compress] builds for an input over the one symbol [c]. *)
Definition single_root (c : byte) (f : Z) : tree :=
  Node "000"%byte f (Node c f Null Null) Null.

(** The scenario input and the root [compress] builds for it. *)
Definition aaaabbbcc : list byte :=
  ["a"; "a"; "a"; "a"; "b"; "b"; "b"; "c"; "c"]%byte.

Definition aaaabbbcc_root : tree :=
  Node "000"%byte 9 (Node "a"%byte 4 Null Null)
       (Node "000"%byte 5 (Node "c"%byte 2 Null Null) (Node "b"%byte 3 Null Null)).

(** The sum over the table of frequency times code length. *)
Definition weighted_length (freq : freq_table) (codeMap : code_map) : Z :=
  fold_right (fun e acc => snd e * Z.of_nat (length (map_get codeMap (fst e))) + acc)
             0 freq.

(** ** The rest of the file: output names, statistics, the progress bar *)

(** [string::npos] *)
Definition npos : Z := 2 ^ 64 - 1.

(** [s.find_last_of(chars)]: the index of the last character of [s] that is
    one of [chars], [npos] when there is none. [i] is the index of the head
    of [s], [found] the last hit so far. *)
Fixpoint find_last_from (chars s : list byte) (i found : Z) : Z :=
  match s with
  | [] => found
  | c :: s' =>
      find_last_from chars s' (i + 1)
        (if existsb (Byte.eqb c) chars then i else found)
  end.

Definition find_last_of (chars s : list byte) : Z :=
  find_last_from chars s 0 npos.

(** [s.substr(pos)] and [s.substr(pos, n)]: [None] stands for the
    [std::out_of_range] thrown when [pos > s.size()]. *)
Definition substr_from (s : list byte) (pos : Z) : option (list byte) :=
  if Z.of_nat (length s) <? pos then None
  else Some (skipn (Z.to_nat pos) s).

Definition substr (s : list byte) (pos n : Z) : option (list byte) :=
  if Z.of_nat (length s) <? pos then None
  else Some (firstn (Z.to_nat n) (skipn (Z.to_nat pos) s)).

Definition getFileNameWithoutExtension (filepath : list byte) : option (list byte) :=
  let lastSlash := find_last_of ["/"%byte; x5c] filepath in
  let lastDot := find_last_of ["."%byte] filepath in
  match (if negb (lastSlash =? npos)
         then substr_from filepath (wrap_size_t (lastSlash + 1))
         else Some filepath) with
  | None => None
  | Some filename =>
      if negb (lastDot =? npos) && (lastSlash <? lastDot)
      then substr filename 0 (wrap_size_t (lastDot - wrap_size_t (lastSlash + 1)))
      else Some filename
  end.

(** Line 456 of [batchCompress]:
    [outputDir + "/" + getFileNameWithoutExtension(files[i]) + ".huf"]. *)
Definition batch_output_name (outputDir file : list byte) : option (list byte) :=
  match getFileNameWithoutExtension file with
  | None => None
  | Some stem =>
      Some (outputDir ++ ["/"%byte] ++ stem ++ ["."; "h"; "u"; "f"]%byte)
  end.

(** The integer fields of [CompressionStats] as [compress] fills them in:
    [totalChars], [freq.size()] as an [int], and the size of the output file
    once it is closed. (The ratio, the savings and the time are floating
    point and are left out.) *)
Record CompressionStats : Type := {
  stats_originalSize : Z;
  stats_compressedSize : Z;
  stats_uniqueChars : Z
}.

Definition compress_stats {P : Platform} (input : list byte)
  : outcome CompressionStats :=
  container <- compress input ;;
  Returns {| stats_originalSize := wrap_size_t (Z.of_nat (length input));
             stats_compressedSize := wrap_size_t (Z.of_nat (length container));
             stats_uniqueChars := wrap_int (Z.of_nat (length (count_freq input))) |}.

(** The cells [displayProgress] prints between '[' and ']': a green block, a
    yellow block or a space. *)
Inductive cell : Type := Filled | Head | Blank.

(** [toggleProgress]: the member [showProgress] after the call. *)
Definition toggleProgress (show : bool) : bool := show.

(** [displayProgress] with the member [showProgress] as an argument: [None]
    when it returns at [if (!showProgress) return;] and prints nothing,
    otherwise the cells of the bar. *)
Definition progress_cells (showProgress : bool) (percentage : Z) : option (list cell) :=
  if negb showProgress then None
  else
    let barWidth := 30 in
    let pos := Z.quot (wrap_int (barWidth * percentage)) 100 in
    Some (map (fun i => if i <? pos then Filled else if i =? pos then Head else Blank)
              (map Z.of_nat (seq 0 30))).

(** The number of times [c] occurs in [input]. *)
Definition occurrences (input : list byte) (c : byte) : Z :=
  Z.of_nat (count_occ Byte.byte_eq_dec input c).

(** The sum of the code lengths of the bytes of [input]. *)
Definition code_bits (codeMap : code_map) (input : list byte) : Z :=
  Z.of_nat (length (encode codeMap input)).

(** [freq[c]] as a value: 0 for a byte that has no entry. *)
Fixpoint table_get (t : freq_table) (c : byte) : Z :=
  match t with
  | [] => 0
  | (k, n) :: t' => if Byte.eqb k c then n else table_get t' c
  end.

(** The sum over the table of the count times [w] of the byte. *)
Definition table_sum (w : byte -> Z) (t : freq_table) : Z :=
  fold_right (fun e acc => snd e * w (fst e) + acc) 0 t.

(** The sum of the weights of the nodes of a queue. *)
Definition weight_sum (L : list tree) : Z :=
  fold_right (fun n acc => freq_of n + acc) 0 L.

(** For byte weights [f]: the weight of the leaves below a node, and the sum
    over those leaves of the weight times the number of turns down to the
    leaf, which is the number of payload bits the bytes below the node
    take. *)
Fixpoint wt (f : byte -> Z) (t : tree) : Z :=
  match t with
  | Null => 0
  | Node ch _ l r => if is_leaf t then f ch else wt f l + wt f r
  end.

Fixpoint cost (f : byte -> Z) (t : tree) : Z :=
  match t with
  | Null => 0
  | Node ch _ l r =>
      if is_leaf t then 0 else cost f l + cost f r + wt f l + wt f r
  end.

(** The longest way down from a node. *)
Fixpoint height (t : tree) : Z :=
  match t with
  | Null => 0
  | Node _ _ l r => if is_leaf t then 0 else 1 + Z.max (height l) (height r)
  end.

(** The weight 1 for [y] and 0 for every other byte: [cost (only y) t] is
    how deep the leaf of [y] lies in [t]. *)
Definition only (y : byte) : byte -> Z :=
  fun c => if Byte.eqb c y then 1 else 0.

(** [f] with the weight of [a] set to [v]. *)
Definition upd (f : byte -> Z) (a : byte) (v : Z) : byte -> Z :=
  fun c => if Byte.eqb c a then v else f c.

(** The bytes at the leaves renamed by [g]. *)
Fixpoint relabel (g : byte -> byte) (t : tree) : tree :=
  match t with
  | Null => Null
  | Node ch f l r =>
      if is_leaf t then Node (g ch) f Null Null
      else Node ch f (relabel g l) (relabel g r)
  end.

(** [a] and [x] exchanged. *)
Definition swap (a x : byte) : byte -> byte :=
  fun c => if Byte.eqb c a then x else if Byte.eqb c x then a else c.

(** A pair of leaves that are the two children of one node at the greatest
    depth, and the tree with that node turned into a leaf of the first. *)
Fixpoint deepest_pair (t : tree) : byte * byte * tree :=
  match t with
  | Null => (x00, x00, Null)
  | Node ch f l r =>
      if is_leaf l && is_leaf r then
        match l, r with
        | Node x _ _ _, Node y _ _ _ => (x, y, Node x 0 Null Null)
        | _, _ => (x00, x00, t)
        end
      else if height r <=? height l then
        let '(x, y, l0) := deepest_pair l in (x, y, Node ch f l0 r)
      else
        let '(x, y, r0) := deepest_pair r in (x, y, Node ch f l r0)
  end.

(** The byte at the leftmost leaf. *)
Definition first_leaf (t : tree) : byte := hd x00 (leaves t).

(** The payload bits the trees of a queue account for. *)
Definition forest_cost (f : byte -> Z) (L : list tree) : Z :=
  fold_right (fun t acc => cost f t + acc) 0 L.

(** The sum of [g] over a list of bytes. *)
Definition sum_over (g : byte -> Z) (l : list byte) : Z :=
  fold_right (fun c acc => g c + acc) 0 l.

(** ** What the merge loop keeps true *)

(** The queue holds weights that are not negative and add up to [T]. *)
Definition weights_total (T : Z) (L : list tree) : Prop :=
  Forall huff L /\ Forall (fun n => 0 <= freq_of n) L /\ weight_sum L = T.

(** What [deepest_pair] returns for [t]: two distinct leaves [x] and [y] at
    the greatest depth, and the tree [t0] in which their parent is a leaf of
    [x] that carries the weight of both. *)
Definition deepest_pair_ok (t : tree) (x y : byte) (t0 : tree) : Prop :=
  huff t0 /\ x <> y /\ Permutation (leaves t) (y :: leaves t0) /\
  In x (leaves t0) /\
  cost (only x) t = height t /\ cost (only y) t = height t /\
  (forall f, cost f t = cost (upd f x (f x + f y)) t0 + f x + f y) /\
  (forall f, wt f t = wt (upd f x (f x + f y)) t0).

(** The queue [L] of the merge loop against a tree of cost [C] for the byte
    weights [cnt]: the weights in the queue are the weights of the leaves
    below, no byte is at two leaves, and some tree [U] over the roots of the
    queue, each taken as one leaf of its weight, costs together with what
    the queue has merged no more than [C]. *)
Definition optimal_so_far (cnt : byte -> Z) (C T : Z) (L : list tree) : Prop :=
  weights_total T L /\
  NoDup (flat_map leaves L) /\
  Forall (fun t => freq_of t = wt cnt t) L /\
  exists U f,
    huff U /\ NoDup (leaves U) /\
    Permutation (leaves U) (map first_leaf L) /\
    (forall t, In t L -> f (first_leaf t) = freq_of t) /\
    forest_cost cnt L + cost f U <= C.

(** ** Merging without ties *)





(** ** Inputs to run the properties on *)

(** A tree over 'a', 'b' and 'c' that puts the rarest byte nearest the
    root. *)
Definition lopsided : tree :=
  Node "000"%byte 0 (Node "c"%byte 0 Null Null)
       (Node "000"%byte 0 (Node "a"%byte 0 Null Null) (Node "b"%byte 0 Null Null)).

(** The name "report.txt" and the directory "docs". *)
Definition report_txt : list byte :=
  ["r"; "e"; "p"; "o"; "r"; "t"; "."; "t"; "x"; "t"]%byte.

Definition docs : list byte := ["d"; "o"; "c"; "s"]%byte.

(** * Properties *)

(** ** The list queue is a priority queue *)

Lemma extract_least_perm n l :
  Permutation (n :: l) (fst (extract_least n l) :: snd (extract_least n l)).
Proof.
  revert n; induction l as [|m l IH]; intros n; simpl; [reflexivity|].
  specialize (IH m). destruct (extract_least m l) as [k rest]; simpl in *.
  destruct (freq_of n <=? freq_of k); simpl; [reflexivity|].
  rewrite IH. apply perm_swap.
Qed.

Lemma extract_least_least n l :
  Forall (fun m => freq_of (fst (extract_least n l)) <= freq_of m) (n :: l).
Proof.
  revert n; induction l as [|m l IH]; intros n; simpl.
  - constructor; [lia|constructor].
  - specialize (IH m). destruct (extract_least m l) as [k rest]; simpl in *.
    destruct (freq_of n <=? freq_of k) eqn:E; simpl.
    + apply Z.leb_le in E. constructor; [lia|].
      eapply Forall_impl; [|exact IH]. simpl; intros; lia.
    + apply Z.leb_gt in E. constructor; [lia|exact IH].
Qed.

Lemma list_top_least l n :
  list_top l = Some n -> Forall (fun m => freq_of n <= freq_of m) l.
Proof.
  destruct l as [|a l]; simpl; [discriminate|].
  intros H; injection H as <-. apply extract_least_least.
Qed.

Lemma list_pop_perm l n :
  list_top l = Some n -> Permutation l (n :: list_pop l).
Proof.
  destruct l as [|a l]; simpl; [discriminate|].
  intros H; injection H as <-. apply extract_least_perm.
Qed.

Lemma list_top_some (l : list tree) : l <> [] -> exists n, list_top l = Some n.
Proof. destruct l; [congruence|]; simpl; eauto. Qed.

Lemma list_top_none (l : list tree) : l = [] -> list_top l = None.
Proof. intros ->; reflexivity. Qed.

Lemma list_push_perm n (l : list tree) : Permutation (list_push n l) (n :: l).
Proof. unfold list_push. symmetry. apply Permutation_cons_append. Qed.

(** Signed [char], the table traversed in insertion order. *)
Definition insertion_platform : Platform :=
  {| char_is_signed := true;
     umap_order := fun t => t;
     umap_order_perm := fun t => Permutation_refl t;
     pq := list tree;
     pq_empty := [];
     pq_push := list_push;
     pq_top := list_top;
     pq_pop := list_pop;
     pq_size := @length tree;
     pq_elems := fun q => q;
     pq_elems_empty := eq_refl;
     pq_elems_push := list_push_perm;
     pq_size_elems := fun q => eq_refl;
     pq_top_none := list_top_none;
     pq_top_some := list_top_some;
     pq_top_least := list_top_least;
     pq_pop_elems := list_pop_perm |}.

(** Unsigned [char], the table traversed in the reverse of insertion order. *)
Definition reversed_platform : Platform :=
  {| char_is_signed := false;
     umap_order := @rev (byte * Z);
     umap_order_perm := fun t => Permutation_sym (Permutation_rev t);
     pq := list tree;
     pq_empty := [];
     pq_push := list_push;
     pq_top := list_top;
     pq_pop := list_pop;
     pq_size := @length tree;
     pq_elems := fun q => q;
     pq_elems_empty := eq_refl;
     pq_elems_push := list_push_perm;
     pq_size_elems := fun q => eq_refl;
     pq_top_none := list_top_none;
     pq_top_some := list_top_some;
     pq_top_least := list_top_least;
     pq_pop_elems := list_pop_perm |}.

(** ** Bytes, bits and machine integers *)

Lemma byte_eqb_refl (b : byte) : Byte.eqb b b = true.
Proof. apply Byte.byte_dec_lb; reflexivity. Qed.

Lemma byte_eqb_neq (a b : byte) : a <> b -> Byte.eqb a b = false.
Proof.
  intros H. destruct (Byte.eqb a b) eqn:E; [|reflexivity].
  apply Byte.byte_dec_bl in E. contradiction.
Qed.

Lemma Z_of_byte_of_Z z : Z_of_byte (byte_of_Z z) = z mod 256.
Proof.
  unfold Z_of_byte, byte_of_Z.
  assert (B : 0 <= z mod 256 < 256) by (apply Z.mod_pos_bound; lia).
  destruct (Byte.of_N (Z.to_N (z mod 256))) as [b|] eqn:E.
  - apply Byte.to_of_N in E. rewrite E. apply Z2N.id. lia.
  - apply Byte.of_N_None_iff in E. lia.
Qed.

Lemma size_t_roundtrip n :
  0 <= n < 2 ^ 64 -> size_t_value (size_t_bytes n) = n.
Proof.
  intros Hn. unfold size_t_bytes, size_t_value, fold_right.
  rewrite !Z_of_byte_of_Z.
  change (2 ^ 64) with 18446744073709551616 in Hn.
  change (2 ^ 8) with 256. change (2 ^ 16) with 65536.
  change (2 ^ 24) with 16777216. change (2 ^ 32) with 4294967296.
  change (2 ^ 40) with 1099511627776. change (2 ^ 48) with 281474976710656.
  change (2 ^ 56) with 72057594037927936.
  Z.div_mod_to_equations. lia.
Qed.

Lemma bits_of_byte_of_bits b0 b1 b2 b3 b4 b5 b6 b7 :
  bits_of_byte (Byte.of_bits (b0, (b1, (b2, (b3, (b4, (b5, (b6, b7))))))))
  = [b7; b6; b5; b4; b3; b2; b1; b0].
Proof. unfold bits_of_byte. rewrite Byte.to_bits_of_bits. reflexivity. Qed.

Lemma bits_of_byte_length b : length (bits_of_byte b) = 8%nat.
Proof.
  unfold bits_of_byte.
  destruct (Byte.to_bits b) as (? & ? & ? & ? & ? & ? & ? & ?). reflexivity.
Qed.

(** A tactic for a bit string known to hold at least eight characters. *)
Ltac eight_bits l H :=
  let step := (destruct l as [|? l]; [simpl in H; lia|]) in
  do 8 step.

Lemma pack_bits_whole k : forall buffer,
  length buffer = (8 * k)%nat ->
  length (pack_bits buffer) = k /\ unpack_bits (pack_bits buffer) = buffer.
Proof.
  induction k as [|k IH]; intros buffer H.
  - destruct buffer; [split; reflexivity|simpl in H; lia].
  - eight_bits buffer H.
    destruct (IH buffer) as [L U]; [simpl in H; lia|].
    cbn [pack_bits]. split.
    + simpl length. rewrite L. reflexivity.
    + unfold unpack_bits in *. cbn [flat_map].
      rewrite bits_of_byte_of_bits, U. reflexivity.
Qed.

Lemma pack_bits_zero k : pack_bits (repeat false (8 * k)) = repeat x00 k.
Proof.
  induction k as [|k IH]; [reflexivity|].
  replace (8 * S k)%nat with (8 + 8 * k)%nat by lia.
  rewrite repeat_app. cbn [repeat app pack_bits]. rewrite IH. reflexivity.
Qed.

(** ** Padding *)

Lemma padding_of_range buffer : 1 <= padding_of buffer <= 8.
Proof.
  unfold padding_of.
  pose proof (Z.mod_pos_bound (Z.of_nat (length buffer)) 8). lia.
Qed.

Lemma padding_of_sentinel buffer :
  padding_of buffer = 8 <-> (Z.of_nat (length buffer)) mod 8 = 0.
Proof. unfold padding_of. lia. Qed.

Lemma add_padding_length buffer :
  exists k, length (add_padding buffer) = (8 * k)%nat.
Proof.
  unfold add_padding.
  pose proof (padding_of_range buffer) as R.
  destruct (padding_of buffer =? 8) eqn:E.
  - apply Z.eqb_eq, padding_of_sentinel in E.
    exists (Z.to_nat (Z.of_nat (length buffer) / 8)).
    apply Nat2Z.inj. rewrite Nat2Z.inj_mul, Z2Nat.id.
    + change (Z.of_nat 8) with 8.
      pose proof (Z.div_mod (Z.of_nat (length buffer)) 8). lia.
    + apply Z.div_pos; lia.
  - apply Z.eqb_neq in E.
    exists (Z.to_nat (Z.of_nat (length buffer) / 8 + 1)).
    rewrite length_app, repeat_length.
    apply Nat2Z.inj. rewrite Nat2Z.inj_add, Nat2Z.inj_mul, !Z2Nat.id.
    + change (Z.of_nat 8) with 8. unfold padding_of.
      pose proof (Z.div_mod (Z.of_nat (length buffer)) 8). lia.
    + assert (0 <= Z.of_nat (length buffer) / 8) by (apply Z.div_pos; lia). lia.
    + lia.
Qed.

Lemma char_to_int_small `{Platform} z :
  0 <= z < 128 -> char_to_int (byte_of_Z z) = z.
Proof.
  intros Hz. unfold char_to_int. rewrite Z_of_byte_of_Z.
  rewrite Z.mod_small by lia.
  destruct (128 <=? z) eqn:E; [apply Z.leb_le in E; lia|reflexivity].
Qed.

(** [decompress] undoes the padding [compress] records, sentinel included.
    The bound is the one every [std::string] meets. *)
Lemma remove_padding_add `{Platform} buffer :
  Z.of_nat (length buffer) < 2 ^ 64 ->
  remove_padding (byte_of_Z (padding_of buffer))
                 (unpack_bits (pack_bits (add_padding buffer))) = buffer.
Proof.
  intros Lt.
  destruct (add_padding_length buffer) as [k Hk].
  destruct (pack_bits_whole k _ Hk) as [_ U]. rewrite U.
  pose proof (padding_of_range buffer) as R.
  unfold remove_padding. rewrite char_to_int_small by lia.
  unfold add_padding in *.
  destruct (padding_of buffer =? 8) eqn:E; [reflexivity|].
  apply Z.eqb_neq in E.
  rewrite length_app, repeat_length, Nat2Z.inj_add, Z2Nat.id by lia.
  unfold wrap_size_t.
  replace (Z.of_nat (length buffer) + padding_of buffer - padding_of buffer)
    with (Z.of_nat (length buffer)) by lia.
  rewrite Z.mod_small by lia. rewrite Nat2Z.id.
  rewrite firstn_app, Nat.sub_diag, firstn_all. simpl. apply app_nil_r.
Qed.

(** ** The frequency table *)

Lemma freq_incr_keys ch t k :
  In k (map fst (freq_incr ch t)) <-> k = ch \/ In k (map fst t).
Proof.
  induction t as [|[k' n] t IH]; simpl.
  - intuition congruence.
  - destruct (Byte.eqb k' ch) eqn:E; simpl.
    + apply Byte.byte_dec_bl in E. subst. intuition congruence.
    + rewrite IH. intuition congruence.
Qed.

Lemma freq_incr_nodup ch t :
  NoDup (map fst t) -> NoDup (map fst (freq_incr ch t)).
Proof.
  induction t as [|[k' n] t IH]; simpl; intros ND.
  - constructor; [intros []|constructor].
  - destruct (Byte.eqb k' ch) eqn:E; simpl; [exact ND|].
    inversion ND as [|? ? NI ND']; subst. constructor; [|auto].
    rewrite freq_incr_keys. intros [->|I]; [|contradiction].
    rewrite byte_eqb_refl in E. discriminate.
Qed.

Lemma count_from_keys input : forall t k,
  In k (map fst (fold_left (fun t ch => freq_incr ch t) input t))
  <-> In k input \/ In k (map fst t).
Proof.
  induction input as [|c input IH]; intros t k; simpl; [tauto|].
  rewrite IH, freq_incr_keys. intuition congruence.
Qed.

Lemma count_from_nodup input : forall t,
  NoDup (map fst t) ->
  NoDup (map fst (fold_left (fun t ch => freq_incr ch t) input t)).
Proof.
  induction input as [|c input IH]; intros t ND; simpl; [exact ND|].
  apply IH, freq_incr_nodup, ND.
Qed.

Lemma count_freq_keys input k : In k (map fst (count_freq input)) <-> In k input.
Proof. unfold count_freq. rewrite count_from_keys. simpl. tauto. Qed.

Lemma count_freq_nodup input : NoDup (map fst (count_freq input)).
Proof. apply count_from_nodup. constructor. Qed.

(** An input over one symbol gives a table of one entry. *)
Lemma count_freq_single input c :
  input <> [] -> Forall (eq c) input ->
  exists f, count_freq input = [(c, f)].
Proof.
  intros NE All.
  pose proof (count_freq_nodup input) as ND.
  assert (K : forall k, In k (map fst (count_freq input)) <-> k = c).
  { intros k. rewrite count_freq_keys. rewrite Forall_forall in All. split.
    - intros I. symmetry. apply All, I.
    - intros ->. destruct input as [|a l]; [congruence|].
      left. symmetry. apply All. left. reflexivity. }
  destruct (count_freq input) as [|[k1 f1] [|[k2 f2] t]]; simpl in *.
  - exfalso. apply (K c). reflexivity.
  - exists f1. f_equal. f_equal. apply K. left. reflexivity.
  - exfalso. inversion ND as [|? ? NI _]; subst. apply NI. left.
    assert (k1 = c) by (apply K; auto).
    assert (k2 = c) by (apply K; auto).
    congruence.
Qed.

(** ** Shapes of trees *)

Lemma huff_inner ch f l r : huff l -> is_leaf (Node ch f l r) = false.
Proof. intros H. inversion H; reflexivity. Qed.

Lemma huff_leaves_nonempty t : huff t -> leaves t <> [].
Proof.
  induction 1 as [ch f|ch f l r Hl IHl Hr IHr]; [discriminate|].
  cbn [leaves]. rewrite (huff_inner ch f l r Hl).
  destruct (leaves l); [congruence|discriminate].
Qed.

Lemma is_leaf_inner_erase ch f l r :
  is_leaf (Node ch f l r) = false ->
  is_leaf (Node "000"%byte 0 (erase l) (erase r)) = false.
Proof.
  destruct l as [|lc lf ll lr], r as [|rc rf rl rr]; cbn [erase];
    try discriminate; intros _;
    repeat match goal with
           | |- context [if ?b then _ else _] => destruct b
           end; reflexivity.
Qed.

Lemma is_leaf_erase t : is_leaf (erase t) = is_leaf t.
Proof.
  destruct t as [|ch f l r]; [reflexivity|].
  cbn [erase]. destruct (is_leaf (Node ch f l r)) eqn:E; [reflexivity|].
  apply (is_leaf_inner_erase ch f l r E).
Qed.

Lemma reaches_erase p : forall t c, reaches t p c -> reaches (erase t) p c.
Proof.
  induction p as [|b p IH]; intros t c; cbn [reaches].
  - intros [f ->]. exists 0. reflexivity.
  - destruct t as [|ch f l r]; [tauto|]. intros [NL R].
    cbn [erase]. rewrite NL. cbn [reaches]. split.
    + apply (is_leaf_inner_erase ch f l r NL).
    + destruct b; apply IH, R.
Qed.

(** ** Building the tree *)

Lemma least_split_perm L K n L' :
  Permutation L K -> least_split L n L' -> least_split K n L'.
Proof.
  intros PK [HP HF]. split.
  - rewrite <- PK. exact HP.
  - rewrite Forall_forall in *. intros m I. apply HF.
    apply Permutation_in with (l := K); [symmetry; exact PK|exact I].
Qed.

Lemma least_split_in L n L' : least_split L n L' -> In n L.
Proof.
  intros [HP _]. apply Permutation_in with (l := n :: L'); [symmetry; exact HP|].
  left; reflexivity.
Qed.

Lemma flat_map_leaves_perm (L K : list tree) :
  Permutation L K -> Permutation (flat_map leaves L) (flat_map leaves K).
Proof. intros H. apply Permutation_flat_map, H. Qed.

Lemma leaves_leaf_of es : flat_map leaves (map leaf_of es) = map fst es.
Proof. induction es as [|e es IH]; simpl; [|rewrite IH]; reflexivity. Qed.

Lemma huff_leaf_of es : Forall huff (map leaf_of es).
Proof. induction es; simpl; constructor; [apply huff_leaf|assumption]. Qed.

Section Building.

Context {P : Platform}.

Lemma push_all_elems es : forall q,
  Permutation (pq_elems (push_all es q)) (map leaf_of es ++ pq_elems q).
Proof.
  induction es as [|e es IH]; intros q; simpl; [reflexivity|].
  unfold push_all in *. rewrite IH.
  rewrite (pq_elems_push _ q). symmetry. apply Permutation_middle.
Qed.

(** The queue [compress] starts from holds one leaf for each symbol. *)
Lemma initial_queue input :
  Permutation (pq_elems (push_all (umap_order (count_freq input)) pq_empty))
              (map leaf_of (count_freq input)).
Proof.
  rewrite push_all_elems, pq_elems_empty, app_nil_r.
  apply Permutation_map, umap_order_perm.
Qed.

Lemma pq_take q L :
  Permutation (pq_elems q) L -> L <> [] ->
  exists n, pq_top q = Some n /\ least_split L n (pq_elems (pq_pop q)).
Proof.
  intros HP NE.
  destruct (pq_top_some q) as [n Hn].
  { intros E. rewrite E in HP. apply Permutation_nil in HP. contradiction. }
  exists n. split; [exact Hn|].
  apply least_split_perm with (L := pq_elems q); [exact HP|].
  split; [apply pq_pop_elems, Hn|apply pq_top_least, Hn].
Qed.

Lemma pq_size_perm q L : Permutation (pq_elems q) L -> pq_size q = length L.
Proof. intros HP. rewrite pq_size_elems. apply Permutation_length, HP. Qed.

Lemma merge_loop_eq fuel q :
  merge_loop fuel q =
  if Nat.leb (pq_size q) 1 then Returns q
  else
    match fuel with
    | O => OutOfFuel
    | S fuel' =>
        match pq_top q with
        | None => Undefined TopOfEmptyQueue
        | Some l =>
            match pq_top (pq_pop q) with
            | None => Undefined TopOfEmptyQueue
            | Some r =>
                match l, r with
                | Node _ lf _ _, Node _ rf _ _ =>
                    merge_loop fuel'
                      (pq_push (Node "000"%byte (wrap_int (lf + rf)) l r)
                               (pq_pop (pq_pop q)))
                | _, _ => Undefined NullDereference
                end
            end
        end
    end.
Proof. destruct fuel; reflexivity. Qed.

(** One round of the loop: the two least nodes leave, their parent enters. *)
Lemma merge_step fuel q L :
  Permutation (pq_elems q) L -> (2 <= length L)%nat -> Forall huff L ->
  exists l r L1 L2 q',
    least_split L l L1 /\ least_split L1 r L2 /\
    merge_loop (S fuel) q = merge_loop fuel q' /\
    Permutation (pq_elems q')
      (Node "000"%byte (wrap_int (freq_of l + freq_of r)) l r :: L2).
Proof.
  intros HP Len HF.
  destruct (pq_take q L HP) as (l & Tl & Sl).
  { destruct L; [simpl in Len; lia|discriminate]. }
  assert (Len1 : length L = S (length (pq_elems (pq_pop q)))).
  { destruct Sl as [Pl _]. apply Permutation_length in Pl. exact Pl. }
  destruct (pq_take (pq_pop q) _ (Permutation_refl _)) as (r & Tr & Sr).
  { destruct (pq_elems (pq_pop q)); [simpl in Len1; lia|discriminate]. }
  assert (Hl : huff l).
  { rewrite Forall_forall in HF. apply HF. eapply least_split_in, Sl. }
  assert (Hr : huff r).
  { rewrite Forall_forall in HF. apply HF.
    destruct Sl as [Pl _]. apply Permutation_in with (l := l :: pq_elems (pq_pop q)).
    - symmetry; exact Pl.
    - right. eapply least_split_in, Sr. }
  exists l, r, (pq_elems (pq_pop q)), (pq_elems (pq_pop (pq_pop q))).
  exists (pq_push (Node "000"%byte (wrap_int (freq_of l + freq_of r)) l r)
                  (pq_pop (pq_pop q))).
  split; [exact Sl|]. split; [exact Sr|]. split.
  - rewrite merge_loop_eq. rewrite (pq_size_perm q L HP).
    destruct (Nat.leb_spec (length L) 1) as [Le|_]; [lia|].
    rewrite Tl, Tr. destruct Hl, Hr; reflexivity.
  - apply pq_elems_push.
Qed.

(** The loop is over when one node is left, and that node is the top. *)
Lemma merge_done fuel q root :
  Permutation (pq_elems q) [root] ->
  merge_loop fuel q = Returns q /\ pq_top q = Some root.
Proof.
  intros HP. split.
  - rewrite merge_loop_eq, (pq_size_perm q _ HP). reflexivity.
  - destruct (pq_take q _ HP) as (n & Tn & Sn); [discriminate|].
    apply least_split_in in Sn. destruct Sn as [<-|[]]. exact Tn.
Qed.

Lemma merge_loop_huff fuel : forall q L,
  Permutation (pq_elems q) L -> L <> [] -> (length L <= S fuel)%nat ->
  Forall huff L ->
  exists q' root,
    merge_loop fuel q = Returns q' /\ pq_top q' = Some root /\
    huff root /\ Permutation (leaves root) (flat_map leaves L).
Proof.
  induction fuel as [|fuel IH]; intros q L HP NE Len HF.
  - destruct L as [|root [|? ?]]; [congruence| |simpl in Len; lia].
    destruct (merge_done 0 q root HP) as [E T].
    exists q, root. repeat split; try assumption.
    + inversion HF; assumption.
    + simpl. rewrite app_nil_r. reflexivity.
  - destruct L as [|root [|n2 L]]; [congruence| |].
    + destruct (merge_done (S fuel) q root HP) as [E T].
      exists q, root. repeat split; try assumption.
      * inversion HF; assumption.
      * simpl. rewrite app_nil_r. reflexivity.
    + destruct (merge_step fuel q _ HP) as (l & r & L1 & L2 & q' & Sl & Sr & E & HP');
        [simpl; lia|exact HF|].
      assert (PL : Permutation (root :: n2 :: L) (l :: r :: L2)).
      { destruct Sl as [Pl _]. destruct Sr as [Pr _]. rewrite Pl, Pr. reflexivity. }
      assert (HF' : Forall huff (l :: r :: L2)).
      { rewrite Forall_forall in *. intros m I. apply HF.
        apply Permutation_in with (l := l :: r :: L2); [symmetry; exact PL|exact I]. }
      inversion HF' as [|? ? Hl HF'']; subst. inversion HF'' as [|? ? Hr HF2]; subst.
      destruct (IH q' _ HP') as (q'' & rt & E' & T & Hrt & Lrt).
      * discriminate.
      * apply Permutation_length in PL. simpl in *. lia.
      * constructor; [apply huff_node; assumption|exact HF2].
      * exists q'', rt. rewrite E. repeat split; try assumption.
        rewrite Lrt. rewrite (flat_map_leaves_perm _ _ PL).
        cbn [flat_map leaves]. rewrite (huff_inner "000"%byte _ l r Hl).
        rewrite app_assoc. reflexivity.
Qed.

End Building.

(** ** The root [compress] arrives at *)

Section Roots.

Context {P : Platform}.

Lemma wrap_single_many q L :
  Permutation (pq_elems q) L -> (2 <= length L)%nat -> wrap_single q = Returns q.
Proof.
  intros HP Len. unfold wrap_single. rewrite (pq_size_perm q L HP).
  destruct (Nat.eqb_spec (length L) 1); [lia|reflexivity].
Qed.

Lemma two_symbols_table input :
  two_symbols input -> (2 <= length (count_freq input))%nat.
Proof.
  intros (a & b & Ia & Ib & Nab).
  apply count_freq_keys in Ia. apply count_freq_keys in Ib.
  destruct (count_freq input) as [|[k f] [|e t]]; simpl in *; [tauto| |lia].
  destruct Ia as [<-|[]]. destruct Ib as [<-|[]]. congruence.
Qed.

(** With two symbols or more the root is an inner node of a tree in which
    every node has no child or two, and whose leaves are the symbols of the
    input, each once. *)
Lemma huffman_root_many input :
  two_symbols input ->
  exists root,
    huffman_root input = Returns root /\ huff root /\ is_leaf root = false /\
    NoDup (leaves root) /\ (forall c, In c (leaves root) <-> In c input).
Proof.
  intros Two. pose proof (two_symbols_table input Two) as Len.
  pose proof (initial_queue input) as HP.
  unfold huffman_root.
  rewrite (wrap_single_many _ _ HP) by (rewrite length_map; exact Len).
  cbn [bind].
  destruct (merge_loop_huff
              (pq_size (push_all (umap_order (count_freq input)) pq_empty))
              _ _ HP) as (q' & root & E & T & H & L).
  - destruct (count_freq input); [simpl in Len; lia|discriminate].
  - rewrite (pq_size_perm _ _ HP). lia.
  - apply huff_leaf_of.
  - rewrite leaves_leaf_of in L.
    exists root. rewrite E. cbn [bind]. rewrite T.
    assert (ND : NoDup (leaves root)).
    { apply Permutation_NoDup with (l := map fst (count_freq input));
        [symmetry; exact L|apply count_freq_nodup]. }
    repeat split; try assumption.
    + destruct H as [ch f|ch f l r Hl Hr]; [|apply (huff_inner _ _ _ _ Hl)].
      apply Permutation_length in L. rewrite length_map in L. simpl in L. lia.
    + intros I. apply count_freq_keys.
      apply Permutation_in with (l := leaves root); assumption.
    + intros I. apply count_freq_keys in I.
      apply Permutation_in with (l := map fst (count_freq input));
        [symmetry; exact L|exact I].
Qed.

(** With one symbol the root is a node over the leaf, to its left. *)
Lemma huffman_root_single input c :
  input <> [] -> Forall (eq c) input ->
  exists f, huffman_root input
            = Returns (Node "000"%byte f (Node c f Null Null) Null).
Proof.
  intros NE All. destruct (count_freq_single input c NE All) as [f Hf].
  exists f. pose proof (initial_queue input) as HP.
  unfold huffman_root. rewrite Hf in *.
  cbn [map] in HP. unfold leaf_of in HP. cbn [fst snd] in HP.
  set (q0 := push_all (umap_order [(c, f)]) pq_empty) in *.
  destruct (merge_done 0 q0 _ HP) as [_ T0].
  assert (E0 : pq_elems (pq_pop q0) = []).
  { pose proof (pq_pop_elems q0 _ T0) as PP.
    rewrite HP in PP. apply Permutation_length in PP. simpl in PP.
    destruct (pq_elems (pq_pop q0)); [reflexivity|simpl in PP; lia]. }
  unfold wrap_single. rewrite (pq_size_perm q0 _ HP), T0. cbn [length Nat.eqb bind].
  set (root := Node "000"%byte f (Node c f Null Null) Null).
  assert (HR : Permutation (pq_elems (pq_push root (pq_pop q0))) [root]).
  { rewrite pq_elems_push, E0. reflexivity. }
  destruct (merge_done (pq_size (pq_push root (pq_pop q0))) _ _ HR) as [E T].
  rewrite E. cbn [bind]. rewrite T. reflexivity.
Qed.

(** With no symbol at all the queue is empty when [top] is called on it. *)
Lemma huffman_root_empty : huffman_root [] = Undefined TopOfEmptyQueue.
Proof.
  pose proof (initial_queue []) as HP. unfold huffman_root.
  change (count_freq []) with (@nil (byte * Z)) in *. cbn [map] in HP.
  set (q0 := push_all (umap_order []) pq_empty) in *.
  apply Permutation_sym, Permutation_nil in HP.
  unfold wrap_single. rewrite (pq_size_elems q0), HP. cbn [length Nat.eqb bind].
  rewrite merge_loop_eq, (pq_size_elems q0), HP. cbn [length Nat.leb bind].
  rewrite (pq_top_none q0 HP). reflexivity.
Qed.

End Roots.

(** ** The tree codec *)

Lemma writeTree_huff_inner ch f l r :
  huff l ->
  writeTree (Node ch f l r) = "0"%byte :: writeTree l ++ writeTree r.
Proof. intros H. cbn [writeTree]. rewrite (huff_inner ch f l r H). reflexivity. Qed.

Lemma erase_huff_inner ch f l r :
  huff l -> erase (Node ch f l r) = Node "000"%byte 0 (erase l) (erase r).
Proof. intros H. cbn [erase]. rewrite (huff_inner ch f l r H). reflexivity. Qed.

(** On a tree in which every node has no child or two, [readTree] takes
    back exactly the bytes [writeTree] wrote. *)
Lemma readTree_fuel_writeTree t :
  huff t -> forall fuel rest,
  (length (writeTree t) <= fuel)%nat ->
  readTree_fuel fuel (writeTree t ++ rest) = Returns (erase t, rest).
Proof.
  induction 1 as [ch f|ch f l r Hl IHl Hr IHr]; intros fuel rest Len.
  - destruct fuel; [simpl in Len; lia|]. reflexivity.
  - rewrite (writeTree_huff_inner ch f l r Hl) in *.
    rewrite (erase_huff_inner ch f l r Hl).
    destruct fuel; [simpl in Len; lia|].
    simpl in Len. rewrite length_app in Len.
    cbn [app readTree_fuel].
    change (Byte.eqb "0" "1") with false. change (Byte.eqb "0" "0") with true.
    cbv iota. rewrite <- app_assoc.
    rewrite IHl by lia. cbn [bind]. rewrite IHr by lia. reflexivity.
Qed.

Lemma readTree_writeTree t rest :
  huff t -> readTree (writeTree t ++ rest) = Returns (erase t, rest).
Proof.
  intros H. unfold readTree. apply readTree_fuel_writeTree; [exact H|].
  rewrite length_app. lia.
Qed.

(** [readTree] never runs out of the calls it is given. *)
Lemma readTree_fuel_enough fuel : forall s,
  (length s < fuel)%nat -> readTree_fuel fuel s <> OutOfFuel.
Proof.
  assert (G : forall fuel s, (length s < fuel)%nat ->
            match readTree_fuel fuel s with
            | Returns (_, s') => (length s' <= length s)%nat
            | Undefined _ => True
            | OutOfFuel => False
            end).
  { clear fuel. induction fuel as [|fuel IH]; intros s Len; [lia|].
    destruct s as [|type s1]; cbn [readTree_fuel]; [exact I|].
    destruct (Byte.eqb type "1").
    - destruct s1 as [|ch s2]; [exact I|]. simpl. lia.
    - destruct (Byte.eqb type "0"); [|simpl; lia].
      simpl in Len.
      pose proof (IH s1 ltac:(lia)) as H1.
      destruct (readTree_fuel fuel s1) as [[l s2]| |]; cbn [bind]; try exact H1.
      pose proof (IH s2 ltac:(lia)) as H2.
      destruct (readTree_fuel fuel s2) as [[r s3]| |]; cbn [bind]; try exact H2.
      simpl. lia. }
  intros s Len E. specialize (G fuel s Len). rewrite E in G. exact G.
Qed.

Lemma readTree_total s : readTree s <> OutOfFuel.
Proof. unfold readTree. apply readTree_fuel_enough. lia. Qed.

(** ** The code table *)

Lemma NoDup_app_disjoint (A : Type) (l1 l2 : list A) a :
  NoDup (l1 ++ l2) -> In a l1 -> ~ In a l2.
Proof.
  induction l1 as [|x l1 IH]; simpl; intros ND I; [contradiction|].
  inversion ND as [|? ? NI ND']; subst. destruct I as [->|I]; [|auto].
  intros I2. apply NI, in_or_app. right. exact I2.
Qed.

Lemma is_leaf_true ch f l r : is_leaf (Node ch f l r) = true -> l = Null /\ r = Null.
Proof. destruct l, r; simpl; intros; try discriminate; auto. Qed.

(** A symbol that is at no leaf of the node keeps the code it had. *)
Lemma buildCodeMap_other t : forall str m c,
  ~ In c (leaves t) -> map_get (buildCodeMap t str m) c = map_get m c.
Proof.
  induction t as [|ch f l IHl r IHr]; intros str m c NI; [reflexivity|].
  cbn [buildCodeMap leaves] in *.
  destruct (is_leaf (Node ch f l r)) eqn:E.
  - destruct (is_leaf_true ch f l r E) as [-> ->]. cbn [buildCodeMap].
    unfold map_set; cbn [map_get].
    rewrite byte_eqb_neq; [reflexivity|]. intros ->. apply NI. left. reflexivity.
  - rewrite IHr, IHl; [reflexivity| |]; intros I; apply NI, in_or_app; auto.
Qed.

(** A symbol at a leaf gets the turns that lead to the leaf, after [str]. *)
Lemma buildCodeMap_reaches t :
  huff t -> NoDup (leaves t) -> forall c, In c (leaves t) ->
  exists p, reaches t p c /\
    forall str m, str ++ p <> [] -> map_get (buildCodeMap t str m) c = str ++ p.
Proof.
  induction 1 as [ch f|ch f l r Hl IHl Hr IHr]; intros ND c I.
  - destruct I as [<-|[]]. exists []. split; [exists f; reflexivity|].
    intros str m NE. rewrite app_nil_r in *. cbn [buildCodeMap is_leaf].
    unfold map_set; cbn [map_get]. rewrite byte_eqb_refl.
    destruct str; [congruence|reflexivity].
  - pose proof (huff_inner ch f l r Hl) as E.
    cbn [leaves] in ND, I. rewrite E in ND, I.
    apply in_app_or in I. destruct I as [I|I].
    + destruct (IHl (NoDup_app_remove_r _ _ ND) c I) as (p & R & G).
      exists (false :: p). split; [cbn [reaches]; rewrite E; auto|].
      intros str m _. cbn [buildCodeMap]. rewrite E.
      rewrite buildCodeMap_other by (eapply NoDup_app_disjoint; eassumption).
      rewrite G; [rewrite <- app_assoc; reflexivity|].
      destruct str; discriminate.
    + destruct (IHr (NoDup_app_remove_l _ _ ND) c I) as (p & R & G).
      exists (true :: p). split; [cbn [reaches]; rewrite E; auto|].
      intros str m _. cbn [buildCodeMap]. rewrite E.
      rewrite G; [rewrite <- app_assoc; reflexivity|].
      destruct str; discriminate.
Qed.

(** No code is longer than the number of leaves allows. *)
Lemma reaches_length t :
  huff t -> forall p c, reaches t p c -> (length p < length (leaves t))%nat.
Proof.
  induction 1 as [ch f|ch f l r Hl IHl Hr IHr]; intros p c R.
  - destruct p as [|b p]; [simpl; lia|]. cbn [reaches] in R.
    destruct R as [R _]. discriminate.
  - pose proof (huff_inner ch f l r Hl) as E.
    cbn [leaves]. rewrite E, length_app.
    pose proof (huff_leaves_nonempty l Hl). pose proof (huff_leaves_nonempty r Hr).
    assert (0 < length (leaves l))%nat by (destruct (leaves l); [congruence|simpl; lia]).
    assert (0 < length (leaves r))%nat by (destruct (leaves r); [congruence|simpl; lia]).
    destruct p as [|b p]; [simpl; lia|]. cbn [reaches] in R. destruct R as [_ R].
    destruct b; [apply IHr in R|apply IHl in R]; simpl; lia.
Qed.

Lemma NoDup_bytes_length (l : list byte) : NoDup l -> (length l <= 256)%nat.
Proof.
  intros ND.
  assert (NM : NoDup (map Byte.to_nat l)).
  { induction ND as [|x l NI ND IH]; simpl; constructor; [|exact IH].
    rewrite in_map_iff. intros (y & Ey & Iy).
    assert (x = y); [|subst; contradiction].
    pose proof (Byte.of_to_nat x) as Ex. pose proof (Byte.of_to_nat y) as Ey'.
    rewrite Ey in Ey'. congruence. }
  pose proof (NoDup_incl_length (l' := seq 0 256) NM) as Len.
  rewrite length_map, length_seq in Len. apply Len.
  intros n I. apply in_map_iff in I. destruct I as (b & <- & _).
  apply in_seq. pose proof (Byte.to_nat_bounded b). lia.
Qed.

(** The codes of a tree [compress] builds from two symbols or more. *)
Lemma codes_of_root root :
  huff root -> is_leaf root = false -> NoDup (leaves root) ->
  forall c, In c (leaves root) ->
  let code := map_get (buildCodeMap root [] []) c in
  code <> [] /\ reaches root code c /\ (length code <= 255)%nat.
Proof.
  intros H NL ND c I.
  destruct (buildCodeMap_reaches root H ND c I) as (p & R & G).
  assert (NE : p <> []).
  { intros ->. cbn [reaches] in R. destruct R as [f ->]. discriminate. }
  cbv zeta. rewrite (G [] []) by exact NE. cbn [app].
  repeat split; try assumption.
  pose proof (reaches_length root H p c R).
  pose proof (NoDup_bytes_length _ ND). lia.
Qed.

(** ** The decoding loop *)

(** The turns to a leaf emit its symbol and bring the walk back to the root. *)
Lemma decode_loop_path root N : forall p curr c rest d out,
  p <> [] -> reaches curr p c -> 0 <= d < N -> N < 2 ^ 64 ->
  decode_loop root N (p ++ rest) curr d out
  = decode_loop root N rest root (d + 1) (out ++ [c]).
Proof.
  induction p as [|b p IH]; intros curr c rest d out NE R Hd HN; [congruence|].
  cbn [app decode_loop].
  destruct (Z.leb_spec N d) as [?|_]; [lia|].
  destruct curr as [|ch f l r]; cbn [reaches] in R; [contradiction|].
  destruct R as [_ R].
  destruct p as [|b' p].
  - cbn [reaches] in R. destruct R as [f' ->]. cbn [is_leaf app].
    unfold wrap_size_t. rewrite Z.mod_small by lia. reflexivity.
  - assert (NL : exists ch' f' l' r', (if b then r else l) = Node ch' f' l' r'
                 /\ is_leaf (Node ch' f' l' r') = false).
    { cbn [reaches] in R. destruct (if b then r else l) as [|ch' f' l' r'];
        [contradiction|]. destruct R as [NL _]. eauto 6. }
    destruct NL as (ch' & f' & l' & r' & En & NL).
    rewrite En in *. rewrite NL. apply IH; [discriminate|exact R|lia|lia].
Qed.

(** The codes of a whole input decode to that input. *)
Lemma decode_loop_encode root N (code : byte -> list bool) : forall input rest d out,
  (forall c, In c input -> code c <> [] /\ reaches root (code c) c) ->
  0 <= d -> d + Z.of_nat (length input) <= N -> N < 2 ^ 64 ->
  decode_loop root N (flat_map code input ++ rest) root d out
  = decode_loop root N rest root (d + Z.of_nat (length input)) (out ++ input).
Proof.
  induction input as [|c input IH]; intros rest d out HC Hd Len HN.
  - cbn [flat_map app length]. rewrite Z.add_0_r, app_nil_r. reflexivity.
  - cbn [flat_map]. rewrite <- app_assoc.
    cbn [length] in Len. rewrite Nat2Z.inj_succ in Len.
    destruct (HC c (or_introl eq_refl)) as [NE R].
    rewrite (decode_loop_path root N (code c) root c) by (assumption || lia).
    rewrite IH; [|intros; apply HC; right; assumption|lia|lia|lia].
    cbn [length]. rewrite Nat2Z.inj_succ, <- app_assoc. cbn [app].
    f_equal. lia.
Qed.

(** Turns that stop short of a leaf emit nothing. *)
Lemma decode_loop_partial root N : forall p curr q c d out,
  q <> [] -> reaches curr (p ++ q) c ->
  decode_loop root N p curr d out = Returns out.
Proof.
  induction p as [|b p IH]; intros curr q c d out NE R; [reflexivity|].
  cbn [decode_loop]. destruct (N <=? d); [reflexivity|].
  cbn [app reaches] in R.
  destruct curr as [|ch f l r]; [contradiction|]. destruct R as [_ R].
  assert (NL : exists ch' f' l' r', (if b then r else l) = Node ch' f' l' r'
               /\ is_leaf (Node ch' f' l' r') = false).
  { destruct (p ++ q) as [|b' pq] eqn:E.
    - destruct p; [simpl in E; congruence|discriminate].
    - cbn [reaches] in R. destruct (if b then r else l) as [|ch' f' l' r'];
        [contradiction|]. destruct R as [NL _]. eauto 6. }
  destruct NL as (ch' & f' & l' & r' & En & NL).
  rewrite En in *. rewrite NL. eapply IH; eassumption.
Qed.

(** On a tree in which every node has no child or two, no turn meets a null
    pointer, whatever the bits are. *)
Lemma decode_loop_safe root N :
  huff root -> is_leaf root = false ->
  forall bits curr d out, huff curr -> is_leaf curr = false ->
  exists out', decode_loop root N bits curr d out = Returns out'.
Proof.
  intros Hroot NLroot.
  induction bits as [|bit bits IH]; intros curr d out Hc NLc; cbn [decode_loop];
    [eauto|].
  destruct (N <=? d); [eauto|].
  destruct Hc as [ch f|ch f l r Hl Hr]; [discriminate|].
  assert (Hn : huff (if bit then r else l)) by (destruct bit; assumption).
  destruct Hn as [ch' f'|ch' f' l' r' Hl' Hr'].
  - cbn [is_leaf]. apply IH; assumption.
  - rewrite (huff_inner ch' f' l' r' Hl'). apply IH;
      [apply huff_node; assumption|apply (huff_inner ch' f' l' r' Hl')].
Qed.

Lemma huff_erase t : huff t -> huff (erase t).
Proof.
  induction 1 as [ch f|ch f l r Hl IHl Hr IHr]; [apply huff_leaf|].
  rewrite (erase_huff_inner ch f l r Hl). apply huff_node; assumption.
Qed.

(** ** Reading a container back *)

Section Containers.

Context {P : Platform}.

(** After a good magic tag, a tree, a byte taken for the delimiter, eight
    bytes taken for the size and one taken for the padding, [decompress]
    decodes what is left. *)
Lemma decompress_fields body root first b0 b1 b2 b3 b4 b5 b6 b7 padding payload :
  readTree body
  = Returns (root, first :: b0 :: b1 :: b2 :: b3 :: b4 :: b5 :: b6 :: b7
                         :: padding :: payload) ->
  decompress (MAGIC ++ body)
  = (out <- decode_loop root (size_t_value [b0; b1; b2; b3; b4; b5; b6; b7])
              (remove_padding padding (unpack_bits payload)) root 0 [] ;;
     Returns (true, out)).
Proof.
  intros R. unfold decompress.
  change (Nat.ltb (length (MAGIC ++ body)) 4) with false.
  change (firstn 4 (MAGIC ++ body)) with MAGIC.
  change (is_magic MAGIC) with true.
  change (skipn 4 (MAGIC ++ body)) with body.
  cbv iota. cbn [negb]. rewrite R. reflexivity.
Qed.

Lemma decompress_body body root first N padding payload :
  readTree body = Returns (root, first :: size_t_bytes N ++ padding :: payload) ->
  0 <= N < 2 ^ 64 ->
  decompress (MAGIC ++ body)
  = (out <- decode_loop root N (remove_padding padding (unpack_bits payload))
                        root 0 [] ;;
     Returns (true, out)).
Proof.
  intros R HN. unfold size_t_bytes in R. cbn [app] in R.
  rewrite (decompress_fields _ _ _ _ _ _ _ _ _ _ _ _ _ R).
  change (size_t_value _) with (size_t_value (size_t_bytes N)).
  rewrite size_t_roundtrip by exact HN. reflexivity.
Qed.

Lemma wrap_size_t_range z : 0 <= wrap_size_t z < 2 ^ 64.
Proof. unfold wrap_size_t. apply Z.mod_pos_bound. reflexivity. Qed.

(** What [decompress] does with the header [compress] wrote for a tree in
    which every node has no child or two, whatever payload follows. *)
Lemma decompress_header root input payload :
  huff root ->
  decompress (header_of root input ++ payload)
  = (out <- decode_loop (erase root) (wrap_size_t (Z.of_nat (length input)))
              (remove_padding
                 (byte_of_Z (padding_of (encode (buildCodeMap root [] []) input)))
                 (unpack_bits payload))
              (erase root) 0 [] ;;
     Returns (true, out)).
Proof.
  intros H.
  assert (E : header_of root input ++ payload
              = MAGIC ++ (writeTree root ++
                  "#"%byte :: size_t_bytes (wrap_size_t (Z.of_nat (length input)))
                  ++ byte_of_Z (padding_of (encode (buildCodeMap root [] []) input))
                  :: payload)).
  { unfold header_of. rewrite <- !app_assoc. cbn [app].
    repeat (rewrite <- app_assoc; cbn [app]). reflexivity. }
  rewrite E. apply decompress_body with (first := "#"%byte).
  - apply readTree_writeTree, H.
  - apply wrap_size_t_range.
Qed.

End Containers.

(** ** Encoded inputs *)

Lemma encode_length_le (code : byte -> list bool) bound input :
  (forall c, In c input -> (length (code c) <= bound)%nat) ->
  (length (flat_map code input) <= bound * length input)%nat.
Proof.
  induction input as [|c input IH]; intros HC; cbn [flat_map length]; [lia|].
  rewrite length_app.
  pose proof (HC c (or_introl eq_refl)).
  assert (length (flat_map code input) <= bound * length input)%nat
    by (apply IH; intros; apply HC; right; assumption).
  lia.
Qed.

(** A proper prefix of the bits of an input ends inside the code of one of
    its symbols. *)
Lemma firstn_encode_split (code : byte -> list bool) : forall input m,
  (m < length (flat_map code input))%nat ->
  exists done c todo p q,
    input = done ++ c :: todo /\
    firstn m (flat_map code input) = flat_map code done ++ p /\
    code c = p ++ q /\ q <> [].
Proof.
  induction input as [|a input IH]; intros m Lt; [simpl in Lt; lia|].
  cbn [flat_map] in *. rewrite length_app in Lt.
  destruct (Nat.lt_ge_cases m (length (code a))) as [Short|Long].
  - exists [], a, input, (firstn m (code a)), (skipn m (code a)).
    repeat split.
    + rewrite firstn_app.
      replace (m - length (code a))%nat with 0%nat by lia.
      cbn [firstn flat_map app]. apply app_nil_r.
    + symmetry. apply firstn_skipn.
    + intros E. apply (f_equal (@length bool)) in E.
      rewrite length_skipn in E. simpl in E. lia.
  - destruct (IH (m - length (code a))%nat) as (done & c & todo & p & q & E1 & E2 & E3 & NE);
      [lia|].
    exists (a :: done), c, todo, p, q. repeat split; try assumption.
    + rewrite E1. reflexivity.
    + rewrite firstn_app, firstn_all2 by exact Long.
      rewrite E2. cbn [flat_map]. rewrite app_assoc. reflexivity.
Qed.

Lemma unpack_bits_firstn j : forall payload,
  unpack_bits (firstn j payload) = firstn (8 * j) (unpack_bits payload).
Proof.
  induction j as [|j IH]; intros payload; [reflexivity|].
  destruct payload as [|b payload]; [reflexivity|].
  cbn [firstn]. unfold unpack_bits in *. cbn [flat_map].
  rewrite IH. rewrite firstn_app, bits_of_byte_length.
  rewrite (firstn_all2 (n := (8 * S j)%nat) (bits_of_byte b))
    by (rewrite bits_of_byte_length; lia).
  f_equal. f_equal. lia.
Qed.

(** What is left of the bits of [buffer] once the payload has lost bytes at
    its end and [decompress] has taken the recorded padding off: a proper
    prefix. *)
Lemma remove_padding_truncated `{Platform} buffer j :
  Z.of_nat (length buffer) < 2 ^ 64 ->
  (j < length (pack_bits (add_padding buffer)))%nat ->
  exists m, (m < length buffer)%nat /\
    remove_padding (byte_of_Z (padding_of buffer))
      (unpack_bits (firstn j (pack_bits (add_padding buffer))))
    = firstn m buffer.
Proof.
  intros Lt Hj.
  destruct (add_padding_length buffer) as [k Hk].
  destruct (pack_bits_whole k _ Hk) as [Lk U]. rewrite Lk in Hj.
  rewrite unpack_bits_firstn, U.
  pose proof (padding_of_range buffer) as R.
  unfold remove_padding. rewrite char_to_int_small by lia.
  unfold add_padding in *.
  destruct (padding_of buffer =? 8) eqn:E.
  - exists (8 * j)%nat. split; [lia|reflexivity].
  - apply Z.eqb_neq in E.
    rewrite length_app, repeat_length in Hk.
    rewrite length_firstn, length_app, repeat_length.
    rewrite Nat.min_l by lia.
    destruct j as [|j].
    + exists 0%nat. split; [lia|]. cbn [firstn]. apply firstn_nil.
    + exists (8 * S j - Z.to_nat (padding_of buffer))%nat. split; [lia|].
      unfold wrap_size_t. rewrite Z.mod_small by lia.
      rewrite firstn_firstn.
      replace (Z.to_nat (Z.of_nat (8 * S j) - padding_of buffer))
        with (8 * S j - Z.to_nat (padding_of buffer))%nat by lia.
      rewrite Nat.min_l by lia.
      rewrite firstn_app.
      replace (8 * S j - Z.to_nat (padding_of buffer) - length buffer)%nat
        with 0%nat by lia.
      cbn [firstn]. apply app_nil_r.
Qed.

(** Either one symbol fills a non-empty input, or it holds two. *)
Lemma one_or_two_symbols (input : list byte) :
  input <> [] -> (exists c, Forall (eq c) input) \/ two_symbols input.
Proof.
  destruct input as [|a input]; [congruence|]. intros _.
  induction input as [|b input IH].
  - left. exists a. constructor; [reflexivity|constructor].
  - destruct IH as [[c All]|(x & y & Ix & Iy & N)].
    + inversion All as [|? ? Ea All']; subst c.
      destruct (Byte.byte_eq_dec a b) as [<-|Nab].
      * left. exists a. repeat constructor. exact All'.
      * right. exists a, b. simpl. auto.
    + right. exists x, y. simpl in *. intuition.
Qed.

(** ** Inputs with two symbols or more *)

Section TwoSymbols.

Context {P : Platform}.

Lemma compress_two_symbols input :
  two_symbols input ->
  exists root,
    compress input = Returns (container_of root input) /\
    huff root /\ is_leaf root = false /\
    forall c, In c input ->
      map_get (buildCodeMap root [] []) c <> [] /\
      reaches (erase root) (map_get (buildCodeMap root [] []) c) c /\
      (length (map_get (buildCodeMap root [] []) c) <= 255)%nat.
Proof.
  intros Two.
  destruct (huffman_root_many input Two) as (root & E & H & NL & ND & L).
  exists root. unfold compress. rewrite E. cbn [bind].
  repeat split; try assumption;
    destruct (codes_of_root root H NL ND c) as (C1 & C2 & C3);
    try (apply L; assumption); try assumption.
  apply reaches_erase, C2.
Qed.

Lemma encode_bound root input :
  (forall c, In c input ->
     (length (map_get (buildCodeMap root [] []) c) <= 255)%nat) ->
  Z.of_nat (length input) < 2 ^ 56 ->
  Z.of_nat (length (encode (buildCodeMap root [] []) input)) < 2 ^ 64.
Proof.
  intros HC Len. unfold encode.
  pose proof (encode_length_le (map_get (buildCodeMap root [] [])) 255 input HC) as B.
  apply Nat2Z.inj_le in B. rewrite Nat2Z.inj_mul in B.
  change (Z.of_nat 255) with 255 in B.
  change (2 ^ 56) with 72057594037927936 in Len.
  change (2 ^ 64) with 18446744073709551616. lia.
Qed.

(** An input with two symbols or more, shorter than 2^56 bytes, comes back
    from its container as it was. *)
Lemma roundtrip_two_symbols input :
  two_symbols input -> Z.of_nat (length input) < 2 ^ 56 ->
  exists container,
    compress input = Returns container /\
    decompress container = Returns (true, input).
Proof.
  intros Two Len.
  destruct (compress_two_symbols input Two) as (root & E & H & NL & HC).
  exists (container_of root input). split; [exact E|].
  unfold container_of. rewrite (decompress_header root input _ H).
  unfold payload_of.
  rewrite remove_padding_add
    by (apply encode_bound; [intros c I; apply HC, I|exact Len]).
  assert (N : wrap_size_t (Z.of_nat (length input)) = Z.of_nat (length input)).
  { unfold wrap_size_t. apply Z.mod_small.
    change (2 ^ 56) with 72057594037927936 in Len.
    change (2 ^ 64) with 18446744073709551616. lia. }
  rewrite N. unfold encode.
  rewrite <- (app_nil_r (flat_map _ input)).
  rewrite decode_loop_encode.
  - cbn [decode_loop app bind]. reflexivity.
  - intros c I. destruct (HC c I) as (C1 & C2 & _). auto.
  - lia.
  - lia.
  - change (2 ^ 56) with 72057594037927936 in Len.
    change (2 ^ 64) with 18446744073709551616. lia.
Qed.

End TwoSymbols.

(** ** Inputs with one symbol *)

Lemma encode_single c f input :
  Forall (eq c) input ->
  encode (buildCodeMap (single_root c f) [] []) input = repeat false (length input).
Proof.
  intros All. unfold encode, single_root. cbn [buildCodeMap is_leaf app].
  unfold map_set.
  induction All as [|a input <- _ IH]; [reflexivity|].
  cbn [flat_map length repeat]. rewrite IH.
  cbn [map_get]. rewrite byte_eqb_refl. reflexivity.
Qed.

Lemma all_false_repeat (l : list bool) : Forall (eq false) l -> l = repeat false (length l).
Proof. induction 1 as [|b l <- _ IH]; simpl; [|rewrite <- IH]; reflexivity. Qed.

Lemma add_padding_zeros n :
  (0 < n)%nat ->
  exists k, add_padding (repeat false n) = repeat false (8 * S k).
Proof.
  intros Pos.
  destruct (add_padding_length (repeat false n)) as [k Hk].
  assert (F : Forall (eq false) (add_padding (repeat false n))).
  { unfold add_padding. destruct (_ =? 8).
    - apply Forall_forall. intros b I. apply repeat_spec in I. auto.
    - apply Forall_app. split; apply Forall_forall; intros b I;
        apply repeat_spec in I; auto. }
  assert (Ge : (n <= length (add_padding (repeat false n)))%nat).
  { unfold add_padding. destruct (_ =? 8);
      [|rewrite length_app]; rewrite repeat_length; lia. }
  destruct k as [|k]; [lia|]. exists k.
  rewrite (all_false_repeat _ F), Hk. reflexivity.
Qed.

Lemma unpack_bits_zero k : Forall (eq false) (unpack_bits (repeat x00 k)).
Proof.
  induction k as [|k IH]; [constructor|].
  cbn [repeat]. unfold unpack_bits in *. cbn [flat_map].
  apply Forall_app. split; [|exact IH]. repeat constructor.
Qed.

Lemma remove_padding_all_false `{Platform} padding bits :
  Forall (eq false) bits -> Forall (eq false) (remove_padding padding bits).
Proof.
  intros F. unfold remove_padding. destruct (_ =? 8); [exact F|].
  rewrite <- (firstn_skipn (Z.to_nat (wrap_size_t
            (Z.of_nat (length bits) - char_to_int padding))) bits) in F.
  apply Forall_app in F. apply F.
Qed.

(** In the tree of a one-symbol input every '0' bit leads to the leaf. *)
Lemma decode_loop_single c N : forall bits d out,
  Forall (eq false) bits ->
  exists out',
    decode_loop (erase (single_root c 0)) N bits (erase (single_root c 0)) d out
    = Returns out'.
Proof.
  induction bits as [|b bits IH]; intros d out F; [cbn; eauto|].
  inversion F as [|? ? <- F']; subst.
  cbn [decode_loop single_root erase is_leaf].
  destruct (N <=? d); [eauto|]. apply IH, F'.
Qed.

Section OneSymbol.

Context {P : Platform}.

Lemma compress_single input c :
  input <> [] -> Forall (eq c) input ->
  exists f, compress input = Returns (container_of (single_root c f) input).
Proof.
  intros NE All. destruct (huffman_root_single input c NE All) as [f E].
  exists f. unfold compress. rewrite E. reflexivity.
Qed.

(** The container of a one-symbol input, byte by byte. *)
Lemma container_single c f input :
  input <> [] -> Forall (eq c) input ->
  exists k,
    container_of (single_root c f) input
    = MAGIC ++ ["0"%byte; "1"%byte; c; "#"%byte]
        ++ size_t_bytes (wrap_size_t (Z.of_nat (length input)))
        ++ byte_of_Z (padding_of (repeat false (length input)))
        :: repeat x00 (S k).
Proof.
  intros NE All.
  destruct (add_padding_zeros (length input)) as [k Hk].
  { destruct input; [congruence|simpl; lia]. }
  exists k. unfold container_of, header_of, payload_of.
  rewrite (encode_single c f input All), Hk, pack_bits_zero.
  unfold single_root. cbn [writeTree is_leaf]. unfold size_t_bytes.
  reflexivity.
Qed.

(** [decompress] gets through such a container without meeting a null
    pointer: the bits it walks are all '0'. *)
Lemma decompress_single c f input :
  input <> [] -> Forall (eq c) input ->
  exists out, decompress (container_of (single_root c f) input) = Returns (true, out).
Proof.
  intros NE All. destruct (container_single c f input NE All) as [k E].
  rewrite E. unfold size_t_bytes. cbn [repeat].
  erewrite decompress_fields with (root := erase (single_root c 0));
    [|reflexivity].
  match goal with
  | |- context [decode_loop _ ?N ?bits _ _ _] =>
      destruct (decode_loop_single c N bits 0 []) as [out Eo]
  end.
  - apply remove_padding_all_false, unpack_bits_zero.
  - exists out. rewrite Eo. reflexivity.
Qed.

End OneSymbol.

(** ** The input "aaaabbbcc" *)

(** Where the least node of a short list can be. *)
Lemma least_split_inv L n L' :
  least_split L n L' ->
  exists l1 l2, L = l1 ++ n :: l2 /\ Permutation L' (l1 ++ l2) /\
                Forall (fun m => freq_of n <= freq_of m) L.
Proof.
  intros S. pose proof (least_split_in L n L' S) as I.
  destruct S as [HP HF]. apply in_split in I. destruct I as (l1 & l2 & ->).
  exists l1, l2. repeat split; [|exact HF].
  symmetry in HP. apply Permutation_cons_app_inv in HP. exact HP.
Qed.

Lemma least_of_two x y n L' :
  least_split [x; y] n L' ->
  (n = x /\ L' = [y] /\ freq_of x <= freq_of y) \/
  (n = y /\ L' = [x] /\ freq_of y <= freq_of x).
Proof.
  intros S. destruct (least_split_inv _ _ _ S) as (l1 & l2 & E & HP & HF).
  inversion HF as [|? ? Fx HF']; subst. inversion HF' as [|? ? Fy _]; subst.
  destruct l1 as [|a [|b l1]]; cbn [app] in E; inversion E; subst.
  - left. apply Permutation_sym, Permutation_length_1_inv in HP. auto.
  - right. apply Permutation_sym, Permutation_length_1_inv in HP. auto.
  - destruct l1; discriminate.
Qed.

Lemma least_of_three x y z n L' :
  least_split [x; y; z] n L' ->
  (n = x /\ Permutation L' [y; z] /\ freq_of x <= freq_of y /\ freq_of x <= freq_of z) \/
  (n = y /\ Permutation L' [x; z] /\ freq_of y <= freq_of x /\ freq_of y <= freq_of z) \/
  (n = z /\ Permutation L' [x; y] /\ freq_of z <= freq_of x /\ freq_of z <= freq_of y).
Proof.
  intros S. destruct (least_split_inv _ _ _ S) as (l1 & l2 & E & HP & HF).
  inversion HF as [|? ? Fx HF']; subst. inversion HF' as [|? ? Fy HF'']; subst.
  inversion HF'' as [|? ? Fz _]; subst.
  destruct l1 as [|a [|b [|c l1]]]; cbn [app] in E; inversion E; subst;
    cbn [app] in HP; auto.
  - right. left. auto.
  - right. right. auto.
  - match goal with H : [] = _ ++ _ :: _ |- _ => destruct l1; discriminate H end.
Qed.

Section Scenario.

Context {P : Platform}.

Lemma huffman_root_aaaabbbcc : huffman_root aaaabbbcc = Returns aaaabbbcc_root.
Proof.
  pose proof (initial_queue aaaabbbcc) as HP. unfold huffman_root.
  assert (T : count_freq aaaabbbcc = [("a"%byte, 4); ("b"%byte, 3); ("c"%byte, 2)])
    by (vm_compute; reflexivity).
  rewrite T in *. cbn [map] in HP. unfold leaf_of in HP. cbn [fst snd] in HP.
  set (q0 := push_all _ pq_empty) in *.
  rewrite (wrap_single_many q0 _ HP) by (simpl; lia). cbn [bind].
  rewrite (pq_size_perm q0 _ HP). cbn [length].
  (* first round: 'c' and 'b' leave *)
  destruct (merge_step 2 q0 _ HP) as (l & r & L1 & L2 & q1 & Sl & Sr & E1 & HP1);
    [simpl; lia|repeat constructor|].
  apply least_of_three in Sl. cbn [freq_of] in Sl.
  destruct Sl as [(_ & _ & ? & ?)|[(_ & _ & ? & ?)|(-> & PL1 & _)]]; try lia.
  apply (least_split_perm _ _ _ _ PL1), least_of_two in Sr. cbn [freq_of] in Sr.
  destruct Sr as [(_ & _ & ?)|(-> & -> & _)]; try lia.
  rewrite E1. cbn [freq_of] in HP1.
  change (wrap_int (2 + 3)) with 5 in HP1.
  (* second round: 'a' and the new node leave *)
  assert (HP1' : Permutation (pq_elems q1)
            [Node "a"%byte 4 Null Null;
             Node "000"%byte 5 (Node "c"%byte 2 Null Null) (Node "b"%byte 3 Null Null)]).
  { rewrite HP1. apply perm_swap. }
  destruct (merge_step 1 q1 _ HP1') as (l & r & L1' & L2' & q2 & Sl & Sr & E2 & HP2);
    [simpl; lia|repeat constructor|].
  apply least_of_two in Sl. cbn [freq_of] in Sl.
  destruct Sl as [(-> & -> & _)|(_ & _ & ?)]; try lia.
  destruct (least_split_inv _ _ _ Sr) as (l1 & l2 & E & PL2 & _).
  destruct l1 as [|? [|? ?]]; cbn [app] in E; inversion E; subst.
  apply Permutation_sym, Permutation_nil in PL2. subst L2'.
  rewrite E2. cbn [freq_of] in HP2. change (wrap_int (4 + 5)) with 9 in HP2.
  destruct (merge_done 1 q2 _ HP2) as [E3 T3].
  rewrite E3. cbn [bind]. rewrite T3. reflexivity.
Qed.

End Scenario.

(** ** What the container format guarantees, and what it does not *)

Lemma buildCodeMap_nonempty t : forall str m,
  (forall s code, In (s, code) m -> code <> []) ->
  forall s code, In (s, code) (buildCodeMap t str m) -> code <> [].
Proof.
  induction t as [|ch f l IHl r IHr]; intros str m Hm s code I; cbn [buildCodeMap] in I.
  - eapply Hm, I.
  - eapply IHr; [|exact I]. eapply IHl.
    destruct (is_leaf (Node ch f l r)); [|exact Hm].
    unfold map_set. intros s' code' [E|I']; [|eapply Hm, I'].
    injection E as _ <-. destruct str; discriminate.
Qed.

Lemma decompress_magic_true `{Platform} body r :
  decompress (MAGIC ++ body) = Returns r -> fst r = true.
Proof.
  unfold decompress.
  change (Nat.ltb (length (MAGIC ++ body)) 4) with false.
  change (firstn 4 (MAGIC ++ body)) with MAGIC.
  change (is_magic MAGIC) with true.
  change (skipn 4 (MAGIC ++ body)) with body.
  cbv iota. cbn [negb].
  destruct (readTree body) as [[root s1]| |]; cbn [bind]; try discriminate.
  destruct (read_size_t (tl s1)) as [originalSize s3].
  destruct s3 as [|padding payload]; [discriminate|].
  destruct originalSize as [N|]; [|discriminate].
  destruct (decode_loop _ _ _ _ _ _); cbn [bind]; try discriminate.
  intros E. injection E as <-. reflexivity.
Qed.

(** What [compress] records about the padding and what [decompress] makes
    of it, for a bit string that fits a [std::string]. *)
Lemma padding_facts `{Platform} buffer :
  Z.of_nat (length buffer) < 2 ^ 64 ->
  let padding := padding_of buffer in
  let bits := unpack_bits (pack_bits (add_padding buffer)) in
  1 <= padding <= 8 /\
  (padding = 8 <-> Z.of_nat (length buffer) mod 8 = 0) /\
  bits = (if padding =? 8 then buffer
          else buffer ++ repeat false (Z.to_nat padding)) /\
  Z.of_nat (length bits) mod 8 = 0 /\
  Z_of_byte (byte_of_Z padding) = padding /\
  remove_padding (byte_of_Z padding) bits
  = (if padding =? 8 then bits
     else firstn (length bits - Z.to_nat padding) bits) /\
  remove_padding (byte_of_Z padding) bits = buffer.
Proof.
  intros Lt padding bits.
  pose proof (padding_of_range buffer) as R. fold padding in R.
  destruct (add_padding_length buffer) as [k Hk].
  destruct (pack_bits_whole k _ Hk) as [_ U]. fold bits in U.
  assert (Eb : bits = if padding =? 8 then buffer
                      else buffer ++ repeat false (Z.to_nat padding))
    by (rewrite U; reflexivity).
  split; [exact R|]. split; [apply padding_of_sentinel|]. split; [exact Eb|].
  split.
  { rewrite U, Hk, Nat2Z.inj_mul. change (Z.of_nat 8) with 8.
    rewrite Z.mul_comm. apply Z.mod_mul. lia. }
  split.
  { rewrite Z_of_byte_of_Z. apply Z.mod_small. lia. }
  assert (RP : remove_padding (byte_of_Z padding) bits = buffer)
    by (apply remove_padding_add, Lt).
  split; [|exact RP].
  rewrite RP. rewrite Eb. destruct (padding =? 8); [reflexivity|].
  rewrite length_app, repeat_length.
  replace (length buffer + Z.to_nat padding - Z.to_nat padding)%nat
    with (length buffer) by lia.
  rewrite firstn_app, Nat.sub_diag, firstn_all. cbn [firstn]. symmetry. apply app_nil_r.
Qed.

Section Claims.

Context {P : Platform}.

(** C1. The round trip [decompress(compress(x)) == x] does not hold for the
    one-byte input "a": [compress] writes a container, and [decompress]
    returns [true] on it with an empty output. ([readTree] takes the '#'
    for the missing right child, so every later field is read one byte
    off.) *)
Theorem roundtrip_lost_on_one_byte :
  exists container,
    compress ["a"%byte] = Returns container /\
    decompress container = Returns (true, []) /\
    decompress container <> Returns (true, ["a"%byte]).
Proof.
  destruct (compress_single ["a"%byte] "a"%byte) as [f E];
    [discriminate|repeat constructor|].
  exists (container_of (single_root "a"%byte f) ["a"%byte]).
  assert (D : decompress (container_of (single_root "a"%byte f) ["a"%byte])
              = Returns (true, [])) by (vm_compute; reflexivity).
  split; [exact E|]. split; [exact D|]. rewrite D. discriminate.
Qed.

(** C2. On the empty input [compress] has no short cut: it goes on to call
    [top] on the empty queue, which has no defined behaviour, and no
    container is written. *)
Theorem compress_empty_undefined : compress [] = Undefined TopOfEmptyQueue.
Proof. unfold compress. rewrite huffman_root_empty. reflexivity. Qed.

(** C6. For a non-empty input over one symbol [c] the root is an inner node
    whose left child is the leaf of [c] and whose right child is missing,
    and the code of [c] is "0". No tree whatever gives a symbol the empty
    code, and every symbol of an input [compress] accepts has a code that is
    not empty. *)
Theorem single_symbol_tree input c :
  input <> [] -> Forall (eq c) input ->
  (exists f,
     huffman_root input = Returns (Node "000"%byte f (Node c f Null Null) Null) /\
     map_get (buildCodeMap (Node "000"%byte f (Node c f Null Null) Null) [] []) c
     = [false]) /\
  (forall t s code, In (s, code) (buildCodeMap t [] []) -> code <> []) /\
  (forall input' root s,
     huffman_root input' = Returns root -> In s input' ->
     map_get (buildCodeMap root [] []) s <> []).
Proof.
  intros NE All. split; [|split].
  - destruct (huffman_root_single input c NE All) as [f E].
    exists f. split; [exact E|].
    cbn [buildCodeMap is_leaf app]. unfold map_set. cbn [map_get].
    rewrite byte_eqb_refl. reflexivity.
  - intros t s code. apply buildCodeMap_nonempty. intros ? ? [].
  - intros input' root s E I.
    destruct (one_or_two_symbols input') as [[c' All']|Two].
    + intros ->. destruct I.
    + destruct (huffman_root_single input' c') as [f E']; [|exact All'|].
      { intros ->. destruct I. }
      rewrite E' in E. injection E as <-.
      rewrite Forall_forall in All'. rewrite <- (All' s I).
      cbn [buildCodeMap is_leaf app]. unfold map_set. cbn [map_get].
      rewrite byte_eqb_refl. discriminate.
    + destruct (huffman_root_many input' Two) as (root' & E' & H & NL & ND & L).
      rewrite E' in E. injection E as <-.
      apply (codes_of_root root' H NL ND s). apply L, I.
Qed.

(** C7. For the tree of the one-byte input "a", [writeTree] writes the three
    bytes "01a", and [readTree] takes four: the byte after the tree goes
    into the missing right child. A '#' there is consumed; a '1' there
    starts a leaf that was never written. *)
Theorem readTree_overruns_single_tree :
  exists root,
    huffman_root ["a"%byte] = Returns root /\
    writeTree root = ["0"%byte; "1"%byte; "a"%byte] /\
    (forall rest,
       readTree (writeTree root ++ "#"%byte :: rest) = Returns (erase root, rest)) /\
    (forall rest,
       readTree (writeTree root ++ "1"%byte :: "b"%byte :: rest)
       = Returns (Node "000"%byte 0 (Node "a"%byte 0 Null Null)
                                   (Node "b"%byte 0 Null Null), rest)).
Proof.
  destruct (huffman_root_single ["a"%byte] "a"%byte) as [f E];
    [discriminate|repeat constructor|].
  eexists. split; [exact E|]. repeat split; intros; reflexivity.
Qed.

(** C9. For "aaaabbbcc" the root is the node over 'a' and the node over 'c'
    and 'b'; 'a' has the code "0", no longer than "11" of 'b' and "10" of
    'c'; the code bits number 14, the sum of frequency times code length;
    the payload is those bits and two bits of padding; and [decompress]
    gives "aaaabbbcc" back. *)
Theorem scenario_aaaabbbcc :
  let codeMap := buildCodeMap aaaabbbcc_root [] [] in
  let buffer := encode codeMap aaaabbbcc in
  huffman_root aaaabbbcc = Returns aaaabbbcc_root /\
  map_get codeMap "a"%byte = [false] /\
  map_get codeMap "b"%byte = [true; true] /\
  map_get codeMap "c"%byte = [true; false] /\
  (length (map_get codeMap "a"%byte) <= length (map_get codeMap "b"%byte))%nat /\
  (length (map_get codeMap "a"%byte) <= length (map_get codeMap "c"%byte))%nat /\
  Z.of_nat (length buffer) = weighted_length (count_freq aaaabbbcc) codeMap /\
  Z.of_nat (length buffer) = 4 * 1 + 3 * 2 + 2 * 2 /\
  payload_of aaaabbbcc_root aaaabbbcc = pack_bits (buffer ++ [false; false]) /\
  compress aaaabbbcc = Returns (container_of aaaabbbcc_root aaaabbbcc) /\
  decompress (container_of aaaabbbcc_root aaaabbbcc) = Returns (true, aaaabbbcc).
Proof.
  cbv zeta. split; [apply huffman_root_aaaabbbcc|].
  do 3 (split; [vm_compute; reflexivity|]).
  do 2 (split; [vm_compute; lia|]).
  do 3 (split; [vm_compute; reflexivity|]).
  split.
  - unfold compress. rewrite huffman_root_aaaabbbcc. reflexivity.
  - vm_compute. reflexivity.
Qed.

End Claims.

Lemma container_layout root input :
  container_of root input
  = MAGIC ++ writeTree root ++ ["#"%byte]
      ++ size_t_bytes (wrap_size_t (Z.of_nat (length input)))
      ++ [byte_of_Z (padding_of (encode (buildCodeMap root [] []) input))]
      ++ payload_of root input.
Proof.
  unfold container_of, header_of. repeat rewrite <- app_assoc. reflexivity.
Qed.

Section MoreClaims.

Context {P : Platform}.

(** C3, as the code has it. [decompress] has no failure for a payload that
    ends early. For an input with two symbols or more (shorter than 2^56
    bytes), cutting any non-zero number of bytes off the end of the payload
    makes [decompress] return [true] with an output that is a proper prefix
    of the input: fewer symbols than the header declares, and no error. *)
Theorem truncated_payload_yields_prefix input :
  two_symbols input -> Z.of_nat (length input) < 2 ^ 56 ->
  exists root,
    compress input = Returns (header_of root input ++ payload_of root input) /\
    forall t, (0 < t <= length (payload_of root input))%nat ->
      exists out rest,
        decompress (header_of root input
                    ++ firstn (length (payload_of root input) - t)
                              (payload_of root input))
        = Returns (true, out) /\
        input = out ++ rest /\ rest <> [].
Proof.
  intros Two Len.
  destruct (compress_two_symbols input Two) as (root & E & H & NL & HC).
  exists root. split; [exact E|]. intros t Ht.
  rewrite (decompress_header root input _ H).
  assert (B : Z.of_nat (length (encode (buildCodeMap root [] []) input)) < 2 ^ 64)
    by (apply encode_bound; [intros c I; apply HC, I|exact Len]).
  unfold payload_of in *.
  destruct (remove_padding_truncated (encode (buildCodeMap root [] []) input)
              (length (pack_bits (add_padding (encode (buildCodeMap root [] []) input))) - t)
              B) as (m & Hm & Em); [lia|].
  rewrite Em. unfold encode in *.
  destruct (firstn_encode_split (map_get (buildCodeMap root [] [])) input m Hm)
    as (done & c & todo & p & q & E1 & E2 & E3 & NE).
  rewrite E2.
  assert (N : wrap_size_t (Z.of_nat (length input)) = Z.of_nat (length input)).
  { unfold wrap_size_t. apply Z.mod_small.
    change (2 ^ 56) with 72057594037927936 in Len.
    change (2 ^ 64) with 18446744073709551616. lia. }
  assert (Ld : (length done <= length input)%nat).
  { rewrite E1, length_app. lia. }
  rewrite N, decode_loop_encode.
  - rewrite (decode_loop_partial _ _ p (erase root) q c); [|exact NE|].
    + exists done, (c :: todo). cbn [bind app]. repeat split; [exact E1|discriminate].
    + rewrite <- E3. apply HC. rewrite E1. apply in_or_app. right. left. reflexivity.
  - intros a I. destruct (HC a) as (C1 & C2 & _); [|auto].
    rewrite E1. apply in_or_app. left. exact I.
  - lia.
  - lia.
  - change (2 ^ 56) with 72057594037927936 in Len.
    change (2 ^ 64) with 18446744073709551616. lia.
Qed.

(** C4, as the code has it. A discriminator byte that is neither '1' nor
    '0' makes [readTree] consume that byte and return the null pointer, at
    the root and in every nested call (any depth of recursion left); no
    failure is raised. After a good magic tag [decompress] never returns
    [false], whatever the bytes behind the tag are: wherever in the tree the
    bad discriminator stands, and whatever follows the tree. *)
Theorem unknown_discriminator_gives_null type rest :
  type <> "1"%byte -> type <> "0"%byte ->
  readTree (type :: rest) = Returns (Null, rest) /\
  (forall fuel, readTree_fuel (S fuel) (type :: rest) = Returns (Null, rest)) /\
  (forall before,
     readTree ("0"%byte :: "1"%byte :: before :: type :: rest)
     = Returns (Node "000"%byte 0 (Node before 0 Null Null) Null, rest)) /\
  forall body r, decompress (MAGIC ++ body) = Returns r -> fst r = true.
Proof.
  intros N1 N0.
  assert (F : forall fuel, readTree_fuel (S fuel) (type :: rest) = Returns (Null, rest)).
  { intros fuel. cbn [readTree_fuel].
    rewrite (byte_eqb_neq _ _ N1), (byte_eqb_neq _ _ N0). reflexivity. }
  split; [apply F|]. split; [exact F|]. split.
  - intros before. unfold readTree. cbn [length].
    change (readTree_fuel (S (S (S (S (S (length rest))))))
              ("0"%byte :: "1"%byte :: before :: type :: rest))
      with ('(r, s3) <- readTree_fuel (S (S (S (S (length rest))))) (type :: rest) ;;
            Returns (Node "000"%byte 0 (Node before 0 Null Null) r, s3)).
    rewrite F. reflexivity.
  - intros body r. apply decompress_magic_true.
Qed.

(** The padding steps of the two functions agree. For a non-empty input
    (shorter than 2^56 bytes, so that the code bits fit a [std::string]) the
    container ends with the padding byte and the packed bits. The padding
    byte is 8 less the bit count modulo 8: between 1 and 8, never 0, and 8
    exactly when the bits filled whole bytes. The packed bits are the code
    bits followed by that many '0' bits, by none when the byte is 8, a
    multiple of 8 in all. The stripping step of [decompress], given that
    byte and those bits, takes off the last [padding] bits when the byte is
    not 8 and none when it is 8, and is left with the code bits; it does so
    for any padding byte that is not larger than the bit count. With two
    symbols or more [decompress] does read that byte as the padding, and
    its decoding loop runs on exactly the code bits. *)
Lemma padding_steps_agree input :
  input <> [] -> Z.of_nat (length input) < 2 ^ 56 ->
  exists root,
    let buffer := encode (buildCodeMap root [] []) input in
    let padding := padding_of buffer in
    let bits := unpack_bits (payload_of root input) in
    let container :=
      MAGIC ++ writeTree root ++ ["#"%byte]
        ++ size_t_bytes (wrap_size_t (Z.of_nat (length input)))
        ++ [byte_of_Z padding] ++ payload_of root input in
    compress input = Returns container /\
    1 <= padding <= 8 /\
    (padding = 8 <-> Z.of_nat (length buffer) mod 8 = 0) /\
    bits = (if padding =? 8 then buffer
            else buffer ++ repeat false (Z.to_nat padding)) /\
    Z.of_nat (length bits) mod 8 = 0 /\
    Z_of_byte (byte_of_Z padding) = padding /\
    remove_padding (byte_of_Z padding) bits
    = (if padding =? 8 then bits
       else firstn (length bits - Z.to_nat padding) bits) /\
    remove_padding (byte_of_Z padding) bits = buffer /\
    (forall p bs, char_to_int p = 8 -> remove_padding p bs = bs) /\
    (forall p bs,
       char_to_int p <> 8 ->
       0 <= char_to_int p <= Z.of_nat (length bs) ->
       Z.of_nat (length bs) < 2 ^ 64 ->
       remove_padding p bs = firstn (length bs - Z.to_nat (char_to_int p)) bs) /\
    (two_symbols input ->
     decompress container
     = (out <- decode_loop (erase root) (wrap_size_t (Z.of_nat (length input)))
                 buffer (erase root) 0 [] ;;
        Returns (true, out))).
Proof.
  intros NE Len.
  assert (exists root,
            compress input = Returns (container_of root input) /\
            Z.of_nat (length (encode (buildCodeMap root [] []) input)) < 2 ^ 64 /\
            (two_symbols input -> huff root))
    as (root & E & B & H).
  { destruct (one_or_two_symbols input NE) as [[c All]|Two].
    - destruct (compress_single input c NE All) as [f E].
      exists (single_root c f). split; [exact E|]. split.
      + rewrite (encode_single c f input All), repeat_length.
        change (2 ^ 56) with 72057594037927936 in Len.
        change (2 ^ 64) with 18446744073709551616. lia.
      + intros (a & b & Ia & Ib & Nab). exfalso. apply Nab.
        rewrite Forall_forall in All.
        rewrite <- (All a Ia), <- (All b Ib). reflexivity.
    - destruct (compress_two_symbols input Two) as (root & E & H & NL & HC).
      exists root. split; [exact E|]. split; [|intros _; exact H].
      apply encode_bound; [intros c I; apply HC, I|exact Len]. }
  exists root. cbv zeta. rewrite <- container_layout.
  split; [exact E|].
  destruct (padding_facts _ B) as (F1 & F2 & F3 & F4 & F5 & F6 & F7).
  do 7 (split; [assumption|]).
  split; [|split].
  - intros p bs E8. unfold remove_padding. rewrite E8. reflexivity.
  - intros p bs N8 R L. unfold remove_padding.
    destruct (Z.eqb_spec (char_to_int p) 8) as [?|_]; [contradiction|].
    unfold wrap_size_t. rewrite Z.mod_small by lia.
    f_equal. lia.
  - intros Two. unfold container_of at 1.
    rewrite (decompress_header root input _ (H Two)).
    fold (payload_of root input) in F7. unfold payload_of.
    unfold payload_of in F7. rewrite F7. reflexivity.
Qed.

(** C8. On the one-byte input "a" [compress] pads the one code bit with
    seven '0' bits and records the padding 7 after the size, but
    [decompress] does not strip the recorded number of bits. Behind the tree
    of a one-symbol input every field is read one byte late: the size from
    the last seven size bytes and the recorded padding byte, the padding
    from the first payload byte. Here that byte is 0, the bit string is
    empty, and nothing is stripped and nothing decoded. *)
Theorem padding_misread_after_single_tree :
  compress ["a"%byte]
  = Returns (MAGIC ++ ["0"; "1"; "a"; "#"]%byte ++ size_t_bytes 1
                   ++ ["007"; "000"]%byte) /\
  (forall b0 b1 b2 b3 b4 b5 b6 b7 recorded first payload,
     decompress (MAGIC ++ ["0"; "1"; "a"; "#"]%byte
                       ++ [b0; b1; b2; b3; b4; b5; b6; b7]
                       ++ recorded :: first :: payload)
     = (out <- decode_loop (erase (single_root "a"%byte 0))
                 (size_t_value [b1; b2; b3; b4; b5; b6; b7; recorded])
                 (remove_padding first (unpack_bits payload))
                 (erase (single_root "a"%byte 0)) 0 [] ;;
        Returns (true, out))) /\
  decompress (MAGIC ++ ["0"; "1"; "a"; "#"]%byte ++ size_t_bytes 1
                    ++ ["007"; "000"]%byte)
  = Returns (true, []).
Proof.
  split; [|split].
  - destruct (compress_single ["a"%byte] "a"%byte) as [f E];
      [discriminate|repeat constructor|].
    rewrite E. f_equal.
  - intros. apply decompress_fields with (first := b0). reflexivity.
  - vm_compute. reflexivity.
Qed.

(** C10. For every non-empty input, [decompress] on the container
    [compress] wrote returns [true]: no bit of the walk leads through a
    null pointer. With two symbols or more every node on the way has both
    children; with one symbol the bits walked are all '0' and lead to the
    left child, never to the missing right one. *)
Theorem decoding_meets_no_null input :
  input <> [] ->
  exists container out,
    compress input = Returns container /\
    decompress container = Returns (true, out).
Proof.
  intros NE. destruct (one_or_two_symbols input NE) as [[c All]|Two].
  - destruct (compress_single input c NE All) as [f E].
    destruct (decompress_single c f input NE All) as [out D].
    exists (container_of (single_root c f) input), out. auto.
  - destruct (compress_two_symbols input Two) as (root & E & H & NL & _).
    exists (container_of root input).
    unfold container_of at 2. rewrite (decompress_header root input _ H).
    match goal with
    | |- context [decode_loop _ ?N ?bits _ _ _] =>
        destruct (decode_loop_safe (erase root) N (huff_erase root H)
                    (eq_trans (is_leaf_erase root) NL) bits (erase root) 0 []
                    (huff_erase root H) (eq_trans (is_leaf_erase root) NL))
          as [out D]
    end.
    exists out. rewrite D. auto.
Qed.

End MoreClaims.

(** ** The claims at concrete inputs *)

Lemma two_symbols_aaaabbbcc : two_symbols aaaabbbcc.
Proof.
  exists "a"%byte, "b"%byte. repeat split; [simpl; auto|simpl; auto 6|discriminate].
Qed.

(** C3 at "aaaabbbcc": the payload is the two bytes 15 and 232; with the
    second one cut off, [decompress] returns [true] and writes "aaaab". *)
Lemma truncated_payload_accepted :
  @compress insertion_platform aaaabbbcc
  = Returns (header_of aaaabbbcc_root aaaabbbcc ++ ["015"%byte; "232"%byte]) /\
  @decompress insertion_platform (header_of aaaabbbcc_root aaaabbbcc ++ ["015"%byte])
  = Returns (true, ["a"; "a"; "a"; "a"; "b"]%byte).
Proof. split; vm_compute; reflexivity. Qed.

Lemma truncated_payload_yields_prefix_witness :
  two_symbols aaaabbbcc /\
  Z.of_nat (length aaaabbbcc) < 2 ^ 56 /\
  exists root,
    @compress insertion_platform aaaabbbcc
    = Returns (header_of root aaaabbbcc ++ payload_of root aaaabbbcc) /\
    forall t, (0 < t <= length (payload_of root aaaabbbcc))%nat ->
      exists out rest,
        @decompress insertion_platform
          (header_of root aaaabbbcc
           ++ firstn (length (payload_of root aaaabbbcc) - t)
                     (payload_of root aaaabbbcc))
        = Returns (true, out) /\
        aaaabbbcc = out ++ rest /\ rest <> [].
Proof.
  split; [exact two_symbols_aaaabbbcc|]. split; [vm_compute; reflexivity|].
  apply (@truncated_payload_yields_prefix insertion_platform aaaabbbcc).
  - exact two_symbols_aaaabbbcc.
  - vm_compute; reflexivity.
Defined.

(** C4 at the container "HUF1" "X" "#" size 0 padding 8: 'X' is no
    discriminator, [readTree] returns the null pointer for it, and
    [decompress] returns [true] with an empty output. *)
Lemma malformed_tree_accepted :
  readTree ("X"%byte :: "#"%byte :: size_t_bytes 0 ++ ["008"%byte])
  = Returns (Null, "#"%byte :: size_t_bytes 0 ++ ["008"%byte]) /\
  @decompress insertion_platform
    (MAGIC ++ "X"%byte :: "#"%byte :: size_t_bytes 0 ++ ["008"%byte])
  = Returns (true, []).
Proof. split; vm_compute; reflexivity. Qed.

Lemma unknown_discriminator_gives_null_witness :
  "X"%byte <> "1"%byte /\ "X"%byte <> "0"%byte /\
  readTree ("X"%byte :: "#"%byte :: size_t_bytes 0 ++ ["008"%byte])
  = Returns (Null, "#"%byte :: size_t_bytes 0 ++ ["008"%byte]) /\
  (forall fuel,
     readTree_fuel (S fuel) ("X"%byte :: "#"%byte :: size_t_bytes 0 ++ ["008"%byte])
     = Returns (Null, "#"%byte :: size_t_bytes 0 ++ ["008"%byte])) /\
  (forall before,
     readTree ("0"%byte :: "1"%byte :: before :: "X"%byte :: "#"%byte
                 :: size_t_bytes 0 ++ ["008"%byte])
     = Returns (Node "000"%byte 0 (Node before 0 Null Null) Null,
                "#"%byte :: size_t_bytes 0 ++ ["008"%byte])) /\
  forall body r,
    @decompress insertion_platform (MAGIC ++ body) = Returns r -> fst r = true.
Proof.
  split; [discriminate|]. split; [discriminate|].
  apply (@unknown_discriminator_gives_null insertion_platform); discriminate.
Defined.

(** The comparator looks at the weight alone, so which of two nodes of equal
    weight goes left is up to the platform: two platforms may write
    different containers for the same input. *)
Remark tie_break_left_to_platform :
  @compress insertion_platform ["a"; "b"]%byte
  <> @compress reversed_platform ["a"; "b"]%byte.
Proof. vm_compute. discriminate. Qed.

Lemma single_symbol_tree_witness :
  ["a"; "a"; "a"]%byte <> [] /\
  Forall (eq "a"%byte) ["a"; "a"; "a"]%byte /\
  (exists f,
     @huffman_root insertion_platform ["a"; "a"; "a"]%byte
     = Returns (Node "000"%byte f (Node "a"%byte f Null Null) Null) /\
     map_get (buildCodeMap (Node "000"%byte f (Node "a"%byte f Null Null) Null) [] [])
             "a"%byte = [false]) /\
  (forall t s code, In (s, code) (buildCodeMap t [] []) -> code <> []) /\
  (forall input' root s,
     @huffman_root insertion_platform input' = Returns root -> In s input' ->
     map_get (buildCodeMap root [] []) s <> []).
Proof.
  split; [discriminate|]. split; [repeat constructor|].
  apply (@single_symbol_tree insertion_platform ["a"; "a"; "a"]%byte "a"%byte);
    [discriminate|repeat constructor].
Defined.

(** C10 at seventeen 'a': the tree has the leaf of 'a' on the left and no
    right child; the loop of [decompress] walks the sixteen '0' bits of the
    last two payload bytes, each to the left child, and writes sixteen
    'a'. *)
Lemma decoding_meets_no_null_witness :
  repeat "a"%byte 17 <> [] /\
  (exists container out,
     @compress insertion_platform (repeat "a"%byte 17) = Returns container /\
     @decompress insertion_platform container = Returns (true, out)) /\
  @compress insertion_platform (repeat "a"%byte 17)
  = Returns (container_of (single_root "a"%byte 17) (repeat "a"%byte 17)) /\
  @decompress insertion_platform
    (container_of (single_root "a"%byte 17) (repeat "a"%byte 17))
  = Returns (true, repeat "a"%byte 16).
Proof.
  split; [discriminate|]. split.
  - apply (@decoding_meets_no_null insertion_platform (repeat "a"%byte 17)).
    discriminate.
  - split; vm_compute; reflexivity.
Defined.

(** * Further properties of the code *)

(** ** Codes *)

(** Two ways from a node to leaves: neither is the beginning of the other. *)
Lemma reaches_prefix p : forall t q a b,
  reaches t p a -> reaches t (p ++ q) b -> q = [] /\ a = b.
Proof.
  induction p as [|x p IH]; intros t q a b Ra Rb.
  - cbn [reaches app] in *. destruct Ra as [f ->].
    destruct q as [|y q]; cbn [reaches] in Rb.
    + destruct Rb as [f' E]. injection E as -> _. auto.
    + destruct Rb as [NL _]. discriminate.
  - cbn [app reaches] in *. destruct t as [|ch f l r]; [contradiction|].
    destruct Ra as [_ Ra]. destruct Rb as [_ Rb]. eapply IH; eassumption.
Qed.

Lemma decode_loop_stop root N bits curr d out :
  N <= d -> decode_loop root N bits curr d out = Returns out.
Proof.
  intros Le. destruct bits; cbn [decode_loop]; [reflexivity|].
  destruct (Z.leb_spec N d); [reflexivity|lia].
Qed.

Lemma bits_length_unpack payload :
  Z.of_nat (length (unpack_bits payload)) = 8 * Z.of_nat (length payload).
Proof.
  induction payload as [|b l IH]; [reflexivity|].
  unfold unpack_bits in *. cbn [flat_map length].
  rewrite length_app, bits_of_byte_length, Nat2Z.inj_add, IH. lia.
Qed.

Lemma unpack_bits_app p q : unpack_bits (p ++ q) = unpack_bits p ++ unpack_bits q.
Proof. unfold unpack_bits. apply flat_map_app. Qed.

(** With bits behind the padded ones, taking the recorded padding off still
    leaves the code bits in front. *)
Lemma remove_padding_extended `{Platform} buffer more :
  Z.of_nat (length buffer) + 8 + Z.of_nat (length more) < 2 ^ 64 ->
  exists rest,
    remove_padding (byte_of_Z (padding_of buffer)) (add_padding buffer ++ more)
    = buffer ++ rest.
Proof.
  intros Lt. pose proof (padding_of_range buffer) as R.
  unfold remove_padding. rewrite char_to_int_small by lia.
  unfold add_padding.
  destruct (padding_of buffer =? 8) eqn:E; [eauto|].
  apply Z.eqb_neq in E.
  exists (firstn (length more) (repeat false (Z.to_nat (padding_of buffer)) ++ more)).
  rewrite !length_app, repeat_length, !Nat2Z.inj_add, Z2Nat.id by lia.
  unfold wrap_size_t. rewrite Z.mod_small by lia.
  replace (Z.to_nat (Z.of_nat (length buffer) + padding_of buffer
                     + Z.of_nat (length more) - padding_of buffer))
    with (length buffer + length more)%nat by lia.
  rewrite <- app_assoc. apply firstn_app_2.
Qed.

Section FurtherCodec.

Context {P : Platform}.

(** X1. An input with at least two distinct bytes, shorter than 2^56 bytes,
    comes back from its container exactly: [decompress] returns [true] and
    writes the input. *)
Theorem roundtrip_at_least_two_symbols input :
  two_symbols input -> Z.of_nat (length input) < 2 ^ 56 ->
  exists container,
    compress input = Returns container /\
    decompress container = Returns (true, input).
Proof. apply roundtrip_two_symbols. Qed.

(** X2. Bytes that follow a container are ignored: for an input with at
    least two distinct bytes, [decompress] on the container with any bytes
    appended (both shorter than 2^55 bytes) still returns [true] and writes
    exactly the input. The loop stops at the declared size. *)
Theorem trailing_bytes_ignored input junk :
  two_symbols input ->
  Z.of_nat (length input) < 2 ^ 55 -> Z.of_nat (length junk) < 2 ^ 55 ->
  exists container,
    compress input = Returns container /\
    decompress (container ++ junk) = Returns (true, input).
Proof.
  intros Two Len LenJ.
  change (2 ^ 55) with 36028797018963968 in *.
  destruct (compress_two_symbols input Two) as (root & E & H & NL & HC).
  exists (container_of root input). split; [exact E|].
  unfold container_of. rewrite <- app_assoc.
  rewrite (decompress_header root input _ H).
  unfold payload_of. rewrite unpack_bits_app.
  destruct (add_padding_length (encode (buildCodeMap root [] []) input)) as [k Hk].
  destruct (pack_bits_whole k _ Hk) as [_ U]. rewrite U.
  assert (B : Z.of_nat (length (encode (buildCodeMap root [] []) input))
              <= 255 * Z.of_nat (length input)).
  { pose proof (encode_length_le (map_get (buildCodeMap root [] [])) 255 input) as B.
    unfold encode. apply Nat2Z.inj_le in B; [|intros c I; apply HC, I].
    rewrite Nat2Z.inj_mul in B. exact B. }
  destruct (remove_padding_extended (encode (buildCodeMap root [] []) input)
              (unpack_bits junk)) as [rest R].
  { rewrite bits_length_unpack. change (2 ^ 64) with 18446744073709551616. lia. }
  rewrite R.
  assert (N : wrap_size_t (Z.of_nat (length input)) = Z.of_nat (length input)).
  { unfold wrap_size_t. apply Z.mod_small.
    change (2 ^ 64) with 18446744073709551616. lia. }
  rewrite N. unfold encode. rewrite decode_loop_encode.
  - rewrite decode_loop_stop by lia. reflexivity.
  - intros c I. destruct (HC c I) as (C1 & C2 & _). auto.
  - lia.
  - lia.
  - change (2 ^ 64) with 18446744073709551616. lia.
Qed.

(** X3. The codes [compress] uses for an input with at least two distinct
    bytes are prefix free: the code of one byte of the input is never the
    beginning of the code of another, and no two bytes share a code. No code
    is empty or longer than 255 bits. *)
Theorem codes_prefix_free input :
  two_symbols input ->
  exists root,
    huffman_root input = Returns root /\
    let code := map_get (buildCodeMap root [] []) in
    (forall a b q, In a input -> In b input -> code a ++ q = code b ->
                   q = [] /\ a = b) /\
    (forall a, In a input -> (1 <= length (code a) <= 255)%nat).
Proof.
  intros Two.
  destruct (huffman_root_many input Two) as (root & E & H & NL & ND & L).
  exists root. split; [exact E|]. cbv zeta. split.
  - intros a b q Ia Ib Eq.
    destruct (codes_of_root root H NL ND a) as (_ & Ra & _); [apply L, Ia|].
    destruct (codes_of_root root H NL ND b) as (_ & Rb & _); [apply L, Ib|].
    rewrite <- Eq in Rb. eapply reaches_prefix; eassumption.
  - intros a Ia.
    destruct (codes_of_root root H NL ND a) as (NE & _ & Le); [apply L, Ia|].
    destruct (map_get (buildCodeMap root [] []) a); [congruence|].
    simpl in *. lia.
Qed.

End FurtherCodec.

(** ** What [decompress] accepts and how much it writes *)

Lemma is_magic_true magic : is_magic magic = true -> magic = MAGIC.
Proof.
  destruct magic as [|m0 [|m1 [|m2 [|m3 [|? ?]]]]]; cbn [is_magic];
    try discriminate.
  intros E. apply andb_prop in E. destruct E as [E E3].
  apply andb_prop in E. destruct E as [E E2].
  apply andb_prop in E. destruct E as [E0 E1].
  apply Byte.byte_dec_bl in E0, E1, E2, E3. subst. reflexivity.
Qed.

(** A call of [readTree] that returns has taken at least one byte. *)
Lemma readTree_fuel_consumes fuel : forall s t s',
  readTree_fuel fuel s = Returns (t, s') -> (length s' < length s)%nat.
Proof.
  induction fuel as [|fuel IH]; intros s t s' E; [discriminate|].
  destruct s as [|type s1]; cbn [readTree_fuel] in E; [discriminate|].
  destruct (Byte.eqb type "1").
  - destruct s1 as [|ch s2]; [discriminate|]. injection E as _ <-. simpl. lia.
  - destruct (Byte.eqb type "0"); [|injection E as _ <-; simpl; lia].
    destruct (readTree_fuel fuel s1) as [[l s2]| |] eqn:E1; cbn [bind] in E;
      try discriminate.
    destruct (readTree_fuel fuel s2) as [[r s3]| |] eqn:E2; cbn [bind] in E;
      try discriminate.
    injection E as _ <-. apply IH in E1. apply IH in E2. simpl. lia.
Qed.

Lemma Z_of_byte_range b : 0 <= Z_of_byte b < 256.
Proof.
  unfold Z_of_byte. pose proof (Byte.to_N_bounded b) as B.
  apply N2Z.inj_le in B. change (Z.of_N 255) with 255 in B.
  pose proof (N2Z.is_nonneg (Byte.to_N b)). lia.
Qed.

Lemma size_t_value_range b0 b1 b2 b3 b4 b5 b6 b7 :
  0 <= size_t_value [b0; b1; b2; b3; b4; b5; b6; b7] < 2 ^ 64.
Proof.
  unfold size_t_value, fold_right.
  pose proof (Z_of_byte_range b0). pose proof (Z_of_byte_range b1).
  pose proof (Z_of_byte_range b2). pose proof (Z_of_byte_range b3).
  pose proof (Z_of_byte_range b4). pose proof (Z_of_byte_range b5).
  pose proof (Z_of_byte_range b6). pose proof (Z_of_byte_range b7).
  change (2 ^ 64) with 18446744073709551616. lia.
Qed.

Lemma size_t_value_top b0 b1 b2 b3 b4 b5 b6 b7 :
  Z_of_byte b7 * 2 ^ 56 <= size_t_value [b0; b1; b2; b3; b4; b5; b6; b7].
Proof.
  unfold size_t_value, fold_right.
  pose proof (Z_of_byte_range b0). pose proof (Z_of_byte_range b1).
  pose proof (Z_of_byte_range b2). pose proof (Z_of_byte_range b3).
  pose proof (Z_of_byte_range b4). pose proof (Z_of_byte_range b5).
  pose proof (Z_of_byte_range b6). pose proof (Z_of_byte_range b7).
  change (2 ^ 56) with 72057594037927936. lia.
Qed.

(** The loop writes at most one byte for each bit. *)
Lemma decode_loop_length_bits root N : forall bits curr d out out',
  decode_loop root N bits curr d out = Returns out' ->
  (length out' <= length out + length bits)%nat.
Proof.
  induction bits as [|bit bits IH]; intros curr d out out' E; cbn [decode_loop] in E.
  - injection E as <-. lia.
  - destruct (N <=? d); [injection E as <-; lia|].
    destruct curr as [|ch f l r]; [discriminate|].
    destruct (if bit then r else l) as [|ch' f' l' r']; [discriminate|].
    destruct (is_leaf (Node ch' f' l' r')); apply IH in E;
      [rewrite length_app in E|]; simpl in *; lia.
Qed.

(** The loop never writes more than the declared size. *)
Lemma decode_loop_length_size root N : forall bits curr d out out',
  0 <= d -> N < 2 ^ 64 ->
  decode_loop root N bits curr d out = Returns out' ->
  Z.of_nat (length out') <= Z.of_nat (length out) + Z.max 0 (N - d).
Proof.
  induction bits as [|bit bits IH]; intros curr d out out' Hd HN E;
    cbn [decode_loop] in E.
  - injection E as <-. lia.
  - destruct (Z.leb_spec N d); [injection E as <-; lia|].
    destruct curr as [|ch f l r]; [discriminate|].
    destruct (if bit then r else l) as [|ch' f' l' r']; [discriminate|].
    destruct (is_leaf (Node ch' f' l' r')).
    + unfold wrap_size_t in E. rewrite Z.mod_small in E by lia.
      apply IH in E; [|lia|lia]. rewrite length_app in E. simpl in E. lia.
    + apply IH in E; [|lia|lia]. lia.
Qed.

Section Acceptance.

Context {P : Platform}.

Lemma remove_padding_length padding bits :
  (length (remove_padding padding bits) <= length bits)%nat.
Proof.
  unfold remove_padding. destruct (_ =? 8); [lia|].
  rewrite length_firstn. lia.
Qed.

(** X4. For a file of at least four bytes: when the first four bytes are
    not "HUF1", [decompress] returns [false] and writes nothing; when they
    are, it never returns [false], whatever the tree, the size, the padding
    and the payload behind them are. *)
Theorem bad_magic_rejected container :
  (4 <= length container)%nat ->
  (firstn 4 container <> MAGIC -> decompress container = Returns (false, [])) /\
  (firstn 4 container = MAGIC ->
   forall r, decompress container = Returns r -> fst r = true).
Proof.
  intros Ge. split.
  - intros NM. unfold decompress.
    destruct (Nat.ltb_spec (length container) 4) as [?|_]; [lia|].
    destruct (is_magic (firstn 4 container)) eqn:M; [|reflexivity].
    apply is_magic_true in M. contradiction.
  - intros M r E.
    pose proof (firstn_skipn 4 container) as S. rewrite M in S.
    rewrite <- S in E. exact (decompress_magic_true _ _ E).
Qed.

(** X5. Whatever the file holds, when [decompress] returns, the output has
    at most eight bytes for each byte of the file behind the 15 that the
    shortest header takes, and at most as many bytes as the size field
    declares (the eight bytes behind the tree and the byte taken for the
    delimiter). *)
Theorem decompress_output_bounded container b out :
  decompress container = Returns (b, out) ->
  (length out <= 8 * (length container - 15))%nat /\
  forall root s,
    readTree (skipn 4 container) = Returns (root, s) ->
    Z.of_nat (length out) <= size_t_value (firstn 8 (tl s)).
Proof.
  intros E.
  assert (G : out = [] \/
              exists root s N (payload : list byte) (bits : list bool),
                readTree (skipn 4 container) = Returns (root, s) /\
                (4 <= length container)%nat /\
                (length payload + 10 <= length s)%nat /\
                size_t_value (firstn 8 (tl s)) = N /\ 0 <= N < 2 ^ 64 /\
                (length bits <= 8 * length payload)%nat /\
                decode_loop root N bits root 0 [] = Returns out).
  { unfold decompress in E.
    destruct (Nat.ltb_spec (length container) 4) as [?|Ge]; [discriminate|].
    destruct (negb (is_magic (firstn 4 container)));
      [injection E as _ <-; auto|].
    destruct (readTree (skipn 4 container)) as [[root s1]| |] eqn:R;
      cbn [bind] in E; try discriminate.
    destruct s1 as [|first [|b0 [|b1 [|b2 [|b3 [|b4 [|b5 [|b6 [|b7 s3]]]]]]]]];
      cbn [tl read_size_t] in E; try discriminate.
    destruct s3 as [|padding payload]; [discriminate|].
    destruct (decode_loop _ _ _ _ _ _) as [o| |] eqn:D; cbn [bind] in E;
      try discriminate.
    injection E as _ <-. right.
    exists root, (first :: b0 :: b1 :: b2 :: b3 :: b4 :: b5 :: b6 :: b7
                        :: padding :: payload),
           (size_t_value [b0; b1; b2; b3; b4; b5; b6; b7]), payload,
           (remove_padding padding (unpack_bits payload)).
    repeat split; try reflexivity; try exact Ge; try apply size_t_value_range.
    - simpl. lia.
    - pose proof (remove_padding_length padding (unpack_bits payload)).
      pose proof (bits_length_unpack payload). lia.
    - exact D. }
  destruct G as [->|(root & s & N & payload & bits & R & Ge & Ls & EN
                     & RN & Lb & D)].
  - split; [simpl; lia|]. intros root s R. simpl.
    destruct s as [|first [|b0 [|b1 [|b2 [|b3 [|b4 [|b5 [|b6 [|b7 s3]]]]]]]]];
      cbn [tl firstn]; try apply size_t_value_range;
      unfold size_t_value; cbn [fold_right];
      repeat match goal with
             | |- context [Z_of_byte ?x] =>
                 lazymatch goal with
                 | _ : 0 <= Z_of_byte x < 256 |- _ => fail
                 | _ => pose proof (Z_of_byte_range x)
                 end
             end; lia.
  - split.
    + pose proof (decode_loop_length_bits _ _ _ _ _ _ _ D) as B1.
      unfold readTree in R. apply readTree_fuel_consumes in R.
      rewrite length_skipn in R. simpl in B1. lia.
    + intros root' s' R'. rewrite R in R'. injection R' as <- <-.
      pose proof (decode_loop_length_size _ _ _ _ _ _ _ (Z.le_refl 0)
                    (proj2 RN) D) as B2.
      simpl in B2. lia.
Qed.

End Acceptance.

(** ** Damaged payloads and one-symbol inputs *)

Lemma leaves_erase t : huff t -> leaves (erase t) = leaves t.
Proof.
  induction 1 as [ch f|ch f l r Hl IHl Hr IHr]; [reflexivity|].
  rewrite (erase_huff_inner ch f l r Hl). cbn [leaves].
  rewrite (huff_inner ch f l r Hl), (huff_inner _ 0 _ (erase r) (huff_erase l Hl)).
  rewrite IHl, IHr. reflexivity.
Qed.

(** On a tree in which every node has no child or two, the loop meets no
    null pointer and writes symbols of the leaves only. *)
Lemma decode_loop_leaves root N :
  huff root -> is_leaf root = false ->
  forall bits curr d out,
    huff curr -> is_leaf curr = false ->
    (forall c, In c (leaves curr) -> In c (leaves root)) ->
    exists more,
      decode_loop root N bits curr d out = Returns (out ++ more) /\
      Forall (fun c => In c (leaves root)) more.
Proof.
  intros Hroot NLroot.
  induction bits as [|bit bits IH]; intros curr d out Hc NLc Sub; cbn [decode_loop].
  { exists []. rewrite app_nil_r. auto. }
  destruct (N <=? d); [exists []; rewrite app_nil_r; auto|].
  destruct Hc as [ch f|ch f l r Hl Hr]; [discriminate|].
  cbn [leaves] in Sub. rewrite (huff_inner ch f l r Hl) in Sub.
  assert (Hn : huff (if bit then r else l)) by (destruct bit; assumption).
  assert (Sn : forall c, In c (leaves (if bit then r else l)) -> In c (leaves root)).
  { intros c I. apply Sub, in_or_app. destruct bit; auto. }
  destruct Hn as [ch' f'|ch' f' l' r' Hl' Hr'].
  - cbn [is_leaf].
    destruct (IH root (wrap_size_t (d + 1)) (out ++ [ch']) Hroot NLroot)
      as (more & E & F); [auto|].
    exists (ch' :: more). rewrite E, <- app_assoc. split; [reflexivity|].
    constructor; [apply Sn; left; reflexivity|exact F].
  - rewrite (huff_inner ch' f' l' r' Hl').
    apply IH; [apply huff_node; assumption|apply (huff_inner ch' f' l' r' Hl')|exact Sn].
Qed.

Lemma unpack_bits_zeros k : unpack_bits (repeat x00 k) = repeat false (8 * k).
Proof.
  pose proof (all_false_repeat _ (unpack_bits_zero k)) as E.
  rewrite E. f_equal. apply Nat2Z.inj.
  rewrite bits_length_unpack, repeat_length, Nat2Z.inj_mul. reflexivity.
Qed.

(** In the tree of a one-symbol input, [m] '0' bits write [m] symbols as
    long as the declared size allows. *)
Lemma decode_loop_single_zeros c N : forall m d out,
  0 <= d -> d + Z.of_nat m <= N -> N < 2 ^ 64 ->
  decode_loop (erase (single_root c 0)) N (repeat false m)
              (erase (single_root c 0)) d out
  = Returns (out ++ repeat c m).
Proof.
  induction m as [|m IH]; intros d out Hd Le HN.
  - cbn. rewrite app_nil_r. reflexivity.
  - cbn [repeat decode_loop single_root erase is_leaf].
    destruct (Z.leb_spec N d) as [?|_]; [lia|].
    unfold wrap_size_t. rewrite Z.mod_small by lia.
    change (Node "000"%byte 0 (Node c 0 Null Null) Null)
      with (erase (single_root c 0)).
    rewrite IH by lia. rewrite <- app_assoc. reflexivity.
Qed.

Section Damage.

Context {P : Platform}.

(** X6. A damaged payload never brings [decompress] down: behind the header
    [compress] wrote for an input with at least two distinct bytes, any
    payload bytes whatever make [decompress] return [true], with an output
    no longer than the input was and made of bytes of the input only. *)
Theorem any_payload_decodes input :
  two_symbols input ->
  exists root,
    compress input = Returns (header_of root input ++ payload_of root input) /\
    forall payload,
      exists out,
        decompress (header_of root input ++ payload) = Returns (true, out) /\
        (length out <= length input)%nat /\
        Forall (fun c => In c input) out.
Proof.
  intros Two.
  destruct (huffman_root_many input Two) as (root & E & H & NL & ND & L).
  exists root. split; [unfold compress; rewrite E; reflexivity|].
  intros payload. rewrite (decompress_header root input _ H).
  match goal with
  | |- context [decode_loop _ ?N ?bits _ _ _] =>
      destruct (decode_loop_leaves (erase root) N (huff_erase root H)
                  (eq_trans (is_leaf_erase root) NL) bits (erase root) 0 []
                  (huff_erase root H) (eq_trans (is_leaf_erase root) NL)
                  (fun c I => I))
        as (out & D & F);
      pose proof (decode_loop_length_size (erase root) N bits (erase root) 0 []
                    (out) (Z.le_refl 0) (proj2 (wrap_size_t_range _))) as B
  end.
  cbn [app] in D. exists out. rewrite D. split; [reflexivity|].
  specialize (B D). split.
  - unfold wrap_size_t in B.
    pose proof (Z.mod_le (Z.of_nat (length input)) (2 ^ 64)
                  (Nat2Z.is_nonneg _) eq_refl).
    simpl length in B. lia.
  - eapply Forall_impl; [|exact F]. cbv beta. intros c I.
    apply L. rewrite <- (leaves_erase root H). exact I.
Qed.

(** X7. No input made of one byte value round-trips. For [n] copies of [c]
    ([n] between 1 and 2^56) [compress] writes a container and [decompress]
    returns [true] on it, but the output is [8 * (ceil(n/8) - 1)] copies of
    [c], which is always fewer than [n]. *)
Theorem single_symbol_output input c :
  input <> [] -> Forall (eq c) input -> Z.of_nat (length input) < 2 ^ 56 ->
  exists container,
    compress input = Returns container /\
    decompress container
    = Returns (true, repeat c (8 * ((length input + 7) / 8 - 1))) /\
    (8 * ((length input + 7) / 8 - 1) < length input)%nat.
Proof.
  intros NE All Len. change (2 ^ 56) with 72057594037927936 in Len.
  destruct (compress_single input c NE All) as [f E].
  destruct (container_single c f input NE All) as [k C].
  exists (container_of (single_root c f) input). split; [exact E|].
  assert (Pos : (0 < length input)%nat) by (destruct input; [congruence|simpl; lia]).
  (* the number of payload bytes *)
  assert (K : S k = ((length input + 7) / 8)%nat /\ (8 * k < length input)%nat).
  { assert (Lp : length (payload_of (single_root c f) input) = S k).
    { apply (f_equal (@length byte)) in C.
      unfold container_of in C. rewrite !length_app in C.
      unfold header_of, size_t_bytes in C. rewrite !length_app in C.
      cbn [length] in C. rewrite repeat_length in C.
      cbn [writeTree single_root is_leaf length app] in C.
      unfold MAGIC in C. cbn [length] in C. lia. }
    unfold payload_of in Lp. rewrite (encode_single c f input All) in Lp.
    destruct (add_padding_length (repeat false (length input))) as [k' Hk'].
    destruct (pack_bits_whole k' _ Hk') as [Lk' _]. rewrite Lk' in Lp. subst k'.
    unfold add_padding in Hk'.
    pose proof (padding_of_range (repeat false (length input))) as R.
    assert (Hl : Z.of_nat (8 * S k) = Z.of_nat (length input)
                 + (if padding_of (repeat false (length input)) =? 8 then 0
                    else padding_of (repeat false (length input)))).
    { destruct (padding_of (repeat false (length input)) =? 8) eqn:E8.
      - rewrite repeat_length in Hk'. lia.
      - rewrite length_app, !repeat_length in Hk'. lia. }
    assert (Hr : 8 * Z.of_nat (S k) < Z.of_nat (length input) + 8
                 /\ Z.of_nat (length input) <= 8 * Z.of_nat (S k)).
    { destruct (Z.eqb_spec (padding_of (repeat false (length input))) 8); lia. }
    split; [|lia].
    apply Nat.div_unique with (r := (length input + 7 - 8 * S k)%nat); lia. }
  destruct K as [K Lt8].
  split; [|rewrite <- K; replace (S k - 1)%nat with k by lia; exact Lt8].
  rewrite C. unfold size_t_bytes. cbn [repeat app].
  erewrite decompress_fields with (root := erase (single_root c 0));
    [|reflexivity].
  rewrite unpack_bits_zeros.
  pose proof (padding_of_range (repeat false (length input))) as R.
  set (pad := byte_of_Z (padding_of (repeat false (length input)))) in *.
  assert (Vp : 1 <= Z_of_byte pad <= 8).
  { unfold pad. rewrite Z_of_byte_of_Z, Z.mod_small by lia. exact R. }
  clearbody pad.
  match goal with
  | |- context [size_t_value ?l] =>
      assert (HN : 2 ^ 56 <= size_t_value l < 2 ^ 64);
      [|set (N' := size_t_value l) in *; clearbody N']
  end.
  { split; [|apply size_t_value_range].
    match goal with
    | |- _ <= size_t_value [?b0; ?b1; ?b2; ?b3; ?b4; ?b5; ?b6; ?b7] =>
        pose proof (size_t_value_top b0 b1 b2 b3 b4 b5 b6 b7) as T
    end.
    change (2 ^ 56) with 72057594037927936 in *. lia. }
  assert (RP : remove_padding x00 (repeat false (8 * k)) = repeat false (8 * k)).
  { unfold remove_padding. change (char_to_int x00) with 0. cbn [Z.eqb].
    rewrite repeat_length, Z.sub_0_r. unfold wrap_size_t.
    rewrite Z.mod_small by (change (2 ^ 64) with 18446744073709551616; lia).
    rewrite Nat2Z.id. rewrite <- (repeat_length false (8 * k)) at 1.
    apply firstn_all. }
  rewrite RP, decode_loop_single_zeros.
  - cbn [app bind]. rewrite <- K. replace (S k - 1)%nat with k by lia. reflexivity.
  - lia.
  - change (2 ^ 56) with 72057594037927936 in HN. lia.
  - apply HN.
Qed.

End Damage.

(** ** The frequency table counts *)

Lemma table_get_incr ch t c :
  table_get (freq_incr ch t) c
  = if Byte.eqb ch c then wrap_int (table_get t c + 1) else table_get t c.
Proof.
  induction t as [|[k n] t IH]; cbn [freq_incr table_get].
  - destruct (Byte.eqb ch c); reflexivity.
  - destruct (Byte.eqb k ch) eqn:E; cbn [table_get].
    + apply Byte.byte_dec_bl in E. subst k.
      destruct (Byte.eqb ch c); reflexivity.
    + destruct (Byte.eqb k c) eqn:E'; [|exact IH].
      apply Byte.byte_dec_bl in E'. subst k. rewrite byte_eqb_neq; [reflexivity|].
      intros ->. rewrite byte_eqb_refl in E. discriminate.
Qed.

Lemma occurrences_cons a input c :
  occurrences (a :: input) c
  = occurrences input c + (if Byte.eqb a c then 1 else 0).
Proof.
  unfold occurrences. cbn [count_occ].
  destruct (Byte.byte_eq_dec a c) as [->|N].
  - rewrite byte_eqb_refl. lia.
  - rewrite (byte_eqb_neq _ _ N). lia.
Qed.

Lemma occurrences_range input c :
  0 <= occurrences input c <= Z.of_nat (length input).
Proof.
  unfold occurrences. pose proof (count_occ_bound Byte.byte_eq_dec c input). lia.
Qed.

Lemma wrap_int_small z : - 2 ^ 31 <= z < 2 ^ 31 -> wrap_int z = z.
Proof.
  intros R. unfold wrap_int.
  change (2 ^ 31) with 2147483648 in *. change (2 ^ 32) with 4294967296.
  rewrite Z.mod_small; lia.
Qed.

(** Counting on from a table: while no counter passes the largest [int],
    each counter goes up by the number of occurrences. *)
Lemma count_from_get input : forall t c,
  (forall c, 0 <= table_get t c /\ table_get t c + occurrences input c < 2 ^ 31) ->
  table_get (fold_left (fun t ch => freq_incr ch t) input t) c
  = table_get t c + occurrences input c.
Proof.
  induction input as [|a input IH]; intros t c B; cbn [fold_left].
  - unfold occurrences. simpl. lia.
  - assert (Step : forall c, table_get (freq_incr a t) c
                             = table_get t c + (if Byte.eqb a c then 1 else 0)).
    { intros c'. rewrite table_get_incr. specialize (B c').
      rewrite occurrences_cons in B. pose proof (occurrences_range input c').
      destruct (Byte.eqb a c'); [|lia].
      apply wrap_int_small. change (2 ^ 31) with 2147483648 in *. lia. }
    rewrite IH.
    + rewrite Step, occurrences_cons. lia.
    + intros c'. rewrite Step. specialize (B c').
      rewrite occurrences_cons in B.
      destruct (Byte.eqb a c'); lia.
Qed.

Lemma table_get_in t : NoDup (map fst t) ->
  forall c n, In (c, n) t <-> In c (map fst t) /\ n = table_get t c.
Proof.
  induction t as [|[k m] t IH]; cbn [map fst In table_get]; intros ND c n.
  - tauto.
  - inversion ND as [|? ? NI ND']; subst. specialize (IH ND' c n).
    destruct (Byte.eqb k c) eqn:E.
    + apply Byte.byte_dec_bl in E. subst k. split.
      * intros [Eq|I]; [injection Eq as ->; auto|].
        exfalso. apply NI. apply IH in I. tauto.
      * intros [_ ->]. auto.
    + assert (k <> c) by (intros ->; rewrite byte_eqb_refl in E; discriminate).
      rewrite IH. split.
      * intros [Eq|I]; [injection Eq as -> _; contradiction|tauto].
      * intros [[Eq|I] ->]; [contradiction|tauto].
Qed.

Lemma table_sum_incr w ch t :
  0 <= table_get t ch < 2 ^ 31 - 1 ->
  table_sum w (freq_incr ch t) = table_sum w t + w ch.
Proof.
  induction t as [|[k n] t IH]; cbn [freq_incr table_get table_sum fold_right fst snd];
    intros R.
  - rewrite wrap_int_small by (change (2 ^ 31) with 2147483648; lia). lia.
  - destruct (Byte.eqb k ch) eqn:E; cbn [table_sum fold_right fst snd].
    + apply Byte.byte_dec_bl in E. subst k.
      rewrite wrap_int_small by (change (2 ^ 31) with 2147483648 in *; lia). lia.
    + fold (table_sum w (freq_incr ch t)). fold (table_sum w t).
      rewrite IH by exact R. lia.
Qed.

Lemma count_from_sum w input : forall t,
  (forall c, 0 <= table_get t c /\ table_get t c + occurrences input c < 2 ^ 31) ->
  table_sum w (fold_left (fun t ch => freq_incr ch t) input t)
  = table_sum w t + fold_right (fun a acc => w a + acc) 0 input.
Proof.
  induction input as [|a input IH]; intros t B; cbn [fold_left fold_right].
  - lia.
  - assert (Step : forall c, table_get (freq_incr a t) c
                             = table_get t c + (if Byte.eqb a c then 1 else 0)).
    { intros c'. rewrite table_get_incr. specialize (B c').
      rewrite occurrences_cons in B. pose proof (occurrences_range input c').
      destruct (Byte.eqb a c'); [|lia].
      apply wrap_int_small. change (2 ^ 31) with 2147483648 in *. lia. }
    rewrite IH.
    + rewrite table_sum_incr; [lia|].
      specialize (B a). rewrite occurrences_cons, byte_eqb_refl in B.
      pose proof (occurrences_range input a). lia.
    + intros c'. rewrite Step. specialize (B c').
      rewrite occurrences_cons in B.
      destruct (Byte.eqb a c'); lia.
Qed.

Lemma count_freq_bounds input :
  Z.of_nat (length input) < 2 ^ 31 ->
  forall c, 0 <= table_get [] c /\ table_get [] c + occurrences input c < 2 ^ 31.
Proof.
  intros Len c. cbn [table_get]. pose proof (occurrences_range input c). lia.
Qed.

(** X8. For an input shorter than 2^31 bytes the frequency table
    [compress] and [analyzeFile] build holds one entry for each byte value
    that occurs, none for the others, and the entry of a byte is the number
    of times it occurs. *)
Theorem count_freq_counts input :
  Z.of_nat (length input) < 2 ^ 31 ->
  NoDup (map fst (count_freq input)) /\
  forall c n, In (c, n) (count_freq input)
              <-> In c input /\ n = occurrences input c.
Proof.
  intros Len. split; [apply count_freq_nodup|]. intros c n.
  rewrite (table_get_in _ (count_freq_nodup input)), count_freq_keys.
  unfold count_freq.
  rewrite (count_from_get input [] c (count_freq_bounds input Len)).
  cbn [table_get]. rewrite Z.add_0_l. reflexivity.
Qed.

Lemma weighted_length_sum t codeMap :
  weighted_length t codeMap
  = table_sum (fun c => Z.of_nat (length (map_get codeMap c))) t.
Proof. reflexivity. Qed.

Lemma code_bits_sum codeMap input :
  code_bits codeMap input
  = fold_right (fun a acc => Z.of_nat (length (map_get codeMap a)) + acc) 0 input.
Proof.
  unfold code_bits, encode.
  induction input as [|a input IH]; cbn [flat_map fold_right]; [reflexivity|].
  rewrite length_app, Nat2Z.inj_add, IH. reflexivity.
Qed.

(** X9. For an input shorter than 2^31 bytes and any code table, the number
    of code bits [compress] strings together is the sum over the frequency
    table of the count of a byte times the length of its code. *)
Theorem code_bits_weighted input codeMap :
  Z.of_nat (length input) < 2 ^ 31 ->
  code_bits codeMap input = weighted_length (count_freq input) codeMap.
Proof.
  intros Len. rewrite weighted_length_sum, code_bits_sum. unfold count_freq.
  rewrite (count_from_sum _ input [] (count_freq_bounds input Len)).
  reflexivity.
Qed.

Lemma count_freq_total input :
  Z.of_nat (length input) < 2 ^ 31 ->
  table_sum (fun _ => 1) (count_freq input) = Z.of_nat (length input).
Proof.
  intros Len. unfold count_freq.
  rewrite (count_from_sum _ input [] (count_freq_bounds input Len)).
  cbn [table_sum fold_right]. rewrite Z.add_0_l. clear Len.
  induction input as [|a input IH]; [reflexivity|].
  cbn [fold_right length]. rewrite Nat2Z.inj_succ, IH. lia.
Qed.

(** ** What the merge loop keeps *)

Lemma weight_sum_perm L K : Permutation L K -> weight_sum L = weight_sum K.
Proof.
  induction 1 as [|n L K _ IH|n m L|L K M _ IH1 _ IH2]; cbn [weight_sum fold_right] in *;
    try fold (weight_sum L) in *; try fold (weight_sum K) in *; lia.
Qed.

Section Invariants.

Context {P : Platform}.

(** A property of the queue that holds at the start and that every round of
    the loop keeps holds of the root. *)
Lemma merge_loop_invariant (I : list tree -> Prop) :
  (forall L K, Permutation L K -> I L -> I K) ->
  (forall L, I L -> Forall huff L) ->
  (forall L l L1 r L2,
     I L -> least_split L l L1 -> least_split L1 r L2 ->
     I (Node "000"%byte (wrap_int (freq_of l + freq_of r)) l r :: L2)) ->
  forall fuel q L,
    Permutation (pq_elems q) L -> L <> [] -> (length L <= S fuel)%nat -> I L ->
    exists q' root,
      merge_loop fuel q = Returns q' /\ pq_top q' = Some root /\ I [root].
Proof.
  intros Iperm Ihuff Istep.
  induction fuel as [|fuel IH]; intros q L HP NE Len HI.
  - destruct L as [|root [|? ?]]; [congruence| |simpl in Len; lia].
    destruct (merge_done 0 q root HP) as [E T]. eauto.
  - destruct L as [|root [|n2 L]]; [congruence| |].
    + destruct (merge_done (S fuel) q root HP) as [E T]. eauto.
    + destruct (merge_step fuel q _ HP) as (l & r & L1 & L2 & q' & Sl & Sr & E & HP');
        [simpl; lia|apply Ihuff, HI|].
      assert (PL : length (root :: n2 :: L) = length (l :: r :: L2)).
      { destruct Sl as [Pl _]. destruct Sr as [Pr _].
        apply Permutation_length. rewrite Pl, Pr. reflexivity. }
      destruct (IH q' _ HP') as (q'' & rt & E' & T & HI').
      * discriminate.
      * simpl in *. lia.
      * eapply Istep; eassumption.
      * exists q'', rt. rewrite E. auto.
Qed.

(** The same for [huffman_root] on an input with at least two distinct
    bytes. *)
Lemma huffman_root_invariant (I : list tree -> Prop) input :
  (forall L K, Permutation L K -> I L -> I K) ->
  (forall L, I L -> Forall huff L) ->
  (forall L l L1 r L2,
     I L -> least_split L l L1 -> least_split L1 r L2 ->
     I (Node "000"%byte (wrap_int (freq_of l + freq_of r)) l r :: L2)) ->
  two_symbols input ->
  I (map leaf_of (count_freq input)) ->
  exists root, huffman_root input = Returns root /\ I [root].
Proof.
  intros Iperm Ihuff Istep Two HI.
  pose proof (two_symbols_table input Two) as Len.
  pose proof (initial_queue input) as HP.
  unfold huffman_root.
  rewrite (wrap_single_many _ _ HP) by (rewrite length_map; exact Len).
  cbn [bind].
  destruct (merge_loop_invariant I Iperm Ihuff Istep
              (pq_size (push_all (umap_order (count_freq input)) pq_empty))
              _ _ HP) as (q' & root & E & T & HI').
  - destruct (count_freq input); [simpl in Len; lia|discriminate].
  - rewrite (pq_size_perm _ _ HP). lia.
  - exact HI.
  - exists root. rewrite E. cbn [bind]. rewrite T. auto.
Qed.

End Invariants.

Lemma weights_total_perm T L K :
  Permutation L K -> weights_total T L -> weights_total T K.
Proof.
  intros HP (H & N & Sm). repeat split.
  - rewrite <- HP. exact H.
  - rewrite <- HP. exact N.
  - rewrite <- (weight_sum_perm L K HP). exact Sm.
Qed.

Lemma weight_sum_nonneg L :
  Forall (fun n => 0 <= freq_of n) L -> 0 <= weight_sum L.
Proof.
  induction 1 as [|n L Hn _ IH]; cbn [weight_sum fold_right]; [lia|].
  fold (weight_sum L). lia.
Qed.

Lemma weights_total_step T L l L1 r L2 :
  T < 2 ^ 31 ->
  weights_total T L -> least_split L l L1 -> least_split L1 r L2 ->
  weights_total T (Node "000"%byte (wrap_int (freq_of l + freq_of r)) l r :: L2).
Proof.
  intros HT HI [Pl _] [Pr _].
  assert (PL : Permutation L (l :: r :: L2)) by (rewrite Pl, Pr; reflexivity).
  apply (weights_total_perm T _ _ PL) in HI. destruct HI as (H & N & Sm).
  apply Forall_cons_iff in H. destruct H as [Hl H].
  apply Forall_cons_iff in H. destruct H as [Hr H2].
  apply Forall_cons_iff in N. destruct N as [Nl N].
  apply Forall_cons_iff in N. destruct N as [Nr N2].
  cbn [weight_sum fold_right] in Sm. fold (weight_sum L2) in Sm.
  pose proof (weight_sum_nonneg L2 N2).
  assert (W : wrap_int (freq_of l + freq_of r) = freq_of l + freq_of r).
  { apply wrap_int_small. change (2 ^ 31) with 2147483648 in *. lia. }
  repeat split.
  - constructor; [apply huff_node; assumption|exact H2].
  - constructor; [cbn [freq_of]; rewrite W; lia|exact N2].
  - cbn [weight_sum fold_right freq_of]. fold (weight_sum L2). rewrite W. lia.
Qed.

Lemma weight_sum_leaves t :
  weight_sum (map leaf_of t) = table_sum (fun _ => 1) t.
Proof.
  induction t as [|e t IH]; [reflexivity|].
  cbn [map weight_sum table_sum fold_right leaf_of freq_of].
  fold (weight_sum (map leaf_of t)). fold (table_sum (fun _ => 1) t). lia.
Qed.

Lemma count_freq_entry input c n :
  Z.of_nat (length input) < 2 ^ 31 ->
  In (c, n) (count_freq input) -> n = occurrences input c.
Proof.
  intros Len I.
  apply (table_get_in _ (count_freq_nodup input)) in I. destruct I as [_ ->].
  unfold count_freq.
  rewrite (count_from_get input [] c (count_freq_bounds input Len)).
  cbn [table_get]. lia.
Qed.

Lemma count_freq_positive input :
  Z.of_nat (length input) < 2 ^ 31 ->
  Forall (fun e => 1 <= snd e) (count_freq input).
Proof.
  intros Len. apply Forall_forall. intros [c n] I. cbn [snd].
  rewrite (count_freq_entry input c n Len I).
  assert (I' : In c input) by (apply count_freq_keys, (in_map fst _ _ I)).
  clear I. rename I' into I.
  unfold occurrences.
  apply (count_occ_In Byte.byte_eq_dec) in I. lia.
Qed.

Section RootWeight.

Context {P : Platform}.

(** X10. For an input with at least two distinct bytes, shorter than 2^31
    bytes, the weight [compress] leaves in the root is the number of bytes
    of the input: no round of the loop loses or invents weight. *)
Theorem root_weight_is_input_length input :
  two_symbols input -> Z.of_nat (length input) < 2 ^ 31 ->
  exists root,
    huffman_root input = Returns root /\
    freq_of root = Z.of_nat (length input).
Proof.
  intros Two Len.
  destruct (huffman_root_invariant (weights_total (Z.of_nat (length input))) input)
    as (root & E & (_ & _ & Sm)).
  - apply weights_total_perm.
  - intros L HI. apply HI.
  - intros L l L1 r L2. apply weights_total_step, Len.
  - exact Two.
  - repeat split.
    + apply huff_leaf_of.
    + apply Forall_forall. intros n I. apply in_map_iff in I.
      destruct I as (e & <- & Ie). cbn [leaf_of freq_of].
      pose proof (count_freq_positive input Len) as F.
      rewrite Forall_forall in F. specialize (F e Ie). lia.
    + rewrite weight_sum_leaves. apply count_freq_total, Len.
  - exists root. split; [exact E|].
    cbn [weight_sum fold_right] in Sm. lia.
Qed.

End RootWeight.

(** ** Weights and costs of trees *)

Lemma wt_ext f g t :
  (forall c, In c (leaves t) -> f c = g c) -> wt f t = wt g t.
Proof.
  induction t as [|ch w l IHl r IHr]; intros E; [reflexivity|].
  cbn [wt leaves] in *. destruct (is_leaf (Node ch w l r)).
  - apply E. left. reflexivity.
  - rewrite IHl, IHr; [reflexivity| |]; intros c I; apply E, in_or_app; auto.
Qed.

Lemma cost_ext f g t :
  (forall c, In c (leaves t) -> f c = g c) -> cost f t = cost g t.
Proof.
  induction t as [|ch w l IHl r IHr]; intros E; [reflexivity|].
  cbn [cost leaves] in *. destruct (is_leaf (Node ch w l r)); [reflexivity|].
  assert (El : forall c, In c (leaves l) -> f c = g c)
    by (intros c I; apply E, in_or_app; auto).
  assert (Er : forall c, In c (leaves r) -> f c = g c)
    by (intros c I; apply E, in_or_app; auto).
  rewrite IHl, IHr, (wt_ext f g l), (wt_ext f g r); auto.
Qed.

(** Both are linear in the weights. *)
Lemma wt_linear f g k t :
  wt (fun c => f c + k * g c) t = wt f t + k * wt g t.
Proof.
  induction t as [|ch w l IHl r IHr]; cbn [wt]; [lia|].
  destruct (is_leaf (Node ch w l r)); [reflexivity|]. rewrite IHl, IHr. lia.
Qed.

Lemma cost_linear f g k t :
  cost (fun c => f c + k * g c) t = cost f t + k * cost g t.
Proof.
  induction t as [|ch w l IHl r IHr]; cbn [cost]; [lia|].
  destruct (is_leaf (Node ch w l r)); [lia|].
  rewrite IHl, IHr, !wt_linear. lia.
Qed.

Lemma is_leaf_relabel g t : is_leaf (relabel g t) = is_leaf t.
Proof.
  destruct t as [|ch w l r]; [reflexivity|].
  cbn [relabel]. destruct (is_leaf (Node ch w l r)) eqn:E; [reflexivity|].
  destruct l as [|lc lw ll lr], r as [|rc rw rl rr]; cbn [relabel];
    try discriminate;
    repeat match goal with
           | |- context [if ?b then _ else _] => destruct b
           end; reflexivity.
Qed.

Lemma is_leaf_inner_relabel g ch w l r :
  is_leaf (Node ch w l r) = false ->
  is_leaf (Node ch w (relabel g l) (relabel g r)) = false.
Proof.
  intros E. pose proof (is_leaf_relabel g (Node ch w l r)) as R.
  cbn [relabel] in R. rewrite E in R. exact R.
Qed.

Lemma wt_relabel f g t : wt f (relabel g t) = wt (fun c => f (g c)) t.
Proof.
  induction t as [|ch w l IHl r IHr]; [reflexivity|].
  cbn [relabel wt]. destruct (is_leaf (Node ch w l r)) eqn:E; [reflexivity|].
  cbn [wt]. rewrite (is_leaf_inner_relabel g ch w l r E), IHl, IHr. reflexivity.
Qed.

Lemma cost_relabel f g t : cost f (relabel g t) = cost (fun c => f (g c)) t.
Proof.
  induction t as [|ch w l IHl r IHr]; [reflexivity|].
  cbn [relabel cost]. destruct (is_leaf (Node ch w l r)) eqn:E; [reflexivity|].
  cbn [cost]. rewrite (is_leaf_inner_relabel g ch w l r E), IHl, IHr, !wt_relabel.
  reflexivity.
Qed.

Lemma leaves_relabel g t : leaves (relabel g t) = map g (leaves t).
Proof.
  induction t as [|ch w l IHl r IHr]; [reflexivity|].
  cbn [relabel leaves]. destruct (is_leaf (Node ch w l r)) eqn:E; [reflexivity|].
  cbn [leaves]. rewrite (is_leaf_inner_relabel g ch w l r E), IHl, IHr, map_app.
  reflexivity.
Qed.

Lemma height_relabel g t : height (relabel g t) = height t.
Proof.
  induction t as [|ch w l IHl r IHr]; [reflexivity|].
  cbn [relabel height]. destruct (is_leaf (Node ch w l r)) eqn:E; [reflexivity|].
  cbn [height]. rewrite (is_leaf_inner_relabel g ch w l r E), IHl, IHr. reflexivity.
Qed.

Lemma huff_relabel g t : huff t -> huff (relabel g t).
Proof.
  induction 1 as [ch w|ch w l r Hl IHl Hr IHr]; [apply huff_leaf|].
  cbn [relabel]. rewrite (huff_inner ch w l r Hl). apply huff_node; assumption.
Qed.

Lemma height_nonneg t : 0 <= height t.
Proof.
  induction t as [|ch w l IHl r IHr]; cbn [height]; [lia|].
  destruct (is_leaf (Node ch w l r)); lia.
Qed.

Lemma huff_height_zero t : huff t -> height t = 0 -> is_leaf t = true.
Proof.
  intros H E. destruct H as [ch w|ch w l r Hl Hr]; [reflexivity|].
  cbn [height] in E. rewrite (huff_inner ch w l r Hl) in E.
  pose proof (height_nonneg l). pose proof (height_nonneg r). lia.
Qed.

(** The weight 1 on one byte: 1 below a node that has the leaf, else 0. *)
Lemma wt_only y t :
  huff t -> NoDup (leaves t) ->
  wt (only y) t = if in_dec Byte.byte_eq_dec y (leaves t) then 1 else 0.
Proof.
  induction 1 as [ch w|ch w l r Hl IHl Hr IHr]; intros ND.
  - cbn [wt is_leaf leaves]. unfold only.
    destruct (in_dec Byte.byte_eq_dec y [ch]) as [[->|[]]|N].
    + rewrite byte_eqb_refl. reflexivity.
    + rewrite byte_eqb_neq; [reflexivity|]. intros ->. apply N. left. reflexivity.
  - pose proof (huff_inner ch w l r Hl) as E.
    cbn [wt leaves] in *. rewrite E in *.
    rewrite IHl by (eapply NoDup_app_remove_r; eassumption).
    rewrite IHr by (eapply NoDup_app_remove_l; eassumption).
    destruct (in_dec Byte.byte_eq_dec y (leaves l)) as [Il|Nl];
      destruct (in_dec Byte.byte_eq_dec y (leaves r)) as [Ir|Nr];
      destruct (in_dec Byte.byte_eq_dec y (leaves l ++ leaves r)) as [I|N];
      try reflexivity.
    + exfalso. eapply NoDup_app_disjoint; eassumption.
    + exfalso. apply N, in_or_app. auto.
    + exfalso. apply N, in_or_app. auto.
    + exfalso. apply N, in_or_app. auto.
    + exfalso. apply in_app_or in I. tauto.
Qed.

Lemma wt_zero t : wt (fun _ => 0) t = 0.
Proof.
  induction t as [|ch w l IHl r IHr]; cbn [wt]; [reflexivity|].
  destruct (is_leaf (Node ch w l r)); [reflexivity|]. rewrite IHl, IHr. reflexivity.
Qed.

Lemma cost_zero t : cost (fun _ => 0) t = 0.
Proof.
  induction t as [|ch w l IHl r IHr]; cbn [cost]; [reflexivity|].
  destruct (is_leaf (Node ch w l r)); [reflexivity|].
  rewrite IHl, IHr, !wt_zero. reflexivity.
Qed.

Lemma cost_only_absent y t : ~ In y (leaves t) -> cost (only y) t = 0.
Proof.
  intros N. rewrite (cost_ext (only y) (fun _ => 0) t); [apply cost_zero|].
  intros c I. unfold only. rewrite byte_eqb_neq; [reflexivity|].
  intros ->. contradiction.
Qed.

(** No leaf lies deeper than the height. *)
Lemma depth_le_height y t :
  huff t -> NoDup (leaves t) -> 0 <= cost (only y) t <= height t.
Proof.
  induction 1 as [ch w|ch w l r Hl IHl Hr IHr]; intros ND.
  - cbn [cost height is_leaf]. lia.
  - pose proof (huff_inner ch w l r Hl) as E.
    cbn [cost height leaves] in *. rewrite E in *.
    pose proof (NoDup_app_remove_r _ _ ND) as NDl.
    pose proof (NoDup_app_remove_l _ _ ND) as NDr.
    specialize (IHl NDl). specialize (IHr NDr).
    rewrite (wt_only y l Hl NDl), (wt_only y r Hr NDr).
    destruct (in_dec Byte.byte_eq_dec y (leaves l)) as [Il|Nl];
      destruct (in_dec Byte.byte_eq_dec y (leaves r)) as [Ir|Nr].
    + exfalso. eapply NoDup_app_disjoint; eassumption.
    + rewrite (cost_only_absent y r Nr). lia.
    + rewrite (cost_only_absent y l Nl). lia.
    + rewrite (cost_only_absent y l Nl), (cost_only_absent y r Nr).
      pose proof (height_nonneg l). lia.
Qed.

(** ** Exchanging two leaves *)

Lemma swap_left a x : swap a x a = x.
Proof. unfold swap. rewrite byte_eqb_refl. reflexivity. Qed.

Lemma swap_right a x : swap a x x = a.
Proof.
  unfold swap. destruct (Byte.eqb x a) eqn:E; [|rewrite byte_eqb_refl; reflexivity].
  apply Byte.byte_dec_bl in E. auto.
Qed.

Lemma swap_other a x c : c <> a -> c <> x -> swap a x c = c.
Proof.
  intros Na Nx. unfold swap. rewrite (byte_eqb_neq _ _ Na), (byte_eqb_neq _ _ Nx).
  reflexivity.
Qed.

Lemma swap_cases a x c :
  (c = a /\ swap a x c = x) \/ (c = x /\ swap a x c = a)
  \/ (c <> a /\ c <> x /\ swap a x c = c).
Proof.
  destruct (Byte.byte_eq_dec c a) as [->|Na]; [left; split; [reflexivity|apply swap_left]|].
  destruct (Byte.byte_eq_dec c x) as [->|Nx];
    [right; left; split; [reflexivity|apply swap_right]|].
  right. right. repeat split; try assumption. apply swap_other; assumption.
Qed.

Lemma swap_involutive a x c : swap a x (swap a x c) = c.
Proof.
  destruct (swap_cases a x c) as [[-> ->]|[[-> ->]|(Na & Nx & ->)]].
  - apply swap_right.
  - apply swap_left.
  - apply swap_other; assumption.
Qed.

Lemma swap_injective a x c d : swap a x c = swap a x d -> c = d.
Proof.
  intros E. rewrite <- (swap_involutive a x c), <- (swap_involutive a x d), E.
  reflexivity.
Qed.

Lemma swap_in a x L c : In a L -> In x L -> (In (swap a x c) L <-> In c L).
Proof.
  intros Ia Ix.
  destruct (swap_cases a x c) as [[-> ->]|[[-> ->]|(Na & Nx & ->)]]; tauto.
Qed.

(** Exchanging two bytes of a list without repetition permutes it. *)
Lemma swap_perm a x L :
  NoDup L -> In a L -> In x L -> Permutation (map (swap a x) L) L.
Proof.
  intros ND Ia Ix. apply NoDup_Permutation.
  - clear Ia Ix. induction ND as [|c L NI ND IH]; simpl; constructor; [|exact IH].
    rewrite in_map_iff. intros (d & E & Id). apply swap_injective in E.
    subst d. contradiction.
  - exact ND.
  - intros c. rewrite in_map_iff. split.
    + intros (d & <- & Id). apply (swap_in a x L d Ia Ix). exact Id.
    + intros Ic. exists (swap a x c). split; [apply swap_involutive|].
      apply (swap_in a x L c Ia Ix). exact Ic.
Qed.

(** The depth of a leaf goes with its byte. *)
Lemma depth_relabel_swap a x y t :
  cost (only (swap a x y)) (relabel (swap a x) t) = cost (only y) t.
Proof.
  rewrite cost_relabel. apply cost_ext. intros c _. unfold only.
  destruct (Byte.byte_eq_dec c y) as [->|N].
  - rewrite !byte_eqb_refl. reflexivity.
  - rewrite (byte_eqb_neq _ _ N). rewrite byte_eqb_neq; [reflexivity|].
    intros E. apply swap_injective in E. contradiction.
Qed.

(** What exchanging the leaves of [a] and [x] does to the cost. *)
Lemma cost_swap f a x t :
  cost f (relabel (swap a x) t)
  = cost f t + (f a - f x) * (cost (only x) t - cost (only a) t).
Proof.
  rewrite cost_relabel.
  rewrite (cost_ext _ (fun c => (f c + (f x - f a) * only a c)
                               + (f a - f x) * only x c) t).
  - rewrite cost_linear, cost_linear. lia.
  - intros c _. unfold only.
    destruct (swap_cases a x c) as [[-> ->]|[[-> ->]|(Na & Nx & ->)]].
    + rewrite byte_eqb_refl.
      destruct (Byte.eqb a x) eqn:E; [apply Byte.byte_dec_bl in E; subst|]; lia.
    + rewrite byte_eqb_refl.
      destruct (Byte.eqb x a) eqn:E; [apply Byte.byte_dec_bl in E; subst|]; lia.
    + rewrite (byte_eqb_neq _ _ Na), (byte_eqb_neq _ _ Nx). lia.
Qed.

(** ** The deepest pair of leaves *)

Lemma upd_same f a v : upd f a v a = v.
Proof. unfold upd. rewrite byte_eqb_refl. reflexivity. Qed.

Lemma upd_other f a v c : c <> a -> upd f a v c = f c.
Proof. intros N. unfold upd. rewrite (byte_eqb_neq _ _ N). reflexivity. Qed.

Lemma only_same y : only y y = 1.
Proof. unfold only. rewrite byte_eqb_refl. reflexivity. Qed.

Lemma only_other y c : c <> y -> only y c = 0.
Proof. intros N. unfold only. rewrite (byte_eqb_neq _ _ N). reflexivity. Qed.

Lemma huff_is_leaf t : huff t -> is_leaf t = true -> exists ch w, t = Node ch w Null Null.
Proof.
  intros H E. destruct H as [ch w|ch w l r Hl Hr]; [eauto|].
  rewrite (huff_inner ch w l r Hl) in E. discriminate.
Qed.

Lemma deepest_pair_spec t :
  huff t -> is_leaf t = false -> NoDup (leaves t) ->
  deepest_pair_ok t (fst (fst (deepest_pair t))) (snd (fst (deepest_pair t)))
                  (snd (deepest_pair t)).
Proof.
  induction 1 as [ch w|ch w l r Hl IHl Hr IHr]; intros NL ND; [discriminate|].
  pose proof (huff_inner ch w l r Hl) as E.
  cbn [leaves] in ND. rewrite E in ND.
  pose proof (NoDup_app_remove_r _ _ ND) as NDl.
  pose proof (NoDup_app_remove_l _ _ ND) as NDr.
  cbn [deepest_pair].
  destruct (is_leaf l) eqn:El; [destruct (is_leaf r) eqn:Er|]; cbn [andb].
  - (* two leaves *)
    destruct (huff_is_leaf l Hl El) as (x & wx & ->).
    destruct (huff_is_leaf r Hr Er) as (y & wy & ->).
    cbn [fst snd]. cbn [leaves is_leaf app] in ND.
    assert (Nxy : x <> y).
    { intros ->. inversion ND as [|? ? NI _]. apply NI. left. reflexivity. }
    unfold deepest_pair_ok. cbn [leaves is_leaf app cost wt height].
    repeat split.
    + apply huff_leaf.
    + exact Nxy.
    + apply perm_swap.
    + left. reflexivity.
    + rewrite only_same, only_other by auto. reflexivity.
    + rewrite only_same, only_other by exact Nxy. reflexivity.
    + intros f. rewrite upd_same. reflexivity.
  - (* the left child is a leaf, the right one is not *)
    specialize (IHr eq_refl NDr).
    destruct (huff_is_leaf l Hl El) as (x & wx & ->).
    assert (Hh : (height r <=? height (Node x wx Null Null)) = false).
    { apply Z.leb_gt. cbn [height is_leaf].
      pose proof (height_nonneg r).
      destruct (Z.eq_dec (height r) 0) as [Z0|]; [|lia].
      rewrite (huff_height_zero r Hr Z0) in Er. discriminate. }
    rewrite Hh.
    destruct (deepest_pair r) as [[a b] r0]. cbn [fst snd] in *.
    destruct IHr as (H0 & Nab & Pm & Ia & Da & Db & Cf & Wf).
    assert (Nxa : x <> a).
    { intros ->. eapply (NoDup_app_disjoint _ _ _ _ ND); [left; reflexivity|].
      cbn [leaves is_leaf]. eapply Permutation_in; [symmetry; exact Pm|].
      right. exact Ia. }
    assert (Nxb : x <> b).
    { intros ->. eapply (NoDup_app_disjoint _ _ _ _ ND); [left; reflexivity|].
      eapply Permutation_in; [symmetry; exact Pm|]. left. reflexivity. }
    assert (E0 : is_leaf (Node ch w (Node x wx Null Null) r0) = false) by reflexivity.
    pose proof (height_nonneg r) as Hr0.
    unfold deepest_pair_ok. cbn [leaves cost wt height]. rewrite E, E0.
    cbn [leaves cost wt height is_leaf app].
    repeat split.
    + apply huff_node; [apply huff_leaf|exact H0].
    + exact Nab.
    + rewrite Pm. apply perm_swap.
    + right. exact Ia.
    + rewrite Da, (wt_only a r Hr NDr), only_other by auto.
      destruct (in_dec Byte.byte_eq_dec a (leaves r)) as [_|N]; [lia|].
      exfalso. apply N. eapply Permutation_in; [symmetry; exact Pm|]. right. exact Ia.
    + rewrite Db, (wt_only b r Hr NDr), only_other by auto.
      destruct (in_dec Byte.byte_eq_dec b (leaves r)) as [_|N]; [lia|].
      exfalso. apply N. eapply Permutation_in; [symmetry; exact Pm|]. left. reflexivity.
    + intros f. rewrite (Cf f), (Wf f), upd_other by exact Nxa. lia.
    + intros f. rewrite (Wf f), upd_other by exact Nxa. reflexivity.
  - (* the left child is no leaf *)
    destruct (height r <=? height l) eqn:Hh.
    + apply Z.leb_le in Hh. specialize (IHl eq_refl NDl).
      destruct (deepest_pair l) as [[a b] l0]. cbn [fst snd] in *.
      destruct IHl as (H0 & Nab & Pm & Ia & Da & Db & Cf & Wf).
      assert (Il : forall c, In c (b :: leaves l0) -> In c (leaves l))
        by (intros c I; eapply Permutation_in; [symmetry; exact Pm|exact I]).
      assert (Nr : forall c, In c (b :: leaves l0) -> ~ In c (leaves r))
        by (intros c I; eapply NoDup_app_disjoint; [exact ND|apply Il, I]).
      assert (E0 : is_leaf (Node ch w l0 r) = false) by (apply (huff_inner _ _ _ _ H0)).
      unfold deepest_pair_ok. cbn [leaves cost wt height]. rewrite E, E0.
      repeat split.
      * apply huff_node; assumption.
      * exact Nab.
      * rewrite Pm. reflexivity.
      * apply in_or_app. left. exact Ia.
      * rewrite Da, (wt_only a l Hl NDl), (wt_only a r Hr NDr).
        rewrite (cost_only_absent a r) by (apply Nr; right; exact Ia).
        destruct (in_dec Byte.byte_eq_dec a (leaves l)) as [_|N];
          [|exfalso; apply N, Il; right; exact Ia].
        destruct (in_dec Byte.byte_eq_dec a (leaves r)) as [I|_];
          [exfalso; eapply Nr; [right; exact Ia|exact I]|]. lia.
      * rewrite Db, (wt_only b l Hl NDl), (wt_only b r Hr NDr).
        rewrite (cost_only_absent b r) by (apply Nr; left; reflexivity).
        destruct (in_dec Byte.byte_eq_dec b (leaves l)) as [_|N];
          [|exfalso; apply N, Il; left; reflexivity].
        destruct (in_dec Byte.byte_eq_dec b (leaves r)) as [I|_];
          [exfalso; eapply Nr; [left; reflexivity|exact I]|]. lia.
      * intros f. rewrite (Cf f), (Wf f).
        rewrite (cost_ext (upd f a (f a + f b)) f r),
                (wt_ext (upd f a (f a + f b)) f r); [lia| |];
          intros c I; apply upd_other; intros ->;
          eapply Nr; [right; exact Ia|exact I|right; exact Ia|exact I].
      * intros f. rewrite (Wf f).
        rewrite (wt_ext (upd f a (f a + f b)) f r); [reflexivity|].
        intros c I. apply upd_other. intros ->. eapply Nr; [right; exact Ia|exact I].
    + apply Z.leb_gt in Hh.
      assert (Er : is_leaf r = false).
      { destruct (is_leaf r) eqn:Er; [|reflexivity].
        destruct (huff_is_leaf r Hr Er) as (y & wy & ->).
        cbn [height is_leaf] in Hh. pose proof (height_nonneg l). lia. }
      specialize (IHr Er NDr).
      destruct (deepest_pair r) as [[a b] r0]. cbn [fst snd] in *.
      destruct IHr as (H0 & Nab & Pm & Ia & Da & Db & Cf & Wf).
      assert (Ir : forall c, In c (b :: leaves r0) -> In c (leaves r))
        by (intros c I; eapply Permutation_in; [symmetry; exact Pm|exact I]).
      assert (Nl : forall c, In c (b :: leaves r0) -> ~ In c (leaves l)).
      { intros c I Il. eapply NoDup_app_disjoint; [exact ND|exact Il|apply Ir, I]. }
      assert (E0 : is_leaf (Node ch w l r0) = false) by (apply (huff_inner _ _ _ _ Hl)).
      unfold deepest_pair_ok. cbn [leaves cost wt height]. rewrite E, E0.
      repeat split.
      * apply huff_node; assumption.
      * exact Nab.
      * rewrite Pm. symmetry. apply Permutation_middle.
      * apply in_or_app. right. exact Ia.
      * rewrite Da, (wt_only a l Hl NDl), (wt_only a r Hr NDr).
        rewrite (cost_only_absent a l) by (apply Nl; right; exact Ia).
        destruct (in_dec Byte.byte_eq_dec a (leaves r)) as [_|N];
          [|exfalso; apply N, Ir; right; exact Ia].
        destruct (in_dec Byte.byte_eq_dec a (leaves l)) as [I|_];
          [exfalso; eapply Nl; [right; exact Ia|exact I]|]. lia.
      * rewrite Db, (wt_only b l Hl NDl), (wt_only b r Hr NDr).
        rewrite (cost_only_absent b l) by (apply Nl; left; reflexivity).
        destruct (in_dec Byte.byte_eq_dec b (leaves r)) as [_|N];
          [|exfalso; apply N, Ir; left; reflexivity].
        destruct (in_dec Byte.byte_eq_dec b (leaves l)) as [I|_];
          [exfalso; eapply Nl; [left; reflexivity|exact I]|]. lia.
      * intros f. rewrite (Cf f), (Wf f).
        rewrite (cost_ext (upd f a (f a + f b)) f l),
                (wt_ext (upd f a (f a + f b)) f l); [lia| |];
          intros c I; apply upd_other; intros ->;
          eapply Nl; [right; exact Ia|exact I|right; exact Ia|exact I].
      * intros f. rewrite (Wf f).
        rewrite (wt_ext (upd f a (f a + f b)) f l); [reflexivity|].
        intros c I. apply upd_other. intros ->. eapply Nl; [right; exact Ia|exact I].
Qed.

Lemma deepest_pair_shape t : huff t -> huff (snd (deepest_pair t)).
Proof.
  induction 1 as [ch w|ch w l r Hl IHl Hr IHr]; [apply huff_leaf|].
  cbn [deepest_pair].
  destruct (is_leaf l) eqn:El; [destruct (is_leaf r) eqn:Er|]; cbn [andb].
  - destruct (huff_is_leaf l Hl El) as (x & wx & ->).
    destruct (huff_is_leaf r Hr Er) as (y & wy & ->). apply huff_leaf.
  - destruct (height r <=? height l).
    + destruct (deepest_pair l) as [[a b] l0]. cbn [snd] in *.
      apply huff_node; assumption.
    + destruct (deepest_pair r) as [[a b] r0]. cbn [snd] in *.
      apply huff_node; assumption.
  - destruct (height r <=? height l).
    + destruct (deepest_pair l) as [[a b] l0]. cbn [snd] in *.
      apply huff_node; assumption.
    + destruct (deepest_pair r) as [[a b] r0]. cbn [snd] in *.
      apply huff_node; assumption.
Qed.

Lemma deepest_pair_relabel g t :
  huff t -> is_leaf t = false ->
  deepest_pair (relabel g t)
  = (g (fst (fst (deepest_pair t))), g (snd (fst (deepest_pair t))),
     relabel g (snd (deepest_pair t))).
Proof.
  induction 1 as [ch w|ch w l r Hl IHl Hr IHr]; intros NL; [discriminate|].
  cbn [relabel]. rewrite NL. cbn [deepest_pair].
  rewrite !is_leaf_relabel, !height_relabel.
  destruct (is_leaf l) eqn:El; [destruct (is_leaf r) eqn:Er|]; cbn [andb].
  - destruct (huff_is_leaf l Hl El) as (x & wx & ->).
    destruct (huff_is_leaf r Hr Er) as (y & wy & ->).
    reflexivity.
  - destruct (huff_is_leaf l Hl El) as (x & wx & ->).
    assert (Hh : (height r <=? height (Node x wx Null Null)) = false).
    { apply Z.leb_gt. cbn [height is_leaf].
      pose proof (height_nonneg r).
      destruct (Z.eq_dec (height r) 0) as [Z0|]; [|lia].
      rewrite (huff_height_zero r Hr Z0) in Er. discriminate. }
    rewrite Hh, (IHr eq_refl). destruct (deepest_pair r) as [[a b] r0].
    cbn [fst snd relabel is_leaf]. reflexivity.
  - destruct (height r <=? height l) eqn:Hh.
    + rewrite (IHl eq_refl). destruct (deepest_pair l) as [[a b] l0] eqn:D.
      cbn [fst snd relabel].
      pose proof (deepest_pair_shape l Hl) as Sh. rewrite D in Sh. cbn [snd] in Sh.
      rewrite (huff_inner ch w l0 r Sh). reflexivity.
    + apply Z.leb_gt in Hh.
      assert (Er : is_leaf r = false).
      { destruct (is_leaf r) eqn:Er; [|reflexivity].
        destruct (huff_is_leaf r Hr Er) as (y & wy & ->).
        cbn [height is_leaf] in Hh. pose proof (height_nonneg l). lia. }
      rewrite (IHr Er). destruct (deepest_pair r) as [[a b] r0].
      cbn [fst snd relabel]. rewrite (huff_inner ch w l r0 Hl). reflexivity.
Qed.

(** ** The two lightest leaves can be made siblings at no cost *)

Lemma relabel_swap_leaves a x t :
  NoDup (leaves t) -> In a (leaves t) -> In x (leaves t) ->
  Permutation (leaves (relabel (swap a x) t)) (leaves t).
Proof. intros ND Ia Ix. rewrite leaves_relabel. apply swap_perm; assumption. Qed.

(** In a tree over the weights [f] whose two lightest leaves are [a] and
    [b], these two can be merged into one leaf of weight [f a + f b]: the
    tree that results costs [f a + f b] less, at least. *)
Lemma exchange f a b U :
  huff U -> is_leaf U = false -> NoDup (leaves U) ->
  In a (leaves U) -> In b (leaves U) -> a <> b ->
  (forall c, In c (leaves U) -> f a <= f c) ->
  (forall c, In c (leaves U) -> c <> a -> f b <= f c) ->
  exists U',
    huff U' /\ Permutation (leaves U) (b :: leaves U') /\
    cost (upd f a (f a + f b)) U' + f a + f b <= cost f U.
Proof.
  intros HU NL ND Ia Ib Nab Ma Mb.
  pose proof (deepest_pair_spec U HU NL ND) as Sp.
  destruct (deepest_pair U) as [[x y] U0] eqn:D. cbn [fst snd] in Sp.
  destruct Sp as (H0 & Nxy & Pm & Ix0 & Dx & Dy & _ & _).
  assert (Ix : In x (leaves U))
    by (eapply Permutation_in; [symmetry; exact Pm|right; exact Ix0]).
  assert (Iy : In y (leaves U))
    by (eapply Permutation_in; [symmetry; exact Pm|left; reflexivity]).
  (* [a] goes where [x] is *)
  set (U1 := relabel (swap a x) U).
  assert (H1 : huff U1) by (apply huff_relabel, HU).
  assert (NL1 : is_leaf U1 = false) by (unfold U1; rewrite is_leaf_relabel; exact NL).
  assert (P1 : Permutation (leaves U1) (leaves U))
    by (apply relabel_swap_leaves; assumption).
  assert (ND1 : NoDup (leaves U1))
    by (eapply Permutation_NoDup; [symmetry; exact P1|exact ND]).
  assert (C1 : cost f U1 <= cost f U).
  { unfold U1. rewrite cost_swap.
    pose proof (depth_le_height a U HU ND). pose proof (Ma x Ix). nia. }
  set (y1 := swap a x y).
  assert (Ny1 : y1 <> a).
  { unfold y1. intros E. apply Nxy. symmetry. apply (swap_injective a x).
    rewrite swap_right. exact E. }
  assert (Iy1 : In y1 (leaves U)) by (unfold y1; apply swap_in; assumption).
  assert (D1 : deepest_pair U1 = (a, y1, relabel (swap a x) U0)).
  { unfold U1. rewrite (deepest_pair_relabel _ U HU NL), D. cbn [fst snd].
    rewrite swap_right. reflexivity. }
  assert (Dy1 : cost (only y1) U1 = height U1).
  { unfold U1, y1. rewrite depth_relabel_swap, height_relabel. exact Dy. }
  (* [b] goes where the sibling is *)
  set (U2 := relabel (swap b y1) U1).
  assert (H2 : huff U2) by (apply huff_relabel, H1).
  assert (NL2 : is_leaf U2 = false) by (unfold U2; rewrite is_leaf_relabel; exact NL1).
  assert (Ib1 : In b (leaves U1))
    by (eapply Permutation_in; [symmetry; exact P1|exact Ib]).
  assert (Iy11 : In y1 (leaves U1))
    by (eapply Permutation_in; [symmetry; exact P1|exact Iy1]).
  assert (P2 : Permutation (leaves U2) (leaves U1))
    by (apply relabel_swap_leaves; assumption).
  assert (ND2 : NoDup (leaves U2))
    by (eapply Permutation_NoDup; [symmetry; exact P2|exact ND1]).
  assert (C2 : cost f U2 <= cost f U1).
  { unfold U2. rewrite cost_swap.
    pose proof (depth_le_height b U1 H1 ND1). pose proof (Mb y1 Iy1 Ny1). nia. }
  assert (D2 : deepest_pair U2 = (a, b, relabel (swap b y1) (relabel (swap a x) U0))).
  { unfold U2. rewrite (deepest_pair_relabel _ U1 H1 NL1), D1. cbn [fst snd].
    rewrite swap_right, swap_other by auto. reflexivity. }
  pose proof (deepest_pair_spec U2 H2 NL2 ND2) as Sp. rewrite D2 in Sp.
  cbn [fst snd] in Sp. destruct Sp as (H' & _ & Pm' & _ & _ & _ & Cf & _).
  exists (relabel (swap b y1) (relabel (swap a x) U0)). repeat split.
  - exact H'.
  - rewrite <- Pm', P2, P1. reflexivity.
  - rewrite <- (Cf f). lia.
Qed.

(** ** The tree of the merge loop costs least *)

Lemma forest_cost_perm f L K : Permutation L K -> forest_cost f L = forest_cost f K.
Proof.
  induction 1 as [|n L K _ IH|n m L|L K M _ IH1 _ IH2]; cbn [forest_cost fold_right] in *;
    try fold (forest_cost f L) in *; try fold (forest_cost f K) in *; lia.
Qed.

Lemma first_leaf_node ch w l r :
  huff l -> first_leaf (Node ch w l r) = first_leaf l.
Proof.
  intros Hl. unfold first_leaf. cbn [leaves]. rewrite (huff_inner ch w l r Hl).
  pose proof (huff_leaves_nonempty l Hl). destruct (leaves l); [congruence|reflexivity].
Qed.

Lemma first_leaf_in t : huff t -> In (first_leaf t) (leaves t).
Proof.
  intros H. unfold first_leaf. pose proof (huff_leaves_nonempty t H).
  destruct (leaves t); [congruence|left; reflexivity].
Qed.

Lemma one_leaf_cost f U :
  huff U -> (length (leaves U) <= 1)%nat -> cost f U = 0.
Proof.
  intros H Len. destruct H as [ch w|ch w l r Hl Hr]; [reflexivity|].
  cbn [leaves] in Len. rewrite (huff_inner ch w l r Hl), length_app in Len.
  pose proof (huff_leaves_nonempty l Hl). pose proof (huff_leaves_nonempty r Hr).
  destruct (leaves l); [congruence|]. destruct (leaves r); [congruence|].
  simpl in Len. lia.
Qed.

Lemma optimal_so_far_perm cnt C T L K :
  Permutation L K -> optimal_so_far cnt C T L -> optimal_so_far cnt C T K.
Proof.
  intros HP (WT & ND & FW & U & f & HU & NDU & PU & Ff & Cst).
  split; [exact (weights_total_perm T L K HP WT)|].
  split; [eapply Permutation_NoDup; [apply Permutation_flat_map, HP|exact ND]|].
  split; [eapply Permutation_Forall; [exact HP|exact FW]|].
  exists U, f. repeat split; try assumption.
  - rewrite PU. apply Permutation_map, HP.
  - intros t I. apply Ff. eapply Permutation_in; [symmetry; exact HP|exact I].
  - rewrite <- (forest_cost_perm cnt L K HP). exact Cst.
Qed.

Lemma optimal_so_far_step cnt C T L l L1 r L2 :
  T < 2 ^ 31 ->
  optimal_so_far cnt C T L -> least_split L l L1 -> least_split L1 r L2 ->
  optimal_so_far cnt C T (Node "000"%byte (wrap_int (freq_of l + freq_of r)) l r :: L2).
Proof.
  intros HT HI Sl Sr.
  pose proof (weights_total_step T L l L1 r L2 HT (proj1 HI) Sl Sr) as WT'.
  destruct Sl as [Pl Fl]. destruct Sr as [Pr Fr].
  assert (PL : Permutation L (l :: r :: L2)) by (rewrite Pl, Pr; reflexivity).
  rewrite Forall_forall in Fl, Fr.
  assert (Fl' : forall t, In t (l :: r :: L2) -> freq_of l <= freq_of t).
  { intros t I. apply Fl. eapply Permutation_in; [symmetry; exact PL|exact I]. }
  assert (Fr' : forall t, In t (r :: L2) -> freq_of r <= freq_of t).
  { intros t I. apply Fr. eapply Permutation_in; [symmetry; exact Pr|exact I]. }
  clear Fl Fr.
  apply (optimal_so_far_perm cnt C T _ _ PL) in HI.
  destruct HI as (WT & ND & FW & U & f & HU & NDU & PU & Ff & Cst).
  destruct WT as (HL & NN & Sm).
  apply Forall_cons_iff in HL. destruct HL as [Hl HL].
  apply Forall_cons_iff in HL. destruct HL as [Hr H2].
  apply Forall_cons_iff in NN. destruct NN as [Nl NN].
  apply Forall_cons_iff in NN. destruct NN as [Nr N2].
  apply Forall_cons_iff in FW. destruct FW as [Wl FW].
  apply Forall_cons_iff in FW. destruct FW as [Wr W2].
  cbn [weight_sum fold_right] in Sm. fold (weight_sum L2) in Sm.
  pose proof (weight_sum_nonneg L2 N2) as S2.
  assert (W : wrap_int (freq_of l + freq_of r) = freq_of l + freq_of r).
  { apply wrap_int_small. change (2 ^ 31) with 2147483648 in *. lia. }
  cbn [map] in PU.
  set (a := first_leaf l) in *. set (b := first_leaf r) in *.
  set (M := map first_leaf L2) in *.
  assert (NDM : NoDup (a :: b :: M))
    by (eapply Permutation_NoDup; [exact PU|exact NDU]).
  assert (Nab : a <> b).
  { intros E. inversion NDM as [|? ? NI _]. apply NI. left. symmetry. exact E. }
  assert (NaM : ~ In a M).
  { intros I. inversion NDM as [|? ? NI _]. apply NI. right. exact I. }
  assert (Ia : In a (leaves U))
    by (eapply Permutation_in; [symmetry; exact PU|left; reflexivity]).
  assert (Ib : In b (leaves U))
    by (eapply Permutation_in; [symmetry; exact PU|right; left; reflexivity]).
  assert (Fa : f a = freq_of l) by (apply Ff; left; reflexivity).
  assert (Fb : f b = freq_of r) by (apply Ff; right; left; reflexivity).
  assert (NLU : is_leaf U = false).
  { destruct (is_leaf U) eqn:E; [|reflexivity].
    destruct (huff_is_leaf U HU E) as (ch & w & ->). cbn [leaves is_leaf] in PU.
    apply Permutation_length in PU. simpl in PU. lia. }
  assert (Ma : forall c, In c (leaves U) -> f a <= f c).
  { intros c I. apply (Permutation_in _ PU) in I.
    change (In c (map first_leaf (l :: r :: L2))) in I.
    apply in_map_iff in I. destruct I as (t & <- & It).
    rewrite Fa, (Ff t It). apply Fl', It. }
  assert (Mb : forall c, In c (leaves U) -> c <> a -> f b <= f c).
  { intros c I Nc. apply (Permutation_in _ PU) in I.
    destruct I as [E|I]; [congruence|].
    change (In c (map first_leaf (r :: L2))) in I.
    apply in_map_iff in I. destruct I as (t & <- & It).
    rewrite Fb, (Ff t (or_intror It)). apply Fr', It. }
  destruct (exchange f a b U HU NLU NDU Ia Ib Nab Ma Mb) as (U' & HU' & PU' & CU').
  assert (PM : Permutation (leaves U') (a :: M)).
  { apply (Permutation_cons_inv (a := b)). rewrite <- PU', PU. apply perm_swap. }
  split; [exact WT'|]. split; [|split].
  - cbn [flat_map leaves]. rewrite (huff_inner _ _ l r Hl), <- app_assoc. exact ND.
  - constructor; [|exact W2].
    cbn [freq_of wt]. rewrite (huff_inner _ _ l r Hl), W. lia.
  - exists U', (upd f a (f a + f b)). repeat split.
    + exact HU'.
    + assert (NDb : NoDup (b :: leaves U'))
        by (eapply Permutation_NoDup; [exact PU'|exact NDU]).
      inversion NDb; assumption.
    + cbn [map]. rewrite (first_leaf_node _ _ l r Hl). exact PM.
    + intros t [<-|It].
      * rewrite (first_leaf_node _ _ l r Hl). fold a. rewrite upd_same.
        cbn [freq_of]. rewrite W. lia.
      * rewrite upd_other; [apply Ff; right; right; exact It|].
        intros E. apply NaM. rewrite <- E. apply in_map, It.
    + cbn [forest_cost fold_right cost] in *. fold (forest_cost cnt L2) in *.
      rewrite (huff_inner _ _ l r Hl). lia.
Qed.

Lemma flat_map_leaves_table t : flat_map leaves (map leaf_of t) = map fst t.
Proof.
  induction t as [|e t IH]; [reflexivity|].
  cbn [map flat_map leaf_of leaves is_leaf app]. rewrite IH. reflexivity.
Qed.

Lemma first_leaf_table t : map first_leaf (map leaf_of t) = map fst t.
Proof.
  induction t as [|e t IH]; [reflexivity|].
  cbn [map]. rewrite IH. reflexivity.
Qed.

Lemma forest_cost_table f t : forest_cost f (map leaf_of t) = 0.
Proof.
  induction t as [|e t IH]; [reflexivity|].
  cbn [map forest_cost fold_right]. fold (forest_cost f (map leaf_of t)).
  rewrite IH. reflexivity.
Qed.

Lemma weights_total_start input :
  Z.of_nat (length input) < 2 ^ 31 ->
  weights_total (Z.of_nat (length input)) (map leaf_of (count_freq input)).
Proof.
  intros Len. repeat split.
  - apply huff_leaf_of.
  - apply Forall_forall. intros n I. apply in_map_iff in I.
    destruct I as (e & <- & Ie). cbn [leaf_of freq_of].
    pose proof (count_freq_positive input Len) as F.
    rewrite Forall_forall in F. specialize (F e Ie). lia.
  - rewrite weight_sum_leaves. apply count_freq_total, Len.
Qed.

Lemma optimal_so_far_start input other :
  Z.of_nat (length input) < 2 ^ 31 ->
  huff other -> NoDup (leaves other) ->
  (forall c, In c (leaves other) <-> In c input) ->
  optimal_so_far (occurrences input) (cost (occurrences input) other)
                 (Z.of_nat (length input)) (map leaf_of (count_freq input)).
Proof.
  intros Len HO NDO Same.
  assert (Ent : forall t, In t (map leaf_of (count_freq input)) ->
                          freq_of t = occurrences input (first_leaf t)).
  { intros t I. apply in_map_iff in I. destruct I as ([c n] & <- & Ie).
    apply (count_freq_entry input c n Len), Ie. }
  split; [apply weights_total_start, Len|]. split; [|split].
  - rewrite flat_map_leaves_table. apply count_freq_nodup.
  - apply Forall_forall. intros t I. rewrite (Ent t I).
    apply in_map_iff in I. destruct I as ([c n] & <- & _). reflexivity.
  - exists other, (occurrences input). repeat split.
    + exact HO.
    + exact NDO.
    + rewrite first_leaf_table. apply NoDup_Permutation.
      * exact NDO.
      * apply count_freq_nodup.
      * intros c. rewrite count_freq_keys. apply Same.
    + intros t I. symmetry. apply Ent, I.
    + rewrite forest_cost_table. lia.
Qed.

Lemma optimal_so_far_end cnt C T root :
  optimal_so_far cnt C T [root] -> cost cnt root <= C.
Proof.
  intros (_ & _ & _ & U & f & HU & _ & PU & _ & Cst).
  rewrite (one_leaf_cost f U HU) in Cst.
  - cbn [forest_cost fold_right] in Cst. lia.
  - apply Permutation_length in PU. rewrite PU. simpl. lia.
Qed.

(** The cost for the counts of an input is the number of payload bits. *)
Lemma cost_occurrences input t :
  cost (occurrences input) t
  = fold_right (fun a acc => cost (only a) t + acc) 0 input.
Proof.
  induction input as [|a input IH]; cbn [fold_right].
  - apply (cost_zero t).
  - rewrite <- IH.
    rewrite (cost_ext _ (fun c => occurrences input c + 1 * only a c) t).
    + rewrite cost_linear. lia.
    + intros c _. rewrite occurrences_cons. unfold only.
      destruct (Byte.eqb a c) eqn:E.
      * apply Byte.byte_dec_bl in E. subst c. rewrite byte_eqb_refl. lia.
      * rewrite byte_eqb_neq; [lia|]. intros ->. rewrite byte_eqb_refl in E.
        discriminate.
Qed.

Lemma reaches_in_leaves p : forall t c, reaches t p c -> In c (leaves t).
Proof.
  induction p as [|b p IH]; intros t c R; cbn [reaches] in R.
  - destruct R as [f ->]. left. reflexivity.
  - destruct t as [|ch w l r]; [contradiction|]. destruct R as [E R].
    cbn [leaves]. rewrite E. apply in_or_app.
    destruct b; [right|left]; apply IH, R.
Qed.

(** The depth of a leaf is the length of the path to it. *)
Lemma reaches_depth p : forall t c,
  huff t -> NoDup (leaves t) -> reaches t p c ->
  cost (only c) t = Z.of_nat (length p).
Proof.
  induction p as [|b p IH]; intros t c H ND R; cbn [reaches] in R.
  - destruct R as [f ->]. reflexivity.
  - destruct H as [ch w|ch w l r Hl Hr]; [destruct R; discriminate|].
    destruct R as [E R]. cbn [leaves cost] in *. rewrite E in *.
    pose proof (NoDup_app_remove_r _ _ ND) as NDl.
    pose proof (NoDup_app_remove_l _ _ ND) as NDr.
    pose proof (reaches_in_leaves p _ c R) as I.
    rewrite (wt_only c l Hl NDl), (wt_only c r Hr NDr).
    cbn [length]. rewrite Nat2Z.inj_succ.
    destruct b.
    + assert (N : ~ In c (leaves l))
        by (intros Il; exact (NoDup_app_disjoint _ _ _ _ ND Il I)).
      rewrite (cost_only_absent c l N), (IH r c Hr NDr R).
      destruct (in_dec Byte.byte_eq_dec c (leaves l)); [contradiction|].
      destruct (in_dec Byte.byte_eq_dec c (leaves r)); [lia|contradiction].
    + assert (N : ~ In c (leaves r))
        by (intros Ir; exact (NoDup_app_disjoint _ _ _ _ ND I Ir)).
      rewrite (cost_only_absent c r N), (IH l c Hl NDl R).
      destruct (in_dec Byte.byte_eq_dec c (leaves r)); [contradiction|].
      destruct (in_dec Byte.byte_eq_dec c (leaves l)); [lia|contradiction].
Qed.

Lemma code_bits_cost input t :
  huff t -> is_leaf t = false -> NoDup (leaves t) ->
  (forall a, In a input -> In a (leaves t)) ->
  code_bits (buildCodeMap t [] []) input = cost (occurrences input) t.
Proof.
  intros H NL ND Sub. rewrite code_bits_sum, cost_occurrences.
  induction input as [|a input IH]; cbn [fold_right]; [reflexivity|].
  rewrite IH by (intros c I; apply Sub; right; exact I).
  destruct (codes_of_root t H NL ND a (Sub a (or_introl eq_refl))) as (_ & R & _).
  rewrite (reaches_depth _ t a H ND R). reflexivity.
Qed.

Lemma two_symbols_inner input t :
  two_symbols input -> huff t -> NoDup (leaves t) ->
  (forall c, In c (leaves t) <-> In c input) -> is_leaf t = false.
Proof.
  intros (a & b & Ia & Ib & Nab) H ND Same.
  destruct (is_leaf t) eqn:E; [|reflexivity].
  destruct (huff_is_leaf t H E) as (ch & w & ->).
  apply Same in Ia, Ib. cbn [leaves is_leaf] in Ia, Ib.
  destruct Ia as [<-|[]]. destruct Ib as [<-|[]]. congruence.
Qed.

Section Optimal.

Context {P : Platform}.

(** The root of the merge loop costs no more than any tree over the bytes
    of the input. *)
Lemma huffman_root_least_cost input other :
  two_symbols input -> Z.of_nat (length input) < 2 ^ 31 ->
  huff other -> NoDup (leaves other) ->
  (forall c, In c (leaves other) <-> In c input) ->
  exists root,
    huffman_root input = Returns root /\ huff root /\ is_leaf root = false /\
    NoDup (leaves root) /\ (forall c, In c (leaves root) <-> In c input) /\
    cost (occurrences input) root <= cost (occurrences input) other.
Proof.
  intros Two Len HO NDO Same.
  destruct (huffman_root_many input Two) as (root & E & H & NL & ND & Lv).
  destruct (huffman_root_invariant
              (optimal_so_far (occurrences input) (cost (occurrences input) other)
                              (Z.of_nat (length input))) input)
    as (root' & E' & HI).
  - apply optimal_so_far_perm.
  - intros L HI. apply HI.
  - intros L l L1 r L2. apply optimal_so_far_step, Len.
  - exact Two.
  - apply optimal_so_far_start; assumption.
  - rewrite E in E'. injection E' as <-.
    exists root. repeat split; try assumption; try apply Lv.
    apply (optimal_so_far_end _ _ _ _ HI).
Qed.

(** X11. For an input of two distinct byte values or more, shorter than
    2^31 bytes, the tree [compress] builds gives the shortest payload: coding
    the input with the table of any other tree whose nodes have no child or
    two and whose leaves are the bytes of the input, each once, takes at
    least as many bits. This holds whatever the order of the frequency map
    and whatever the queue does with equal weights. *)
Theorem huffman_tree_optimal input other :
  two_symbols input -> Z.of_nat (length input) < 2 ^ 31 ->
  huff other -> NoDup (leaves other) ->
  (forall c, In c (leaves other) <-> In c input) ->
  exists root,
    huffman_root input = Returns root /\
    code_bits (buildCodeMap root [] []) input
    <= code_bits (buildCodeMap other [] []) input.
Proof.
  intros Two Len HO NDO Same.
  destruct (huffman_root_least_cost input other Two Len HO NDO Same)
    as (root & E & H & NL & ND & Lv & Le).
  exists root. split; [exact E|].
  rewrite (code_bits_cost input root H NL ND) by (intros a I; apply Lv, I).
  rewrite (code_bits_cost input other HO
             (two_symbols_inner input other Two HO NDO Same) NDO)
    by (intros a I; apply Same, I).
  exact Le.
Qed.

End Optimal.

(** ** The size of the output *)

(** A tree of [k] leaves takes [3 * k - 1] bytes in the container. *)
Lemma writeTree_length t :
  huff t -> (length (writeTree t) + 1 = 3 * length (leaves t))%nat.
Proof.
  induction 1 as [ch w|ch w l r Hl IHl Hr IHr]; [reflexivity|].
  cbn [writeTree leaves]. rewrite (huff_inner ch w l r Hl).
  cbn [length]. rewrite !length_app. lia.
Qed.

Lemma pack_bits_length buffer :
  Z.of_nat (length (pack_bits (add_padding buffer)))
  = (Z.of_nat (length buffer) + 7) / 8.
Proof.
  destruct (add_padding_length buffer) as [k Ek].
  destruct (pack_bits_whole k (add_padding buffer) Ek) as [-> _].
  unfold add_padding, padding_of in *.
  pose proof (Z.mod_pos_bound (Z.of_nat (length buffer)) 8 ltac:(lia)) as Rm.
  pose proof (Z.div_mod (Z.of_nat (length buffer)) 8 ltac:(lia)) as Dm.
  destruct (8 - Z.of_nat (length buffer) mod 8 =? 8) eqn:E.
  - apply Z.eqb_eq in E. apply Nat2Z.inj_iff in Ek. rewrite Nat2Z.inj_mul in Ek.
    apply (Z.div_unique _ 8 _ 7); lia.
  - apply Z.eqb_neq in E. rewrite length_app, repeat_length in Ek.
    apply Nat2Z.inj_iff in Ek.
    rewrite Nat2Z.inj_add, Nat2Z.inj_mul, Z2Nat.id in Ek by lia.
    apply (Z.div_unique _ 8 _ (Z.of_nat (length buffer) mod 8 - 1)); lia.
Qed.

Lemma distinct_count (l k : list byte) :
  NoDup l -> NoDup k -> (forall c, In c l <-> In c k) -> length l = length k.
Proof.
  intros Nl Nk Same. apply Permutation_length, NoDup_Permutation; assumption.
Qed.

Lemma table_size_distinct input :
  length (count_freq input) = length (nodup Byte.byte_eq_dec input).
Proof.
  rewrite <- (length_map fst). apply distinct_count.
  - apply count_freq_nodup.
  - apply NoDup_nodup.
  - intros c. rewrite count_freq_keys, nodup_In. reflexivity.
Qed.

Lemma table_size_le input : (length (count_freq input) <= length input)%nat.
Proof.
  rewrite <- (length_map fst). apply NoDup_incl_length; [apply count_freq_nodup|].
  intros c I. apply count_freq_keys, I.
Qed.

Section Sizes.

Context {P : Platform}.

(** X12. For an input of two distinct byte values or more, shorter than
    2^31 bytes, [compress] reports the length of the input, the number of
    distinct byte values in it, and an output of 13 bytes, three more for
    each distinct byte value, and the code bits of the input rounded up to
    whole bytes. *)
Theorem compress_reports_sizes input :
  two_symbols input -> Z.of_nat (length input) < 2 ^ 31 ->
  exists root stats,
    huffman_root input = Returns root /\
    compress_stats input = Returns stats /\
    stats_originalSize stats = Z.of_nat (length input) /\
    stats_uniqueChars stats = Z.of_nat (length (nodup Byte.byte_eq_dec input)) /\
    stats_compressedSize stats
    = 13 + 3 * stats_uniqueChars stats
      + (code_bits (buildCodeMap root [] []) input + 7) / 8.
Proof.
  intros Two Len.
  destruct (huffman_root_many input Two) as (root & E & H & NL & ND & Lv).
  assert (K : length (leaves root) = length (count_freq input)).
  { rewrite <- (length_map fst (count_freq input)). apply distinct_count.
    - exact ND.
    - apply count_freq_nodup.
    - intros c. rewrite Lv, count_freq_keys. reflexivity. }
  pose proof (table_size_le input) as KL.
  pose proof (writeTree_length root H) as TL.
  pose proof (pack_bits_length (encode (buildCodeMap root [] []) input)) as PL.
  assert (B : Z.of_nat (length (encode (buildCodeMap root [] []) input))
              <= 255 * Z.of_nat (length input)).
  { pose proof (encode_length_le (map_get (buildCodeMap root [] [])) 255 input) as B.
    unfold encode. rewrite <- Nat2Z.inj_mul with (n := 255%nat). apply Nat2Z.inj_le, B.
    intros c I. apply (codes_of_root root H NL ND c), Lv, I. }
  assert (U : wrap_int (Z.of_nat (length (count_freq input)))
              = Z.of_nat (length (count_freq input))).
  { apply wrap_int_small. change (2 ^ 31) with 2147483648 in *. lia. }
  assert (C : Z.of_nat (length (container_of root input))
              = 13 + 3 * Z.of_nat (length (count_freq input))
                + (code_bits (buildCodeMap root [] []) input + 7) / 8).
  { unfold code_bits. rewrite <- PL. unfold container_of, header_of, payload_of.
    rewrite !length_app. unfold MAGIC, size_t_bytes. cbn [length]. lia. }
  eexists root, _. split; [exact E|].
  unfold compress_stats, compress. rewrite E. cbn [bind].
  split; [reflexivity|]. cbn [stats_originalSize stats_uniqueChars stats_compressedSize].
  rewrite U, C. unfold wrap_size_t.
  assert (Q : 0 <= (code_bits (buildCodeMap root [] []) input + 7) / 8
              <= 255 * Z.of_nat (length input)).
  { unfold code_bits. split; [apply Z.div_pos; lia|].
    apply Z.div_le_upper_bound; lia. }
  change (2 ^ 31) with 2147483648 in *.
  rewrite !Z.mod_small by (change (2 ^ 64) with 18446744073709551616; lia).
  rewrite table_size_distinct. repeat split.
Qed.

End Sizes.

(** ** The tree in the container *)

Lemma buildCodeMap_erase t : forall str m,
  buildCodeMap (erase t) str m = buildCodeMap t str m.
Proof.
  induction t as [|ch f l IHl r IHr]; intros str m; [reflexivity|].
  cbn [erase]. destruct (is_leaf (Node ch f l r)) eqn:E.
  - destruct (is_leaf_true ch f l r E) as [-> ->]. reflexivity.
  - cbn [buildCodeMap]. rewrite (is_leaf_inner_erase ch f l r E), E, IHl, IHr.
    reflexivity.
Qed.

(** X13. On a tree in which every node has no child or two, [readTree]
    consumes exactly the bytes [writeTree] wrote, three for each leaf less
    one, and leaves the stream behind them as it is; the tree it returns has
    the same leaves in the same places, so that [buildCodeMap] gives the same
    code table for it; only the weights, which are not stored, are 0. *)
Theorem tree_codec_roundtrip t rest :
  huff t ->
  readTree (writeTree t ++ rest) = Returns (erase t, rest) /\
  leaves (erase t) = leaves t /\
  (forall str m, buildCodeMap (erase t) str m = buildCodeMap t str m) /\
  (length (writeTree t) + 1 = 3 * length (leaves t))%nat.
Proof.
  intros H. split; [apply readTree_writeTree, H|].
  split; [apply leaves_erase, H|].
  split; [apply buildCodeMap_erase|apply writeTree_length, H].
Qed.

(** ** Bits and bytes *)

Lemma pack_bits_of_byte b rest :
  pack_bits (bits_of_byte b ++ rest) = b :: pack_bits rest.
Proof.
  unfold bits_of_byte.
  destruct (Byte.to_bits b) as (b0 & b1 & b2 & b3 & b4 & b5 & b6 & b7) eqn:E.
  cbn [app pack_bits]. rewrite <- E, Byte.of_bits_to_bits. reflexivity.
Qed.

(** X14. The payload bytes and the string of '0' and '1' that [decompress]
    makes of them carry the same information: eight bits for each byte, and
    packing the bits as [compress] does gives the bytes back. *)
Theorem pack_bits_unpack_bits payload :
  pack_bits (unpack_bits payload) = payload /\
  length (unpack_bits payload) = (8 * length payload)%nat.
Proof.
  induction payload as [|b payload [IH IL]]; [split; reflexivity|].
  unfold unpack_bits in *. cbn [flat_map]. split.
  - rewrite pack_bits_of_byte, IH. reflexivity.
  - rewrite length_app, IL, bits_of_byte_length. cbn [length]. lia.
Qed.

(** ** Output names *)

Lemma npos_value : npos = 18446744073709551615.
Proof. reflexivity. Qed.

Lemma find_last_from_none chars s : forall i found,
  Forall (fun c => existsb (Byte.eqb c) chars = false) s ->
  find_last_from chars s i found = found.
Proof.
  induction s as [|c s IH]; intros i found F; [reflexivity|].
  apply Forall_cons_iff in F. destruct F as [Fc F].
  cbn [find_last_from]. rewrite Fc. apply IH, F.
Qed.

Lemma find_last_from_app chars s1 : forall s2 i found,
  find_last_from chars (s1 ++ s2) i found
  = find_last_from chars s2 (i + Z.of_nat (length s1)) (find_last_from chars s1 i found).
Proof.
  induction s1 as [|c s1 IH]; intros s2 i found.
  - cbn [app length find_last_from]. rewrite Z.add_0_r. reflexivity.
  - cbn [app find_last_from]. rewrite IH. cbn [length]. rewrite Nat2Z.inj_succ.
    f_equal. lia.
Qed.

(** The last hit is where the last character of the set stands. *)
Lemma find_last_from_hit chars pre c post i found :
  existsb (Byte.eqb c) chars = true ->
  Forall (fun c => existsb (Byte.eqb c) chars = false) post ->
  find_last_from chars (pre ++ c :: post) i found = i + Z.of_nat (length pre).
Proof.
  intros Hc Hp. rewrite find_last_from_app. cbn [find_last_from]. rewrite Hc.
  apply find_last_from_none, Hp.
Qed.

Lemma find_last_from_range chars s : forall i found,
  find_last_from chars s i found = found \/
  i <= find_last_from chars s i found < i + Z.of_nat (length s).
Proof.
  induction s as [|c s IH]; intros i found; [left; reflexivity|].
  cbn [find_last_from length]. rewrite Nat2Z.inj_succ.
  destruct (existsb (Byte.eqb c) chars).
  - destruct (IH (i + 1) i) as [->|R]; right; lia.
  - destruct (IH (i + 1) found) as [->|R]; [left; reflexivity|right; lia].
Qed.

Lemma skipn_past (A : Type) (pre : list A) c post :
  skipn (length pre + 1) (pre ++ c :: post) = post.
Proof. induction pre as [|a pre IH]; [reflexivity|exact IH]. Qed.

Lemma firstn_stem (A : Type) (stem : list A) rest :
  firstn (length stem) (stem ++ rest) = stem.
Proof.
  rewrite firstn_app, Nat.sub_diag, firstn_all. cbn [firstn]. apply app_nil_r.
Qed.

Lemma separator_is_no_dot sep :
  sep = "/"%byte \/ sep = x5c -> existsb (Byte.eqb sep) ["."%byte] = false.
Proof. intros [->| ->]; reflexivity. Qed.

Lemma separator_found sep :
  sep = "/"%byte \/ sep = x5c -> existsb (Byte.eqb sep) ["/"%byte; x5c] = true.
Proof. intros [->| ->]; reflexivity. Qed.

(** What [getFileNameWithoutExtension] does with a path that has a separator:
    the position of the last separator and the name it cuts out. *)
Lemma file_name_cut dir sep name :
  Z.of_nat (length (dir ++ sep :: name)) < 2 ^ 64 ->
  sep = "/"%byte \/ sep = x5c ->
  Forall (fun c => existsb (Byte.eqb c) ["/"%byte; x5c] = false) name ->
  getFileNameWithoutExtension (dir ++ sep :: name)
  = let lastDot := find_last_of ["."%byte] (dir ++ sep :: name) in
    if negb (lastDot =? npos) && (Z.of_nat (length dir) <? lastDot)
    then substr name 0 (wrap_size_t (lastDot - (Z.of_nat (length dir) + 1)))
    else Some name.
Proof.
  intros Len Sep NoSep. rewrite length_app in Len. cbn [length] in Len.
  unfold getFileNameWithoutExtension.
  assert (LS : find_last_of ["/"%byte; x5c] (dir ++ sep :: name)
               = Z.of_nat (length dir)).
  { unfold find_last_of.
    rewrite (find_last_from_hit _ dir sep name 0 npos (separator_found sep Sep) NoSep).
    lia. }
  cbv zeta. rewrite LS.
  assert (NP : (Z.of_nat (length dir) =? npos) = false).
  { apply Z.eqb_neq. pose proof npos_value. change (2 ^ 64) with 18446744073709551616 in *. lia. }
  rewrite NP. cbn [negb].
  assert (W : wrap_size_t (Z.of_nat (length dir) + 1) = Z.of_nat (length dir) + 1).
  { unfold wrap_size_t. apply Z.mod_small.
    change (2 ^ 64) with 18446744073709551616 in *. lia. }
  rewrite W. unfold substr_from. rewrite length_app. cbn [length].
  assert (Lt : (Z.of_nat (length dir + S (length name)) <? Z.of_nat (length dir) + 1)
               = false) by (apply Z.ltb_ge; lia).
  rewrite Lt.
  replace (Z.to_nat (Z.of_nat (length dir) + 1)) with (length dir + 1)%nat by lia.
  rewrite skipn_past. reflexivity.
Qed.

(** X15. A path with no '/' and no '\' in it comes back from
    [getFileNameWithoutExtension] as it is, its extension included: the test
    [lastDot > lastSlash] is made against [npos], the largest [size_t]. *)
Theorem file_name_without_separator filepath :
  Z.of_nat (length filepath) < 2 ^ 64 ->
  Forall (fun c => c <> "/"%byte /\ c <> x5c) filepath ->
  getFileNameWithoutExtension filepath = Some filepath.
Proof.
  intros Len NoSep. unfold getFileNameWithoutExtension.
  assert (LS : find_last_of ["/"%byte; x5c] filepath = npos).
  { unfold find_last_of. apply find_last_from_none.
    eapply Forall_impl; [|exact NoSep]. intros c [N1 N2]. cbn [existsb].
    rewrite (byte_eqb_neq _ _ N1), (byte_eqb_neq _ _ N2). reflexivity. }
  cbv zeta. rewrite LS. rewrite Z.eqb_refl. cbn [negb].
  assert (LD : (npos <? find_last_of ["."%byte] filepath) = false).
  { apply Z.ltb_ge. unfold find_last_of.
    destruct (find_last_from_range ["."%byte] filepath 0 npos) as [->|R]; [lia|].
    pose proof npos_value. change (2 ^ 64) with 18446744073709551616 in *. lia. }
  rewrite LD, andb_false_r. reflexivity.
Qed.

(** X16. For a path [dir ++ sep :: name], where [sep] is '/' or '\' and
    [name] holds neither, [getFileNameWithoutExtension] gives [name] up to
    its last '.', and the whole [name] when it has no '.', also when [dir]
    has one. It never fails with [std::out_of_range]. *)
Theorem file_name_after_separator dir sep name :
  Z.of_nat (length (dir ++ sep :: name)) < 2 ^ 64 ->
  sep = "/"%byte \/ sep = x5c ->
  Forall (fun c => c <> "/"%byte /\ c <> x5c) name ->
  (forall stem ext,
     name = stem ++ "."%byte :: ext -> Forall (fun c => c <> "."%byte) ext ->
     getFileNameWithoutExtension (dir ++ sep :: name) = Some stem) /\
  (Forall (fun c => c <> "."%byte) name ->
   getFileNameWithoutExtension (dir ++ sep :: name) = Some name).
Proof.
  intros Len Sep NoSep.
  assert (NoSep' : Forall (fun c => existsb (Byte.eqb c) ["/"%byte; x5c] = false) name).
  { eapply Forall_impl; [|exact NoSep]. intros c [N1 N2]. cbn [existsb].
    rewrite (byte_eqb_neq _ _ N1), (byte_eqb_neq _ _ N2). reflexivity. }
  assert (NoDot : forall l, Forall (fun c => c <> "."%byte) l ->
                  Forall (fun c => existsb (Byte.eqb c) ["."%byte] = false) l).
  { intros l F. eapply Forall_impl; [|exact F]. intros c N. cbn [existsb].
    rewrite (byte_eqb_neq _ _ N). reflexivity. }
  rewrite (file_name_cut dir sep name Len Sep NoSep'). cbv zeta.
  rewrite length_app in Len. cbn [length] in Len. split.
  - intros stem ext -> Fext.
    assert (LD : find_last_of ["."%byte] (dir ++ sep :: stem ++ "."%byte :: ext)
                 = Z.of_nat (length dir) + 1 + Z.of_nat (length stem)).
    { unfold find_last_of.
      change (dir ++ sep :: stem ++ "."%byte :: ext)
        with (dir ++ (sep :: stem) ++ "."%byte :: ext).
      rewrite app_assoc.
      rewrite (find_last_from_hit ["."%byte] (dir ++ sep :: stem) "."%byte ext 0 npos eq_refl
                 (NoDot ext Fext)).
      rewrite length_app. cbn [length]. lia. }
    rewrite LD. rewrite length_app in Len. cbn [length] in Len.
    assert (NP : (Z.of_nat (length dir) + 1 + Z.of_nat (length stem) =? npos) = false).
    { apply Z.eqb_neq. pose proof npos_value. change (2 ^ 64) with 18446744073709551616 in *.
      lia. }
    assert (Lt : (Z.of_nat (length dir)
                  <? Z.of_nat (length dir) + 1 + Z.of_nat (length stem)) = true)
      by (apply Z.ltb_lt; lia).
    rewrite NP, Lt. cbn [negb andb]. unfold substr.
    assert (L0 : (Z.of_nat (length (stem ++ "."%byte :: ext)) <? 0) = false)
      by (apply Z.ltb_ge; lia).
    rewrite L0. cbn [Z.to_nat skipn].
    replace (Z.of_nat (length dir) + 1 + Z.of_nat (length stem)
             - (Z.of_nat (length dir) + 1)) with (Z.of_nat (length stem)) by lia.
    unfold wrap_size_t. rewrite Z.mod_small
      by (change (2 ^ 64) with 18446744073709551616 in *; lia).
    rewrite Nat2Z.id, firstn_stem. reflexivity.
  - intros Fname.
    assert (LD : find_last_of ["."%byte] (dir ++ sep :: name)
                 = find_last_of ["."%byte] dir).
    { unfold find_last_of. rewrite find_last_from_app. apply find_last_from_none.
      constructor; [apply separator_is_no_dot, Sep|apply NoDot, Fname]. }
    rewrite LD. unfold find_last_of.
    destruct (find_last_from_range ["."%byte] dir 0 npos) as [->|R].
    + rewrite Z.eqb_refl. reflexivity.
    + assert (Lt : (Z.of_nat (length dir) <? find_last_from ["."%byte] dir 0 npos)
                   = false) by (apply Z.ltb_ge; lia).
      rewrite Lt, andb_false_r. reflexivity.
Qed.

(** X17. In batch mode the output of a file [dir ++ sep :: stem ++ "." ++ ext]
    goes to [outputDir ++ "/" ++ stem ++ ".huf"]: the directory and the
    extension of the input play no part, so two inputs that differ only in
    these are written to the same output file, the second over the first. *)
Theorem batch_output_name_of_stem outputDir dir sep stem ext :
  Z.of_nat (length (dir ++ sep :: stem ++ "."%byte :: ext)) < 2 ^ 64 ->
  sep = "/"%byte \/ sep = x5c ->
  Forall (fun c => c <> "/"%byte /\ c <> x5c) (stem ++ "."%byte :: ext) ->
  Forall (fun c => c <> "."%byte) ext ->
  batch_output_name outputDir (dir ++ sep :: stem ++ "."%byte :: ext)
  = Some (outputDir ++ ["/"%byte] ++ stem ++ ["."; "h"; "u"; "f"]%byte).
Proof.
  intros Len Sep NoSep Fext.
  assert (NoSep' : Forall (fun c => existsb (Byte.eqb c) ["/"%byte; x5c] = false)
                          (stem ++ "."%byte :: ext)).
  { eapply Forall_impl; [|exact NoSep]. intros c [N1 N2]. cbn [existsb].
    rewrite (byte_eqb_neq _ _ N1), (byte_eqb_neq _ _ N2). reflexivity. }
  assert (NoDot : Forall (fun c => existsb (Byte.eqb c) ["."%byte] = false) ext).
  { eapply Forall_impl; [|exact Fext]. intros c N. cbn [existsb].
    rewrite (byte_eqb_neq _ _ N). reflexivity. }
  unfold batch_output_name.
  rewrite (file_name_cut dir sep _ Len Sep NoSep'). cbv zeta.
  assert (LD : find_last_of ["."%byte] (dir ++ sep :: stem ++ "."%byte :: ext)
               = Z.of_nat (length dir) + 1 + Z.of_nat (length stem)).
  { unfold find_last_of.
    change (dir ++ sep :: stem ++ "."%byte :: ext)
      with (dir ++ (sep :: stem) ++ "."%byte :: ext).
    rewrite app_assoc.
    rewrite (find_last_from_hit ["."%byte] (dir ++ sep :: stem) "."%byte ext 0 npos eq_refl NoDot).
    rewrite length_app. cbn [length]. lia. }
  rewrite LD. rewrite !length_app in Len. cbn [length] in Len.
  rewrite length_app in Len. cbn [length] in Len.
  assert (NP : (Z.of_nat (length dir) + 1 + Z.of_nat (length stem) =? npos) = false).
  { apply Z.eqb_neq. pose proof npos_value. change (2 ^ 64) with 18446744073709551616 in *.
    lia. }
  assert (Lt : (Z.of_nat (length dir)
                <? Z.of_nat (length dir) + 1 + Z.of_nat (length stem)) = true)
    by (apply Z.ltb_lt; lia).
  rewrite NP, Lt. cbn [negb andb]. unfold substr.
  assert (L0 : (Z.of_nat (length (stem ++ "."%byte :: ext)) <? 0) = false)
    by (apply Z.ltb_ge; lia).
  rewrite L0. cbn [Z.to_nat skipn].
  replace (Z.of_nat (length dir) + 1 + Z.of_nat (length stem)
           - (Z.of_nat (length dir) + 1)) with (Z.of_nat (length stem)) by lia.
  unfold wrap_size_t. rewrite Z.mod_small
    by (change (2 ^ 64) with 18446744073709551616 in *; lia).
  rewrite Nat2Z.id, firstn_stem. reflexivity.
Qed.

(** ** The progress bar *)

Lemma cells_at (k : nat) :
  (k <= 30)%nat ->
  map (fun i => if i <? Z.of_nat k then Filled
                else if i =? Z.of_nat k then Head else Blank)
      (map Z.of_nat (seq 0 30))
  = repeat Filled k
      ++ (if (k <? 30)%nat then Head :: repeat Blank (29 - k) else []).
Proof.
  intros Le.
  do 31 (destruct k as [|k]; [reflexivity|]). lia.
Qed.

(** X18. With progress switched off ([showProgress] false, as after
    [toggleProgress(false)]) [displayProgress] prints nothing. With it on,
    for a percentage from 0 to 100, it prints a bar of 30 cells:
    [30 * percentage / 100] green blocks, rounded down, then one yellow
    block and spaces up to the width; at 100 all 30 cells are green and
    there is no yellow block. *)
Theorem progress_bar show percentage :
  0 <= percentage <= 100 ->
  let pos := Z.to_nat (30 * percentage / 100) in
  progress_cells (toggleProgress show) percentage
  = (if show
     then Some (repeat Filled pos
                  ++ (if percentage <? 100 then Head :: repeat Blank (29 - pos)
                      else []))
     else None) /\
  forall cells,
    progress_cells (toggleProgress show) percentage = Some cells ->
    show = true /\ length cells = 30%nat.
Proof.
  intros R. cbv zeta. unfold toggleProgress.
  assert (W : Z.quot (wrap_int (30 * percentage)) 100 = 30 * percentage / 100).
  { rewrite wrap_int_small by (change (2 ^ 31) with 2147483648; lia).
    apply Z.quot_div_nonneg; lia. }
  assert (B : 0 <= 30 * percentage / 100 <= 30).
  { split; [apply Z.div_pos; lia|]. apply Z.div_le_upper_bound; lia. }
  assert (Full : (Z.to_nat (30 * percentage / 100) <? 30)%nat = (percentage <? 100)).
  { destruct (Z.ltb_spec percentage 100) as [Lt|Ge].
    - apply Nat.ltb_lt.
      assert (30 * percentage / 100 < 30) by (apply Z.div_lt_upper_bound; lia). lia.
    - apply Nat.ltb_ge. replace percentage with 100 by lia.
      change (30 * 100 / 100) with 30. lia. }
  destruct show; unfold progress_cells; cbn [negb]; cbv zeta.
  - split.
    + rewrite W, <- Full.
      set (q := 30 * percentage / 100) in *.
      assert (E : q = Z.of_nat (Z.to_nat q)) by lia.
      rewrite E, Nat2Z.id. f_equal. apply cells_at. lia.
    + intros cells E. apply (f_equal (option_map (@length cell))) in E.
      cbn [option_map] in E. rewrite !length_map, length_seq in E.
      injection E as <-. split; reflexivity.
  - split; [reflexivity|]. intros cells E. discriminate.
Qed.

(** ** One size on every platform *)

Lemma container_length root input :
  huff root ->
  Z.of_nat (length (container_of root input))
  = 13 + 3 * Z.of_nat (length (leaves root))
    + (code_bits (buildCodeMap root [] []) input + 7) / 8.
Proof.
  intros H. pose proof (writeTree_length root H) as TL.
  unfold code_bits. rewrite <- pack_bits_length.
  unfold container_of, header_of, payload_of.
  rewrite !length_app. unfold MAGIC, size_t_bytes. cbn [length]. lia.
Qed.

(** X19. The order in which the frequency map is walked and the way the
    queue breaks ties are left to the implementation, and the bytes of the
    container depend on them; its length does not. For an input of two
    distinct byte values or more, shorter than 2^31 bytes, [compress] writes
    containers of one and the same length on any two platforms. *)
Theorem container_length_same_on_all_platforms (P1 P2 : Platform) input :
  two_symbols input -> Z.of_nat (length input) < 2 ^ 31 ->
  exists c1 c2,
    @compress P1 input = Returns c1 /\ @compress P2 input = Returns c2 /\
    length c1 = length c2.
Proof.
  intros Two Len.
  destruct (@huffman_root_many P1 input Two) as (r1 & E1 & H1 & NL1 & ND1 & Lv1).
  destruct (@huffman_root_many P2 input Two) as (r2 & E2 & H2 & NL2 & ND2 & Lv2).
  destruct (@huffman_root_least_cost P1 input r2 Two Len H2 ND2 Lv2)
    as (r1' & E1' & _ & _ & _ & _ & Le1).
  destruct (@huffman_root_least_cost P2 input r1 Two Len H1 ND1 Lv1)
    as (r2' & E2' & _ & _ & _ & _ & Le2).
  rewrite E1 in E1'. injection E1' as <-. rewrite E2 in E2'. injection E2' as <-.
  exists (container_of r1 input), (container_of r2 input).
  unfold compress. rewrite E1, E2. cbn [bind]. repeat split.
  apply Nat2Z.inj. rewrite (container_length r1 input H1), (container_length r2 input H2).
  rewrite (code_bits_cost input r1 H1 NL1 ND1) by (intros a I; apply Lv1, I).
  rewrite (code_bits_cost input r2 H2 NL2 ND2) by (intros a I; apply Lv2, I).
  rewrite (distinct_count (leaves r1) (leaves r2) ND1 ND2)
    by (intros c; rewrite Lv1, Lv2; reflexivity).
  replace (cost (occurrences input) r1) with (cost (occurrences input) r2) by lia.
  reflexivity.
Qed.

(** ** The further properties at concrete inputs *)

Ltac two_symbols_a_b :=
  exists "a"%byte, "b"%byte; repeat split; [simpl; auto|simpl; auto 6|discriminate].

Ltac no_separator :=
  repeat (constructor; [split; discriminate|]); constructor.

Ltac no_dot :=
  repeat (constructor; [discriminate|]); constructor.

Lemma roundtrip_at_least_two_symbols_witness :
  two_symbols aaaabbbcc /\ Z.of_nat (length aaaabbbcc) < 2 ^ 56 /\
  exists container,
    @compress insertion_platform aaaabbbcc = Returns container /\
    @decompress insertion_platform container = Returns (true, aaaabbbcc).
Proof.
  assert (Two : two_symbols aaaabbbcc) by two_symbols_a_b.
  assert (Len : Z.of_nat (length aaaabbbcc) < 2 ^ 56) by (vm_compute; reflexivity).
  split; [exact Two|]. split; [exact Len|].
  exact (@roundtrip_at_least_two_symbols insertion_platform aaaabbbcc Two Len).
Defined.

Lemma trailing_bytes_ignored_witness :
  two_symbols aaaabbbcc /\ Z.of_nat (length aaaabbbcc) < 2 ^ 55 /\
  Z.of_nat (length ["x"; "y"]%byte) < 2 ^ 55 /\
  exists container,
    @compress insertion_platform aaaabbbcc = Returns container /\
    @decompress insertion_platform (container ++ ["x"; "y"]%byte)
    = Returns (true, aaaabbbcc).
Proof.
  assert (Two : two_symbols aaaabbbcc) by two_symbols_a_b.
  assert (Len : Z.of_nat (length aaaabbbcc) < 2 ^ 55) by (vm_compute; reflexivity).
  assert (Junk : Z.of_nat (length ["x"; "y"]%byte) < 2 ^ 55) by (vm_compute; reflexivity).
  split; [exact Two|]. split; [exact Len|]. split; [exact Junk|].
  exact (@trailing_bytes_ignored insertion_platform aaaabbbcc ["x"; "y"]%byte
           Two Len Junk).
Defined.

Lemma codes_prefix_free_witness :
  two_symbols aaaabbbcc /\
  exists root,
    @huffman_root insertion_platform aaaabbbcc = Returns root /\
    (forall a b q, In a aaaabbbcc -> In b aaaabbbcc ->
       map_get (buildCodeMap root [] []) a ++ q = map_get (buildCodeMap root [] []) b ->
       q = [] /\ a = b) /\
    (forall a, In a aaaabbbcc ->
       (1 <= length (map_get (buildCodeMap root [] []) a) <= 255)%nat).
Proof.
  assert (Two : two_symbols aaaabbbcc) by two_symbols_a_b.
  split; [exact Two|].
  exact (@codes_prefix_free insertion_platform aaaabbbcc Two).
Defined.

Lemma bad_magic_rejected_witness :
  (4 <= length ["H"; "U"; "F"; "2"; "0"; "1"; "a"]%byte)%nat /\
  (firstn 4 ["H"; "U"; "F"; "2"; "0"; "1"; "a"]%byte <> MAGIC ->
   @decompress insertion_platform ["H"; "U"; "F"; "2"; "0"; "1"; "a"]%byte
   = Returns (false, [])) /\
  (firstn 4 ["H"; "U"; "F"; "2"; "0"; "1"; "a"]%byte = MAGIC ->
   forall r,
     @decompress insertion_platform ["H"; "U"; "F"; "2"; "0"; "1"; "a"]%byte
     = Returns r -> fst r = true).
Proof.
  assert (Ge : (4 <= length ["H"; "U"; "F"; "2"; "0"; "1"; "a"]%byte)%nat)
    by (simpl; lia).
  split; [exact Ge|].
  exact (@bad_magic_rejected insertion_platform
           ["H"; "U"; "F"; "2"; "0"; "1"; "a"]%byte Ge).
Defined.

Lemma decompress_output_bounded_witness :
  @decompress insertion_platform (container_of aaaabbbcc_root aaaabbbcc)
  = Returns (true, aaaabbbcc) /\
  (length aaaabbbcc <= 8 * (length (container_of aaaabbbcc_root aaaabbbcc) - 15))%nat /\
  forall root s,
    readTree (skipn 4 (container_of aaaabbbcc_root aaaabbbcc)) = Returns (root, s) ->
    Z.of_nat (length aaaabbbcc) <= size_t_value (firstn 8 (tl s)).
Proof.
  assert (D : @decompress insertion_platform (container_of aaaabbbcc_root aaaabbbcc)
              = Returns (true, aaaabbbcc)) by (vm_compute; reflexivity).
  split; [exact D|].
  exact (@decompress_output_bounded insertion_platform
           (container_of aaaabbbcc_root aaaabbbcc) true aaaabbbcc D).
Defined.

Lemma any_payload_decodes_witness :
  two_symbols aaaabbbcc /\
  exists root,
    @compress insertion_platform aaaabbbcc
    = Returns (header_of root aaaabbbcc ++ payload_of root aaaabbbcc) /\
    forall payload,
      exists out,
        @decompress insertion_platform (header_of root aaaabbbcc ++ payload)
        = Returns (true, out) /\
        (length out <= length aaaabbbcc)%nat /\
        Forall (fun c => In c aaaabbbcc) out.
Proof.
  assert (Two : two_symbols aaaabbbcc) by two_symbols_a_b.
  split; [exact Two|].
  exact (@any_payload_decodes insertion_platform aaaabbbcc Two).
Defined.

Lemma single_symbol_output_witness :
  ["a"; "a"; "a"]%byte <> [] /\
  Forall (eq "a"%byte) ["a"; "a"; "a"]%byte /\
  Z.of_nat (length ["a"; "a"; "a"]%byte) < 2 ^ 56 /\
  exists container,
    @compress insertion_platform ["a"; "a"; "a"]%byte = Returns container /\
    @decompress insertion_platform container
    = Returns (true, repeat "a"%byte
                       (8 * ((length ["a"; "a"; "a"]%byte + 7) / 8 - 1))) /\
    (8 * ((length ["a"; "a"; "a"]%byte + 7) / 8 - 1)
     < length ["a"; "a"; "a"]%byte)%nat.
Proof.
  assert (NE : ["a"; "a"; "a"]%byte <> []) by discriminate.
  assert (All : Forall (eq "a"%byte) ["a"; "a"; "a"]%byte) by (repeat constructor).
  assert (Len : Z.of_nat (length ["a"; "a"; "a"]%byte) < 2 ^ 56)
    by (vm_compute; reflexivity).
  split; [exact NE|]. split; [exact All|]. split; [exact Len|].
  exact (@single_symbol_output insertion_platform ["a"; "a"; "a"]%byte "a"%byte
           NE All Len).
Defined.

Lemma count_freq_counts_witness :
  Z.of_nat (length aaaabbbcc) < 2 ^ 31 /\
  NoDup (map fst (count_freq aaaabbbcc)) /\
  forall c n, In (c, n) (count_freq aaaabbbcc)
              <-> In c aaaabbbcc /\ n = occurrences aaaabbbcc c.
Proof.
  assert (Len : Z.of_nat (length aaaabbbcc) < 2 ^ 31) by (vm_compute; reflexivity).
  split; [exact Len|].
  exact (count_freq_counts aaaabbbcc Len).
Defined.

Lemma code_bits_weighted_witness :
  Z.of_nat (length aaaabbbcc) < 2 ^ 31 /\
  code_bits (buildCodeMap aaaabbbcc_root [] []) aaaabbbcc
  = weighted_length (count_freq aaaabbbcc) (buildCodeMap aaaabbbcc_root [] []).
Proof.
  assert (Len : Z.of_nat (length aaaabbbcc) < 2 ^ 31) by (vm_compute; reflexivity).
  split; [exact Len|].
  exact (code_bits_weighted aaaabbbcc (buildCodeMap aaaabbbcc_root [] []) Len).
Defined.

Lemma root_weight_is_input_length_witness :
  two_symbols aaaabbbcc /\ Z.of_nat (length aaaabbbcc) < 2 ^ 31 /\
  exists root,
    @huffman_root insertion_platform aaaabbbcc = Returns root /\
    freq_of root = Z.of_nat (length aaaabbbcc).
Proof.
  assert (Two : two_symbols aaaabbbcc) by two_symbols_a_b.
  assert (Len : Z.of_nat (length aaaabbbcc) < 2 ^ 31) by (vm_compute; reflexivity).
  split; [exact Two|]. split; [exact Len|].
  exact (@root_weight_is_input_length insertion_platform aaaabbbcc Two Len).
Defined.

Lemma huffman_tree_optimal_witness :
  two_symbols aaaabbbcc /\ Z.of_nat (length aaaabbbcc) < 2 ^ 31 /\
  huff lopsided /\ NoDup (leaves lopsided) /\
  (forall c, In c (leaves lopsided) <-> In c aaaabbbcc) /\
  exists root,
    @huffman_root insertion_platform aaaabbbcc = Returns root /\
    code_bits (buildCodeMap root [] []) aaaabbbcc
    <= code_bits (buildCodeMap lopsided [] []) aaaabbbcc.
Proof.
  assert (Two : two_symbols aaaabbbcc) by two_symbols_a_b.
  assert (Len : Z.of_nat (length aaaabbbcc) < 2 ^ 31) by (vm_compute; reflexivity).
  assert (H : huff lopsided) by (repeat constructor).
  assert (ND : NoDup (leaves lopsided)).
  { simpl. repeat constructor; simpl; intuition discriminate. }
  assert (Same : forall c, In c (leaves lopsided) <-> In c aaaabbbcc)
    by (intros c; simpl; intuition).
  split; [exact Two|]. split; [exact Len|]. split; [exact H|]. split; [exact ND|].
  split; [exact Same|].
  exact (@huffman_tree_optimal insertion_platform aaaabbbcc lopsided
           Two Len H ND Same).
Defined.

Lemma compress_reports_sizes_witness :
  two_symbols aaaabbbcc /\ Z.of_nat (length aaaabbbcc) < 2 ^ 31 /\
  exists root stats,
    @huffman_root insertion_platform aaaabbbcc = Returns root /\
    @compress_stats insertion_platform aaaabbbcc = Returns stats /\
    stats_originalSize stats = Z.of_nat (length aaaabbbcc) /\
    stats_uniqueChars stats = Z.of_nat (length (nodup Byte.byte_eq_dec aaaabbbcc)) /\
    stats_compressedSize stats
    = 13 + 3 * stats_uniqueChars stats
      + (code_bits (buildCodeMap root [] []) aaaabbbcc + 7) / 8.
Proof.
  assert (Two : two_symbols aaaabbbcc) by two_symbols_a_b.
  assert (Len : Z.of_nat (length aaaabbbcc) < 2 ^ 31) by (vm_compute; reflexivity).
  split; [exact Two|]. split; [exact Len|].
  exact (@compress_reports_sizes insertion_platform aaaabbbcc Two Len).
Defined.

Lemma tree_codec_roundtrip_witness :
  huff aaaabbbcc_root /\
  readTree (writeTree aaaabbbcc_root ++ ["#"%byte])
  = Returns (erase aaaabbbcc_root, ["#"%byte]) /\
  leaves (erase aaaabbbcc_root) = leaves aaaabbbcc_root /\
  (forall str m,
     buildCodeMap (erase aaaabbbcc_root) str m = buildCodeMap aaaabbbcc_root str m) /\
  (length (writeTree aaaabbbcc_root) + 1 = 3 * length (leaves aaaabbbcc_root))%nat.
Proof.
  assert (H : huff aaaabbbcc_root) by (repeat constructor).
  split; [exact H|].
  exact (tree_codec_roundtrip aaaabbbcc_root ["#"%byte] H).
Defined.

Lemma file_name_without_separator_witness :
  Z.of_nat (length report_txt) < 2 ^ 64 /\
  Forall (fun c => c <> "/"%byte /\ c <> x5c) report_txt /\
  getFileNameWithoutExtension report_txt = Some report_txt.
Proof.
  assert (Len : Z.of_nat (length report_txt) < 2 ^ 64) by (vm_compute; reflexivity).
  assert (NoSep : Forall (fun c => c <> "/"%byte /\ c <> x5c) report_txt)
    by (unfold report_txt; no_separator).
  split; [exact Len|]. split; [exact NoSep|].
  exact (file_name_without_separator report_txt Len NoSep).
Defined.

Lemma file_name_after_separator_witness :
  Z.of_nat (length (docs ++ "/"%byte :: report_txt)) < 2 ^ 64 /\
  ("/"%byte = "/"%byte \/ "/"%byte = x5c) /\
  Forall (fun c => c <> "/"%byte /\ c <> x5c) report_txt /\
  (forall stem ext,
     report_txt = stem ++ "."%byte :: ext -> Forall (fun c => c <> "."%byte) ext ->
     getFileNameWithoutExtension (docs ++ "/"%byte :: report_txt) = Some stem) /\
  (Forall (fun c => c <> "."%byte) report_txt ->
   getFileNameWithoutExtension (docs ++ "/"%byte :: report_txt) = Some report_txt).
Proof.
  assert (Len : Z.of_nat (length (docs ++ "/"%byte :: report_txt)) < 2 ^ 64)
    by (vm_compute; reflexivity).
  assert (Sep : "/"%byte = "/"%byte \/ "/"%byte = x5c) by (left; reflexivity).
  assert (NoSep : Forall (fun c => c <> "/"%byte /\ c <> x5c) report_txt)
    by (unfold report_txt; no_separator).
  split; [exact Len|]. split; [exact Sep|]. split; [exact NoSep|].
  exact (file_name_after_separator docs "/"%byte report_txt Len Sep NoSep).
Defined.

Lemma batch_output_name_of_stem_witness :
  Z.of_nat (length (docs ++ "/"%byte :: ["r"; "e"; "p"]%byte ++ "."%byte :: ["t"]%byte))
  < 2 ^ 64 /\
  ("/"%byte = "/"%byte \/ "/"%byte = x5c) /\
  Forall (fun c => c <> "/"%byte /\ c <> x5c) (["r"; "e"; "p"]%byte ++ "."%byte :: ["t"]%byte) /\
  Forall (fun c => c <> "."%byte) ["t"]%byte /\
  batch_output_name ["o"; "u"; "t"]%byte
    (docs ++ "/"%byte :: ["r"; "e"; "p"]%byte ++ "."%byte :: ["t"]%byte)
  = Some (["o"; "u"; "t"]%byte ++ ["/"%byte] ++ ["r"; "e"; "p"]%byte
          ++ ["."; "h"; "u"; "f"]%byte).
Proof.
  assert (Len : Z.of_nat (length (docs ++ "/"%byte :: ["r"; "e"; "p"]%byte
                                       ++ "."%byte :: ["t"]%byte)) < 2 ^ 64)
    by (vm_compute; reflexivity).
  assert (Sep : "/"%byte = "/"%byte \/ "/"%byte = x5c) by (left; reflexivity).
  assert (NoSep : Forall (fun c => c <> "/"%byte /\ c <> x5c)
                         (["r"; "e"; "p"]%byte ++ "."%byte :: ["t"]%byte))
    by (cbn [app]; no_separator).
  assert (NoDot : Forall (fun c => c <> "."%byte) ["t"]%byte) by no_dot.
  split; [exact Len|]. split; [exact Sep|]. split; [exact NoSep|]. split; [exact NoDot|].
  exact (batch_output_name_of_stem ["o"; "u"; "t"]%byte docs "/"%byte
           ["r"; "e"; "p"]%byte ["t"]%byte Len Sep NoSep NoDot).
Defined.

Lemma progress_bar_witness :
  0 <= 50 <= 100 /\
  progress_cells (toggleProgress true) 50
  = Some (repeat Filled (Z.to_nat (30 * 50 / 100))
            ++ (if 50 <? 100 then Head :: repeat Blank (29 - Z.to_nat (30 * 50 / 100))
                else [])) /\
  forall cells,
    progress_cells (toggleProgress true) 50 = Some cells ->
    true = true /\ length cells = 30%nat.
Proof.
  assert (R : 0 <= 50 <= 100) by lia.
  split; [exact R|].
  exact (progress_bar true 50 R).
Defined.

Lemma container_length_same_on_all_platforms_witness :
  two_symbols ["a"; "b"]%byte /\ Z.of_nat (length ["a"; "b"]%byte) < 2 ^ 31 /\
  exists c1 c2,
    @compress insertion_platform ["a"; "b"]%byte = Returns c1 /\
    @compress reversed_platform ["a"; "b"]%byte = Returns c2 /\
    length c1 = length c2.
Proof.
  assert (Two : two_symbols ["a"; "b"]%byte)
    by (exists "a"%byte, "b"%byte; repeat split; [simpl; auto|simpl; auto|discriminate]).
  assert (Len : Z.of_nat (length ["a"; "b"]%byte) < 2 ^ 31) by (vm_compute; reflexivity).
  split; [exact Two|]. split; [exact Len|].
  exact (container_length_same_on_all_platforms insertion_platform reversed_platform
           ["a"; "b"]%byte Two Len).
Defined.

(** ** Runs without ties *)








Section NoTies.

Context {P : Platform}.



End NoTies.



